(** * Knowledge-graph explorer: parser, graph builder and subgraph selector

    A shallow embedding of the core of [knowledge_graph_explorer.py]:
    - [parse_cypher_file]: seven regular-expression scans of the script text
      that fill three entity dictionaries and a relationship list;
    - [build_networkx_graph]: the directed graph built from the parsed data;
    - the filtering part of [create_pyvis_graph], which computes the
      subgraph that is handed to the renderer, and of its drawing the labels
      of the nodes and the colours of the edges;
    - the views [create_path_view], [create_concept_view] and
      [create_relationships_view];
    - the lists that [display_node_details] and the tabs of [main] write.

    Python dictionaries are [gmap]s, Python sets are [gset]s, lists are
    lists.  An exception is [None] in the option monad.  The text of a script
    is a [string] whose characters are the code points 0-255. *)

From Stdlib Require Import ZArith Ascii String Sorted.
From stdpp Require Import gmap strings list fin_maps pretty.

Open Scope string_scope.
Open Scope list_scope.

(** ** Regular expressions

    The seven patterns of the parser are flat sequences of literal text,
    repeated character classes ([\s*]) and capturing groups of the form
    literal prefix followed by a repeated class, such as [(N\d+)].  The
    matcher below is the usual greedy backtracking matcher restricted to
    that fragment. *)

Inductive quant := Star | Plus.

Inductive item :=
| Lit (l : string)
| Rep (c : ascii → bool) (q : quant)
| Grp (pre : string) (c : ascii → bool) (q : quant).

Definition pattern := list item.

Fixpoint strip_prefix (l s : string) : option string :=
  match l with
  | EmptyString => Some s
  | String a l' =>
      match s with
      | String b s' => if Ascii.eqb a b then strip_prefix l' s' else None
      | EmptyString => None
      end
  end.

Section greedy.
Context {R : Type} (c : ascii → bool) (k : string → option R).

(** [c*] followed by the continuation [k]: the longest run first, one
    character given back at a time while the continuation fails. *)
Fixpoint rep_star (s : string) : option (string * R) :=
  match s with
  | String a s' =>
      if c a then
        match rep_star s' with
        | Some (w, r) => Some (String a w, r)
        | None => pair EmptyString <$> k s
        end
      else pair EmptyString <$> k s
  | EmptyString => pair EmptyString <$> k s
  end.

Definition rep_plus (s : string) : option (string * R) :=
  match s with
  | String a s' =>
      if c a then prod_map (String a) id <$> rep_star s' else None
  | EmptyString => None
  end.

Definition rep (q : quant) : string → option (string * R) :=
  match q with Star => rep_star | Plus => rep_plus end.
End greedy.

(** [match_items p s]: match [p] at the start of [s] (as [re.match] does);
    the result is the list of captured groups and the unread text. *)
Fixpoint match_items (p : pattern) (s : string) : option (list string * string) :=
  match p with
  | [] => Some ([], s)
  | Lit l :: p' => strip_prefix l s ≫= match_items p'
  | Rep c q :: p' => snd <$> rep c (match_items p') q s
  | Grp pre c q :: p' =>
      s' ← strip_prefix pre s;
      '(w, (caps, rest)) ← rep c (match_items p') q s';
      Some ((pre +:+ w) :: caps, rest)
  end.

(** [re.finditer]: scan from left to right, matches do not overlap; after a
    match the scan resumes where the match ended (one character further on
    when the match was empty). *)
Fixpoint finditer_from (fuel : nat) (p : pattern) (s : string) : list (list string) :=
  match fuel with
  | O => []
  | S fuel' =>
      match match_items p s with
      | Some (caps, rest) =>
          caps ::
            (if (String.length rest <? String.length s)%nat
             then finditer_from fuel' p rest
             else match s with
                  | String _ s' => finditer_from fuel' p s'
                  | EmptyString => []
                  end)
      | None =>
          match s with
          | String _ s' => finditer_from fuel' p s'
          | EmptyString => []
          end
      end
  end.

Definition finditer (p : pattern) (s : string) : list (list string) :=
  finditer_from (S (String.length s)) p s.

(** *** Character classes (code points 0-255) *)

Definition code (a : ascii) : nat := nat_of_ascii a.

Definition in_range (lo hi : nat) (a : ascii) : bool :=
  ((lo <=? code a) && (code a <=? hi))%nat.

(** [\d] *)
Definition is_digit (a : ascii) : bool := in_range 48 57 a.

(** [\s]: blank, tab to carriage return, the four separators 28-31,
    next-line and no-break space. *)
Definition is_space (a : ascii) : bool :=
  in_range 9 13 a || in_range 28 32 a || (code a =? 133)%nat || (code a =? 160)%nat.

(** [\w]: alphanumeric characters and the underscore. *)
Definition is_word (a : ascii) : bool :=
  in_range 48 57 a || in_range 65 90 a || in_range 97 122 a || (code a =? 95)%nat
  || (code a =? 170)%nat || (code a =? 178)%nat || (code a =? 179)%nat || (code a =? 181)%nat
  || (code a =? 185)%nat || (code a =? 186)%nat || in_range 188 190 a
  || in_range 192 214 a || in_range 216 246 a || in_range 248 255 a.

(** Any character but the double quote. *)
Definition not_quote (a : ascii) : bool := negb (code a =? 34)%nat.

Definition dq : string := String (ascii_of_nat 34) EmptyString.

(** *** The patterns of [parse_cypher_file] *)

Definition ws : item := Rep is_space Star.
Definition quoted (pre : string) (c : ascii → bool) (q : quant) : pattern :=
  [Lit dq; Grp pre c q; Lit dq].

Definition knowledge_node_pattern : pattern :=
  [Lit "CREATE (n:KnowledgeNode {"; ws; Lit "id: "] ++ quoted "N" is_digit Plus ++
  [Lit ","; ws; Lit "title: "] ++ quoted EmptyString not_quote Plus ++
  [Lit ","; ws; Lit "description: "] ++ quoted EmptyString not_quote Plus ++
  [Lit ","; ws; Lit "difficulty: "] ++ quoted EmptyString not_quote Plus ++
  [Lit ","; ws; Lit "estimatedMinutes: "; Grp EmptyString is_digit Plus] ++
  [Lit ","; ws; Lit "source_lesson: "] ++ quoted EmptyString not_quote Star ++
  [Lit ","; ws; Lit "source_title: "] ++ quoted EmptyString not_quote Star ++
  [ws; Lit "});"].

Definition concept_pattern : pattern :=
  [Lit "CREATE (c:Concept {"; ws; Lit "id: "] ++ quoted "CONCEPT-" is_digit Plus ++
  [Lit ","; ws; Lit "name: "] ++ quoted EmptyString not_quote Plus ++
  [Lit ","; ws; Lit "description: "] ++ quoted EmptyString not_quote Plus ++
  [Lit ","; ws; Lit "estimatedMinutes: "; Grp EmptyString is_digit Plus] ++
  [ws; Lit "});"].

Definition path_pattern : pattern :=
  [Lit "CREATE (p:LearningPath {"; ws; Lit "id: "] ++ quoted "PATH-" is_digit Plus ++
  [Lit ","; ws; Lit "name: "] ++ quoted EmptyString not_quote Plus ++
  [Lit ","; ws; Lit "description: "] ++ quoted EmptyString not_quote Plus ++
  [Lit ","; ws; Lit "targetAudience: "] ++ quoted EmptyString not_quote Star ++
  [Lit ","; ws; Lit "keyCompetencies: "] ++ quoted EmptyString not_quote Star ++
  [Lit ","; ws; Lit "estimatedMinutes: "; Grp EmptyString is_digit Plus] ++
  [ws; Lit "});"].

Definition node_relationship_pattern : pattern :=
  [Lit "MATCH (a:KnowledgeNode {id: "] ++ quoted "N" is_digit Plus ++
  [Lit "}), (b:KnowledgeNode {id: "] ++ quoted "N" is_digit Plus ++
  [Lit "})"; ws; Lit "CREATE (a)-[:"; Grp EmptyString is_word Plus;
   Lit " {strength: "; Grp EmptyString is_digit Plus; Lit ", justification: "] ++
  quoted EmptyString not_quote Plus ++ [Lit "}]->(b);"].

Definition concept_node_pattern : pattern :=
  [Lit "MATCH (c:Concept {id: "] ++ quoted "CONCEPT-" is_digit Plus ++
  [Lit "}), (n:KnowledgeNode {id: "] ++ quoted "N" is_digit Plus ++
  [Lit "})"; ws; Lit "CREATE (c)-[:CONTAINS {sequence: "; Grp EmptyString is_digit Plus;
   Lit "}]->(n);"].

Definition path_concept_pattern : pattern :=
  [Lit "MATCH (p:LearningPath {id: "] ++ quoted "PATH-" is_digit Plus ++
  [Lit "}), (c:Concept {id: "] ++ quoted "CONCEPT-" is_digit Plus ++
  [Lit "})"; ws; Lit "CREATE (p)-[:INCLUDES {sequence: "; Grp EmptyString is_digit Plus;
   Lit "}]->(c);"].

Definition prereq_pattern : pattern :=
  [Lit "MATCH (a:Concept {id: "] ++ quoted "CONCEPT-" is_digit Plus ++
  [Lit "}), (b:Concept {id: "] ++ quoted "CONCEPT-" is_digit Plus ++
  [Lit "})"; ws; Lit "CREATE (a)-[:PREREQUISITE_FOR]->(b);"].

(** ** Python built-ins used by the parser *)

Definition digit_value (a : ascii) : option Z :=
  if is_digit a then Some (Z.of_nat (code a) - 48)%Z else None.

Fixpoint int_digits (acc : Z) (s : string) : option Z :=
  match s with
  | EmptyString => Some acc
  | String a s' => d ← digit_value a; int_digits (10 * acc + d) s'
  end.

(** The number of digits beyond which CPython refuses to convert a decimal
    literal ([sys.int_info.default_max_str_digits]; the program does not
    change the setting).  Leading zeros count. *)
Definition int_max_str_digits : nat := 4300.

(** [int(s)] on a decimal literal; it raises [ValueError] on a literal of
    more than [int_max_str_digits] digits.  Python accepts a few more
    spellings (a sign, surrounding blanks, underscores); they cannot come
    out of a [\d+] group and are an error here. *)
Definition py_int (s : string) : option Z :=
  match s with
  | EmptyString => None
  | String _ _ =>
      if (int_max_str_digits <? String.length s)%nat then None else int_digits 0 s
  end.

(** [s.split(sep)] for a one-character separator. *)
Fixpoint split (sep : ascii) (s : string) : list string :=
  match s with
  | EmptyString => [EmptyString]
  | String a s' =>
      if Ascii.eqb a sep then EmptyString :: split sep s'
      else match split sep s' with
           | w :: ws => String a w :: ws
           | [] => [String a EmptyString]
           end
  end.

Section sorted.
Context {A : Type} (key : A → Z).

Fixpoint insert_by (x : A) (l : list A) : list A :=
  match l with
  | [] => [x]
  | y :: l' => if (key x <=? key y)%Z then x :: y :: l' else y :: insert_by x l'
  end.

(** [sorted(l, key=key)]: ascending, and stable (elements with equal keys
    keep their order). *)
Fixpoint sorted (l : list A) : list A :=
  match l with
  | [] => []
  | x :: l' => insert_by x (sorted l')
  end.
End sorted.

Fixpoint enumerate_from {A : Type} (i : nat) (l : list A) : list (nat * A) :=
  match l with
  | [] => []
  | x :: l' => (i, x) :: enumerate_from (S i) l'
  end.

Definition enumerate {A : Type} (l : list A) : list (nat * A) := enumerate_from 0 l.

(** A loop whose body may raise. *)
Fixpoint foldM {A S : Type} (f : S → A → option S) (l : list A) (st : S) : option S :=
  match l with
  | [] => Some st
  | x :: l' => f st x ≫= foldM f l'
  end.

(** ** The parsed model *)

Record KnowledgeNode := {
  kn_id : string;
  kn_title : string;
  kn_description : string;
  kn_difficulty : string;
  kn_estimatedMinutes : Z;
  kn_source_lesson : string;
  kn_source_title : string
}.

(** The key [sequence] is only present once it has been assigned. *)
Record Concept := {
  c_id : string;
  c_name : string;
  c_description : string;
  c_estimatedMinutes : Z;
  c_nodes : list string;
  c_sequence : option (list string)
}.

Record LearningPath := {
  p_id : string;
  p_name : string;
  p_description : string;
  p_targetAudience : string;
  p_keyCompetencies : list string;
  p_estimatedMinutes : Z;
  p_concepts : list string;
  p_conceptSequence : option (list string)
}.

Record Relationship := {
  r_source : string;
  r_target : string;
  r_type : string;
  r_strength : Z;
  r_justification : string
}.

Record GraphData := {
  knowledge_nodes : gmap string KnowledgeNode;
  concepts : gmap string Concept;
  learning_paths : gmap string LearningPath;
  relationships : list Relationship
}.

Definition append_node (node_id : string) (c : Concept) : Concept :=
  {| c_id := c_id c; c_name := c_name c; c_description := c_description c;
     c_estimatedMinutes := c_estimatedMinutes c;
     c_nodes := c_nodes c ++ [node_id]; c_sequence := c_sequence c |}.

Definition set_sequence (l : list string) (c : Concept) : Concept :=
  {| c_id := c_id c; c_name := c_name c; c_description := c_description c;
     c_estimatedMinutes := c_estimatedMinutes c;
     c_nodes := c_nodes c; c_sequence := Some l |}.

Definition append_concept (concept_id : string) (p : LearningPath) : LearningPath :=
  {| p_id := p_id p; p_name := p_name p; p_description := p_description p;
     p_targetAudience := p_targetAudience p;
     p_keyCompetencies := p_keyCompetencies p;
     p_estimatedMinutes := p_estimatedMinutes p;
     p_concepts := p_concepts p ++ [concept_id];
     p_conceptSequence := p_conceptSequence p |}.

Definition set_conceptSequence (l : list string) (p : LearningPath) : LearningPath :=
  {| p_id := p_id p; p_name := p_name p; p_description := p_description p;
     p_targetAudience := p_targetAudience p;
     p_keyCompetencies := p_keyCompetencies p;
     p_estimatedMinutes := p_estimatedMinutes p;
     p_concepts := p_concepts p;
     p_conceptSequence := Some l |}.

(** ** [parse_cypher_file]

    One definition per loop body; [groups] is [match.groups()], and
    unpacking it into the wrong number of names raises. *)

Definition knowledge_node_step (knowledge_nodes : gmap string KnowledgeNode)
    (groups : list string) : option (gmap string KnowledgeNode) :=
  match groups with
  | [node_id; title; description; difficulty; minutes; source_lesson; source_title] =>
      minutes ← py_int minutes;
      Some (<[node_id := {| kn_id := node_id; kn_title := title;
                            kn_description := description;
                            kn_difficulty := difficulty;
                            kn_estimatedMinutes := minutes;
                            kn_source_lesson := source_lesson;
                            kn_source_title := source_title |}]> knowledge_nodes)
  | _ => None
  end.

Definition concept_step (concepts : gmap string Concept)
    (groups : list string) : option (gmap string Concept) :=
  match groups with
  | [concept_id; name; description; minutes] =>
      minutes ← py_int minutes;
      Some (<[concept_id := {| c_id := concept_id; c_name := name;
                               c_description := description;
                               c_estimatedMinutes := minutes;
                               c_nodes := []; c_sequence := None |}]> concepts)
  | _ => None
  end.

Definition path_step (learning_paths : gmap string LearningPath)
    (groups : list string) : option (gmap string LearningPath) :=
  match groups with
  | [path_id; name; description; target_audience; key_competencies; minutes] =>
      minutes ← py_int minutes;
      Some (<[path_id := {| p_id := path_id; p_name := name;
                            p_description := description;
                            p_targetAudience := target_audience;
                            p_keyCompetencies :=
                              match key_competencies with
                              | EmptyString => []
                              | String _ _ => split ";" key_competencies
                              end;
                            p_estimatedMinutes := minutes;
                            p_concepts := []; p_conceptSequence := None |}]>
              learning_paths)
  | _ => None
  end.

Definition node_relationship_step (relationships : list Relationship)
    (groups : list string) : option (list Relationship) :=
  match groups with
  | [source; target; rel_type; strength; justification] =>
      strength ← py_int strength;
      Some (relationships ++
              [{| r_source := source; r_target := target; r_type := rel_type;
                  r_strength := strength; r_justification := justification |}])
  | _ => None
  end.

(** The CONTAINS and the INCLUDES statements are handled by the same two
    loops, once over concepts and their units and once over learning paths
    and their concepts.  [owner_members] is [concept_nodes] (respectively
    [path_concepts]), [owners] is [concepts] (respectively
    [learning_paths]). *)
Section member_loops.
Context {A : Type} (members : A → list string)
  (append_member : string → A → A) (set_order : list string → A → A).

Definition member_step
    (st : gmap string (list (string * Z)) * gmap string A)
    (groups : list string)
    : option (gmap string (list (string * Z)) * gmap string A) :=
  let '(owner_members, owners) := st in
  match groups with
  | [owner_id; member_id; sequence] =>
      sequence ← py_int sequence;
      let owner_members :=
        <[owner_id := default [] (owner_members !! owner_id) ++ [(member_id, sequence)]]>
          owner_members in
      let owners :=
        match owners !! owner_id with
        | Some o =>
            if bool_decide (member_id ∈ members o) then owners
            else <[owner_id := append_member member_id o]> owners
        | None => owners
        end in
      Some (owner_members, owners)
  | _ => None
  end.

(** The loop over [owner_members.items()].  Each round writes under its
    own key only, so the order in which the dictionary is walked is
    immaterial. *)
Definition sort_members (owner_members : gmap string (list (string * Z)))
    (owners : gmap string A) : gmap string A :=
  map_fold (λ owner_id l owners,
      let sorted_l := sorted snd l in
      match owners !! owner_id with
      | Some o => <[owner_id := set_order sorted_l.*1 o]> owners
      | None => owners
      end) owners owner_members.
End member_loops.

Definition concept_node_step := member_step c_nodes append_node.
Definition sort_concept_nodes := sort_members set_sequence.
Definition path_concept_step := member_step p_concepts append_concept.
Definition sort_path_concepts := sort_members set_conceptSequence.

Definition prereq_step (relationships : list Relationship)
    (groups : list string) : option (list Relationship) :=
  match groups with
  | [prereq_id; concept_id] =>
      Some (relationships ++
              [{| r_source := prereq_id; r_target := concept_id;
                  r_type := "PREREQUISITE_FOR"; r_strength := 4;
                  r_justification := "Prerequisite concept" |}])
  | _ => None
  end.

(** The body of [parse_cypher_file] once the file has been read into
    [cypher_script]. *)
Definition parse_cypher_file (cypher_script : string) : option GraphData :=
  knowledge_nodes ←
    foldM knowledge_node_step (finditer knowledge_node_pattern cypher_script) ∅;
  concepts ← foldM concept_step (finditer concept_pattern cypher_script) ∅;
  learning_paths ← foldM path_step (finditer path_pattern cypher_script) ∅;
  relationships ←
    foldM node_relationship_step
      (finditer node_relationship_pattern cypher_script) [];
  '(concept_nodes, concepts) ←
    foldM concept_node_step (finditer concept_node_pattern cypher_script)
      (∅, concepts);
  let concepts := sort_concept_nodes concept_nodes concepts in
  '(path_concepts, learning_paths) ←
    foldM path_concept_step (finditer path_concept_pattern cypher_script)
      (∅, learning_paths);
  let learning_paths := sort_path_concepts path_concepts learning_paths in
  relationships ←
    foldM prereq_step (finditer prereq_pattern cypher_script) relationships;
  Some {| knowledge_nodes := knowledge_nodes; concepts := concepts;
          learning_paths := learning_paths; relationships := relationships |}.

(** ** Directed graphs ([networkx.DiGraph])

    A [DiGraph] keeps one attribute dictionary per node and one per ordered
    pair of adjacent nodes: there is no second edge between the same two
    nodes in the same direction.  [g_adj] is the adjacency structure, keyed
    by the pair [(u, v)]. *)

Inductive attr :=
| AStr (s : string)
| AInt (n : Z)
| AList (l : list string).

Record DiGraph := {
  g_node : gmap string (gmap string attr);
  g_adj : gmap (string * string) (gmap string attr)
}.

Definition empty_graph : DiGraph := {| g_node := ∅; g_adj := ∅ |}.

(** [n in G] *)
Definition has_node (G : DiGraph) (n : string) : bool :=
  bool_decide (is_Some (g_node G !! n)).

(** [G.add_node(n, **attrs)]: an existing node has its dictionary updated. *)
Definition add_node (G : DiGraph) (n : string) (attrs : gmap string attr) : DiGraph :=
  {| g_node := <[n := attrs ∪ default ∅ (g_node G !! n)]> (g_node G);
     g_adj := g_adj G |}.

(** [G.add_edge(u, v, **attrs)]: missing endpoints are created with an empty
    dictionary; an existing edge has its dictionary updated. *)
Definition add_edge (G : DiGraph) (u v : string) (attrs : gmap string attr) : DiGraph :=
  let nodes := g_node G in
  let nodes := if has_node G u then nodes else <[u := ∅]> nodes in
  let nodes := if bool_decide (is_Some (nodes !! v)) then nodes else <[v := ∅]> nodes in
  {| g_node := nodes;
     g_adj := <[(u, v) := attrs ∪ default ∅ (g_adj G !! (u, v))]> (g_adj G) |}.

(** [G.successors(n)] and [G.predecessors(n)] *)
Definition successors (G : DiGraph) (n : string) : gset string :=
  set_map snd (filter (λ e, e.1 = n) (dom (g_adj G))).

Definition predecessors (G : DiGraph) (n : string) : gset string :=
  set_map fst (filter (λ e, e.2 = n) (dom (g_adj G))).

(** The invariant every [DiGraph] object maintains: edges join nodes. *)
Definition wf_graph (G : DiGraph) : Prop :=
  ∀ u v, is_Some (g_adj G !! (u, v)) → is_Some (g_node G !! u) ∧ is_Some (g_node G !! v).

(** ** [build_networkx_graph] *)

Definition opt_attr (key : string) (o : option (list string)) : gmap string attr :=
  match o with
  | Some l => {[ key := AList l ]}
  | None => ∅
  end.

(** [dict(node_data)] for the three kinds of entity. *)
Definition knowledge_node_dict (d : KnowledgeNode) : gmap string attr :=
  <["id" := AStr (kn_id d)]> (
  <["title" := AStr (kn_title d)]> (
  <["description" := AStr (kn_description d)]> (
  <["difficulty" := AStr (kn_difficulty d)]> (
  <["estimatedMinutes" := AInt (kn_estimatedMinutes d)]> (
  <["source_lesson" := AStr (kn_source_lesson d)]> (
  <["source_title" := AStr (kn_source_title d)]> ∅)))))).

Definition concept_dict (d : Concept) : gmap string attr :=
  <["id" := AStr (c_id d)]> (
  <["name" := AStr (c_name d)]> (
  <["description" := AStr (c_description d)]> (
  <["estimatedMinutes" := AInt (c_estimatedMinutes d)]> (
  <["nodes" := AList (c_nodes d)]> (opt_attr "sequence" (c_sequence d)))))).

Definition path_dict (d : LearningPath) : gmap string attr :=
  <["id" := AStr (p_id d)]> (
  <["name" := AStr (p_name d)]> (
  <["description" := AStr (p_description d)]> (
  <["targetAudience" := AStr (p_targetAudience d)]> (
  <["keyCompetencies" := AList (p_keyCompetencies d)]> (
  <["estimatedMinutes" := AInt (p_estimatedMinutes d)]> (
  <["concepts" := AList (p_concepts d)]> (
  opt_attr "conceptSequence" (p_conceptSequence d)))))))).

Definition add_knowledge_nodes (graph_data : GraphData) (G : DiGraph) : DiGraph :=
  map_fold (λ node_id node_data G,
      let attrs := knowledge_node_dict node_data in
      let attrs := <["label" := AStr (kn_title node_data)]> attrs in
      let attrs := <["type" := AStr "KnowledgeNode"]> attrs in
      add_node G node_id attrs) G (knowledge_nodes graph_data).

Definition add_concepts (graph_data : GraphData) (G : DiGraph) : DiGraph :=
  map_fold (λ concept_id concept_data G,
      let attrs := concept_dict concept_data in
      let attrs := <["label" := AStr (c_name concept_data)]> attrs in
      let attrs := <["type" := AStr "Concept"]> attrs in
      add_node G concept_id attrs) G (concepts graph_data).

Definition add_learning_paths (graph_data : GraphData) (G : DiGraph) : DiGraph :=
  map_fold (λ path_id path_data G,
      let attrs := path_dict path_data in
      let attrs := <["label" := AStr (p_name path_data)]> attrs in
      let attrs := <["type" := AStr "LearningPath"]> attrs in
      add_node G path_id attrs) G (learning_paths graph_data).

Definition relationship_attrs (rel : Relationship) : gmap string attr :=
  <["relation" := AStr (r_type rel)]> (
  <["strength" := AInt (r_strength rel)]> (
  <["justification" := AStr (r_justification rel)]> ∅)).

Definition add_relationship (G : DiGraph) (rel : Relationship) : DiGraph :=
  if has_node G (r_source rel) && has_node G (r_target rel)
  then add_edge G (r_source rel) (r_target rel) (relationship_attrs rel)
  else G.

Definition add_relationships (graph_data : GraphData) (G : DiGraph) : DiGraph :=
  fold_left add_relationship (relationships graph_data) G.

Definition member_attrs (relation : string) (i : nat) : gmap string attr :=
  <["relation" := AStr relation]> (<["sequence" := AInt (Z.of_nat i + 1)]> ∅).

(** The inner loop shared by the CONTAINS and INCLUDES passes:
    [for i, member in enumerate(seq): if member in G: G.add_edge(...)]. *)
Definition add_member (relation owner : string) (G : DiGraph) (im : nat * string) : DiGraph :=
  if has_node G im.2 then add_edge G owner im.2 (member_attrs relation im.1) else G.

Definition add_members (relation owner : string) (seq : option (list string))
    (G : DiGraph) : DiGraph :=
  match seq with
  | Some l => fold_left (add_member relation owner) (enumerate l) G
  | None => G
  end.

Definition add_concept_edges (graph_data : GraphData) (G : DiGraph) : DiGraph :=
  map_fold (λ concept_id concept_data G,
      add_members "CONTAINS" concept_id (c_sequence concept_data) G)
    G (concepts graph_data).

Definition add_path_edges (graph_data : GraphData) (G : DiGraph) : DiGraph :=
  map_fold (λ path_id path_data G,
      add_members "INCLUDES" path_id (p_conceptSequence path_data) G)
    G (learning_paths graph_data).

Definition build_networkx_graph (graph_data : GraphData) : DiGraph :=
  let G := empty_graph in
  let G := add_knowledge_nodes graph_data G in
  let G := add_concepts graph_data G in
  let G := add_learning_paths graph_data G in
  let G := add_relationships graph_data G in
  let G := add_concept_edges graph_data G in
  add_path_edges graph_data G.

(** ** The subgraph selection of [create_pyvis_graph] *)

(** Truth value of an optional list argument: [None] and [[]] are false. *)
Definition truthy {A : Type} (o : option (list A)) : bool :=
  match o with
  | Some (_ :: _) => true
  | _ => false
  end.

Definition filter_list {A : Type} (o : option (list A)) : list A := default [] o.

(** [G.nodes[node].get(key) in values] *)
Definition attr_in (d : gmap string attr) (key : string) (values : list string) : bool :=
  match d !! key with
  | Some (AStr s) => bool_decide (s ∈ values)
  | _ => false
  end.

(** One round [for n in list(neighbors) + [node_id]: if n in G:
    neighbors.update(next(n))]; the list is taken before the round starts. *)
Definition neighbors_round (G : DiGraph) (next : DiGraph → string → gset string)
    (node_id : string) (neighbors : gset string) : gset string :=
  fold_left (λ neighbors n, if has_node G n then neighbors ∪ next G n else neighbors)
    (elements neighbors ++ [node_id]) neighbors.

(** The set [neighbors] collected for one seed: [range(neighborhood_degree)]
    rounds over successors, then as many over predecessors, on the same set. *)
Definition collect_neighbors (G : DiGraph) (neighborhood_degree : Z)
    (node_id : string) : gset string :=
  let neighbors := ∅ in
  let neighbors :=
    Nat.iter (Z.to_nat neighborhood_degree) (neighbors_round G successors node_id) neighbors in
  Nat.iter (Z.to_nat neighborhood_degree) (neighbors_round G predecessors node_id) neighbors.

Definition seed_nodes (G : DiGraph) (filter_node_ids : list string) : gset string :=
  fold_left (λ nodes node_id, if has_node G node_id then nodes ∪ {[node_id]} else nodes)
    filter_node_ids ∅.

Definition add_neighborhoods (G : DiGraph) (neighborhood_degree : Z)
    (nodes_to_include : gset string) : gset string :=
  fold_left (λ nodes node_id, nodes ∪ collect_neighbors G neighborhood_degree node_id)
    (elements nodes_to_include) nodes_to_include.

Definition add_typed_nodes (G : DiGraph) (filter_types : list string)
    (nodes_to_include : gset string) : gset string :=
  map_fold (λ node d nodes,
      if attr_in d "type" filter_types then nodes ∪ {[node]} else nodes)
    nodes_to_include (g_node G).

Definition nodes_to_include (G : DiGraph) (filter_types filter_node_ids : option (list string))
    (neighborhood_degree : Z) : gset string :=
  let nodes := ∅ in
  let nodes :=
    if truthy filter_node_ids then
      let nodes := seed_nodes G (filter_list filter_node_ids) in
      if (0 <? neighborhood_degree)%Z
      then add_neighborhoods G neighborhood_degree nodes
      else nodes
    else nodes in
  let nodes :=
    if truthy filter_types
    then add_typed_nodes G (filter_list filter_types) nodes
    else nodes in
  if negb (truthy filter_node_ids) && negb (truthy filter_types)
  then dom (g_node G)
  else nodes.

(** [subgraph.add_node(node, **G.nodes[node])]; the subscript raises for a
    node that [G] does not have. *)
Definition copy_node (G subgraph : DiGraph) (node : string) : option DiGraph :=
  add_node subgraph node <$> g_node G !! node.

Definition copy_edges (G : DiGraph) (nodes : gset string)
    (filter_relationships : option (list string)) (subgraph : DiGraph) : DiGraph :=
  map_fold (λ uv data subgraph,
      if bool_decide (uv.1 ∈ nodes) && bool_decide (uv.2 ∈ nodes) then
        if negb (truthy filter_relationships)
           || attr_in data "relation" (filter_list filter_relationships)
        then add_edge subgraph uv.1 uv.2 data
        else subgraph
      else subgraph)
    subgraph (g_adj G).

(** [create_pyvis_graph] up to the graph [subgraph] that it hands to the
    renderer; drawing it and writing the HTML file are left out. *)
Definition create_pyvis_graph (G : DiGraph)
    (filter_types filter_node_ids filter_relationships : option (list string))
    (neighborhood_degree : Z) : option DiGraph :=
  if truthy filter_types || truthy filter_node_ids || truthy filter_relationships then
    let nodes := nodes_to_include G filter_types filter_node_ids neighborhood_degree in
    subgraph ← foldM (copy_node G) (elements nodes) empty_graph;
    Some (copy_edges G nodes filter_relationships subgraph)
  else Some G.

(** ** Notions used to state the properties *)

(** Edge attribute lookup, [G.edges[u, v].get(key)]. *)
Definition edge_attr (G : DiGraph) (u v key : string) : option attr :=
  g_adj G !! (u, v) ≫= (.!! key).

(** The edges of [G] as a list, [list(G.edges(data=True))]. *)
Definition edges (G : DiGraph) : list (string * string * gmap string attr) :=
  map_to_list (g_adj G).

(** There is an edge from [u] to [v] whose relation kind is [kind]. *)
Definition has_edge_kind (G : DiGraph) (u v kind : string) : Prop :=
  ∃ d, (u, v, d) ∈ edges G ∧ d !! "relation" = Some (AStr kind).

Definition is_edge (G : DiGraph) (u v : string) : Prop := is_Some (g_adj G !! (u, v)).

(** One hop, in either direction. *)
Definition adjacent (G : DiGraph) (u v : string) : Prop := is_edge G u v ∨ is_edge G v u.

(** [within_hops G s k v]: the node [v] is at undirected distance at most
    [k] from the node [s]. *)
Inductive within_hops (G : DiGraph) (s : string) : nat → string → Prop :=
| hops_seed k : has_node G s = true → within_hops G s k s
| hops_step k u v : within_hops G s k u → adjacent G u v → within_hops G s (S k) v.

(** The neighbourhood as the specification words it: start from the seeds
    that are nodes, and in each of [k] rounds add every successor and every
    predecessor of every node collected so far. *)
Definition expand_round (G : DiGraph) (X : gset string) : gset string :=
  X ∪ set_bind (λ n, successors G n ∪ predecessors G n) X.

Definition hop_ball (G : DiGraph) (k : nat) (seeds : list string) : gset string :=
  Nat.iter k (expand_round G) (seed_nodes G seeds).

(** Index of the last occurrence of [v] in [l], counted from [i]. *)
Fixpoint last_index_from (i : nat) (l : list string) (v : string) : option nat :=
  match l with
  | [] => None
  | x :: l' =>
      match last_index_from (S i) l' v with
      | Some r => Some r
      | None => if decide (x = v) then Some i else None
      end
  end.

Definition last_index (l : list string) (v : string) : option nat := last_index_from 0 l v.

(** The members declared for [owner] by the matches [ms] of a structural
    pattern, with their declared sequence numbers, in statement order. *)
Definition member_of (owner : string) (groups : list string) : option (string * Z) :=
  match groups with
  | [owner'; member; sequence] =>
      if decide (owner' = owner) then pair member <$> py_int sequence else None
  | _ => None
  end.

Definition declared_members (ms : list (list string)) (owner : string) : list (string * Z) :=
  omap (member_of owner) ms.

Definition contains_members (cypher_script owner : string) : list (string * Z) :=
  declared_members (finditer concept_node_pattern cypher_script) owner.

Definition includes_members (cypher_script owner : string) : list (string * Z) :=
  declared_members (finditer path_concept_pattern cypher_script) owner.

(** First character of an identifier. *)
Definition initial (s : string) : option ascii :=
  match s with
  | String a _ => Some a
  | EmptyString => None
  end.

Definition patterns : list pattern :=
  [knowledge_node_pattern; concept_pattern; path_pattern; node_relationship_pattern;
   concept_node_pattern; path_concept_pattern; prereq_pattern].

(** How a relationship of the parsed list reads off the groups of the
    statement that declared it. *)
Definition declares_relationship (groups : list string) (r : Relationship) : Prop :=
  ∃ strength,
    groups = [r_source r; r_target r; r_type r; strength; r_justification r]
    ∧ py_int strength = Some (r_strength r).

Definition declares_prerequisite (groups : list string) (r : Relationship) : Prop :=
  groups = [r_source r; r_target r] ∧ r_type r = "PREREQUISITE_FOR"
  ∧ r_strength r = 4%Z ∧ r_justification r = "Prerequisite concept".

(** No statement of any of the recognised shapes occurs in the text. *)
Definition unrecognised (cypher_script : string) : Prop :=
  Forall (λ p, finditer p cypher_script = []) patterns.

(** The numeric fields of the recognised statements: the group that each
    loop hands to [int]. *)
Definition numeric_field (index : nat) (p : pattern) (cypher_script : string)
    : list string :=
  omap (λ groups, groups !! index) (finditer p cypher_script).

Definition numeric_fields (cypher_script : string) : list string :=
  numeric_field 4 knowledge_node_pattern cypher_script
  ++ numeric_field 3 concept_pattern cypher_script
  ++ numeric_field 5 path_pattern cypher_script
  ++ numeric_field 3 node_relationship_pattern cypher_script
  ++ numeric_field 2 concept_node_pattern cypher_script
  ++ numeric_field 2 path_concept_pattern cypher_script.

(** No numeric field of the script is beyond the digit limit. *)
Definition within_digit_limit (cypher_script : string) : Prop :=
  Forall (λ w, (String.length w ≤ int_max_str_digits)%nat) (numeric_fields cypher_script).

(** No loop body raises on a match of its pattern, whatever the state. *)
Definition steps_never_raise (cypher_script : string) : Prop :=
  (∀ st g, g ∈ finditer knowledge_node_pattern cypher_script →
           is_Some (knowledge_node_step st g))
  ∧ (∀ st g, g ∈ finditer concept_pattern cypher_script →
             is_Some (concept_step st g))
  ∧ (∀ st g, g ∈ finditer path_pattern cypher_script → is_Some (path_step st g))
  ∧ (∀ st g, g ∈ finditer node_relationship_pattern cypher_script →
             is_Some (node_relationship_step st g))
  ∧ (∀ st g, g ∈ finditer concept_node_pattern cypher_script →
             is_Some (concept_node_step st g))
  ∧ (∀ st g, g ∈ finditer path_concept_pattern cypher_script →
             is_Some (path_concept_step st g))
  ∧ (∀ st g, g ∈ finditer prereq_pattern cypher_script →
             is_Some (prereq_step st g)).

(** Whatever the model holds was declared by a statement of the text. *)
Definition declared_by (cypher_script : string) (gd : GraphData) : Prop :=
  (∀ k, is_Some (knowledge_nodes gd !! k) →
        ∃ g, g ∈ finditer knowledge_node_pattern cypher_script ∧ head g = Some k)
  ∧ (∀ k, is_Some (concepts gd !! k) →
          ∃ g, g ∈ finditer concept_pattern cypher_script ∧ head g = Some k)
  ∧ (∀ k, is_Some (learning_paths gd !! k) →
          ∃ g, g ∈ finditer path_pattern cypher_script ∧ head g = Some k)
  ∧ ∃ rn rp,
      relationships gd = rn ++ rp
      ∧ Forall2 declares_relationship
          (finditer node_relationship_pattern cypher_script) rn
      ∧ Forall2 declares_prerequisite (finditer prereq_pattern cypher_script) rp.

Definition empty_model : GraphData :=
  {| knowledge_nodes := ∅; concepts := ∅; learning_paths := ∅; relationships := [] |}.

(** ** Sample scripts *)

Definition nl : string := String (ascii_of_nat 10) EmptyString.

Definition str (s : string) : string := dq +:+ s +:+ dq.

Definition script (statements : list string) : string :=
  foldr (λ a b, a +:+ nl +:+ b) EmptyString statements.

Definition create_knowledge_node (id : string) : string :=
  "CREATE (n:KnowledgeNode {id: " +:+ str id +:+ ", title: " +:+ str "Unit"
  +:+ ", description: " +:+ str "About" +:+ ", difficulty: " +:+ str "Beginner"
  +:+ ", estimatedMinutes: 15, source_lesson: " +:+ str EmptyString +:+ ", source_title: "
  +:+ str EmptyString +:+ "});".

Definition create_concept (id : string) : string :=
  "CREATE (c:Concept {id: " +:+ str id +:+ ", name: " +:+ str "Topic"
  +:+ ", description: " +:+ str "About" +:+ ", estimatedMinutes: 45});".

Definition create_path (id : string) : string :=
  "CREATE (p:LearningPath {id: " +:+ str id +:+ ", name: " +:+ str "Track"
  +:+ ", description: " +:+ str "About" +:+ ", targetAudience: " +:+ str "All"
  +:+ ", keyCompetencies: " +:+ str "a;b" +:+ ", estimatedMinutes: 90});".

Definition create_relationship (a b kind strength : string) : string :=
  "MATCH (a:KnowledgeNode {id: " +:+ str a +:+ "}), (b:KnowledgeNode {id: " +:+ str b
  +:+ "})" +:+ nl +:+ "CREATE (a)-[:" +:+ kind +:+ " {strength: " +:+ strength
  +:+ ", justification: " +:+ str "because" +:+ "}]->(b);".

Definition create_contains (concept_id node_id sequence : string) : string :=
  "MATCH (c:Concept {id: " +:+ str concept_id +:+ "}), (n:KnowledgeNode {id: "
  +:+ str node_id +:+ "})" +:+ nl +:+ "CREATE (c)-[:CONTAINS {sequence: " +:+ sequence
  +:+ "}]->(n);".

Definition create_includes (path_id concept_id sequence : string) : string :=
  "MATCH (p:LearningPath {id: " +:+ str path_id +:+ "}), (c:Concept {id: "
  +:+ str concept_id +:+ "})" +:+ nl +:+ "CREATE (p)-[:INCLUDES {sequence: " +:+ sequence
  +:+ "}]->(c);".

(** A concept with three units declared out of order. *)
Definition script_sequence : string :=
  script [create_knowledge_node "N1"; create_knowledge_node "N2";
          create_knowledge_node "N3"; create_concept "CONCEPT-1";
          create_contains "CONCEPT-1" "N3" "2";
          create_contains "CONCEPT-1" "N1" "0";
          create_contains "CONCEPT-1" "N2" "1"].

(** A concept and nothing else. *)
Definition script_lonely_concept : string := script [create_concept "CONCEPT-1"].

(** Two relationships of different kinds between the same two units. *)
Definition script_two_kinds : string :=
  script [create_knowledge_node "N1"; create_knowledge_node "N2";
          create_relationship "N1" "N2" "LEADS_TO" "3";
          create_relationship "N1" "N2" "REQUIRES" "5"].

(** A relationship towards a unit that is never created. *)
Definition script_dangling : string :=
  script [create_knowledge_node "N1";
          create_relationship "N1" "N9" "REQUIRES" "5"].


(** A concept whose second unit is never created. *)
Definition script_missing_unit : string :=
  script [create_knowledge_node "N1"; create_knowledge_node "N3";
          create_concept "CONCEPT-1";
          create_contains "CONCEPT-1" "N1" "0";
          create_contains "CONCEPT-1" "N2" "1";
          create_contains "CONCEPT-1" "N3" "2"].

(** A path whose second concept is never created. *)
Definition script_missing_concept : string :=
  script [create_path "PATH-1"; create_concept "CONCEPT-1"; create_concept "CONCEPT-3";
          create_includes "PATH-1" "CONCEPT-1" "0";
          create_includes "PATH-1" "CONCEPT-2" "1";
          create_includes "PATH-1" "CONCEPT-3" "2"].

(** Two concepts that share a unit. *)
Definition script_shared_unit : string :=
  script [create_knowledge_node "N1"; create_concept "CONCEPT-1";
          create_concept "CONCEPT-2";
          create_contains "CONCEPT-1" "N1" "0";
          create_contains "CONCEPT-2" "N1" "0"].

(** One concept with two units. *)
Definition script_siblings : string :=
  script [create_knowledge_node "N1"; create_knowledge_node "N2";
          create_concept "CONCEPT-1";
          create_contains "CONCEPT-1" "N1" "0";
          create_contains "CONCEPT-1" "N2" "1"].

(** The model and the graph of a script (the empty model if parsing
    raised, which it does only on a number beyond the digit limit). *)
Definition parsed (cypher_script : string) : GraphData :=
  default empty_model (parse_cypher_file cypher_script).

Definition graph_of (cypher_script : string) : DiGraph :=
  build_networkx_graph (parsed cypher_script).

(** Every character of [s] is in the class [c]. *)
Fixpoint string_forall (c : ascii → bool) (s : string) : bool :=
  match s with
  | EmptyString => true
  | String a s' => c a && string_forall c s'
  end.

(** The capturing groups of a pattern, and what a captured text looks like. *)
Definition groups_of (p : pattern) : list (string * (ascii → bool) * quant) :=
  omap (λ it, match it with Grp pre c q => Some (pre, c, q) | _ => None end) p.

Definition captured (g : string * (ascii → bool) * quant) (cap : string) : Prop :=
  ∃ w, cap = g.1.1 +:+ w ∧ string_forall g.1.2 w = true
       ∧ (g.2 = Plus → w ≠ EmptyString).


(** The dictionary of the edge from an owner to [v] after the owner's
    members [seq] have been linked, [old] being the dictionary before. *)
Definition member_edge (G : DiGraph) (relation : string) (seq : option (list string))
    (v : string) (old : option (gmap string attr)) : option (gmap string attr) :=
  match seq ≫= (λ l, last_index l v) with
  | Some i =>
      if has_node G v then Some (member_attrs relation i ∪ default ∅ old) else old
  | None => old
  end.

(** The graph after the three node passes, and after the relationship pass. *)
Definition node_graph (graph_data : GraphData) : DiGraph :=
  add_learning_paths graph_data
    (add_concepts graph_data (add_knowledge_nodes graph_data empty_graph)).

Definition relationship_graph (graph_data : GraphData) : DiGraph :=
  add_relationships graph_data (node_graph graph_data).

(** The entity identifiers of a model. *)
Definition is_entity (graph_data : GraphData) (n : string) : Prop :=
  is_Some (knowledge_nodes graph_data !! n)
  ∨ is_Some (concepts graph_data !! n)
  ∨ is_Some (learning_paths graph_data !! n).

Definition joins (r : Relationship) (u v : string) : Prop :=
  r_source r = u ∧ r_target r = v.

#[global] Instance joins_dec r u v : Decision (joins r u v).
Proof. unfold joins. apply _. Defined.

(** Whether the selection keeps the edge [(u, v)] with dictionary [d]. *)
Definition keeps_edge (nodes : gset string) (filter_relationships : option (list string))
    (u v : string) (d : gmap string attr) : bool :=
  bool_decide (u ∈ nodes) && bool_decide (v ∈ nodes)
  && (negb (truthy filter_relationships)
      || attr_in d "relation" (filter_list filter_relationships)).

(** A concept whose minutes are written with one digit more than the
    limit. *)
Fixpoint ones (n : nat) : string :=
  match n with
  | O => EmptyString
  | S n' => String "1"%char (ones n')
  end.

Definition script_long_number : string :=
  "CREATE (c:Concept {id: " +:+ str "CONCEPT-1" +:+ ", name: " +:+ str "Topic"
  +:+ ", description: " +:+ str "About" +:+ ", estimatedMinutes: "
  +:+ ones (S int_max_str_digits) +:+ "});".


Definition concept_1 (nodes : list string) (sequence : option (list string)) : Concept :=
  {| c_id := "CONCEPT-1"; c_name := "Topic"; c_description := "About";
     c_estimatedMinutes := 45; c_nodes := nodes; c_sequence := sequence |}.

Definition sample_relationship (source target kind : string) (strength : Z)
    : Relationship :=
  {| r_source := source; r_target := target; r_type := kind;
     r_strength := strength; r_justification := "because" |}.

(** ** Walks along edges *)

(** [walk step n u v]: [n] steps of [step] lead from [u] to [v]. *)
Inductive walk (step : string → string → Prop) : nat → string → string → Prop :=
| walk_0 u : walk step 0 u u
| walk_S n u v w : walk step n u v → step v w → walk step (S n) u w.

(** One step to a successor, respectively to a predecessor, of a node. *)
Definition to_successor (G : DiGraph) (u v : string) : Prop :=
  has_node G u = true ∧ is_edge G u v.

Definition to_predecessor (G : DiGraph) (u v : string) : Prop :=
  has_node G u = true ∧ is_edge G v u.

(** The attributes [add_node] receives for an entity: its dictionary with a
    label and a type tag. *)
Definition node_attrs (type label : string) (d : gmap string attr) : gmap string attr :=
  <["type" := AStr type]> (<["label" := AStr label]> d).

(** The position of the last occurrence of [v] in an optional sequence. *)
Definition member_rank (seq : option (list string)) (v : string) : option nat :=
  seq ≫= (λ l, last_index l v).

(** The last relationship of a list that joins [u] to [v]. *)
Definition last_relationship (rs : list Relationship) (u v : string) : option Relationship :=
  last (filter (λ r, r_source r = u ∧ r_target r = v) rs).

(** ** The drawing of [create_pyvis_graph]

    After the selection [create_pyvis_graph] draws [subgraph]: it gives each
    node a label, a hover text, a colour and a size, each edge a colour and a
    hover text, and writes the page.  The model keeps the label of each node
    and the colour of each edge, and every error that the data can cause:
    [len], [join] and the dictionary lookup raise on a value of the wrong
    type, and the hover texts cannot format a number beyond the digit limit.
    The colours and sizes of the nodes are chosen by comparisons, which take
    any value.  The text of the hover texts is left out, and so are the
    renderer and the file system, which are taken not to fail. *)

(** [range(start, stop, step)] for a positive step. *)
Definition range (start stop step : nat) : list nat :=
  (λ j, start + step * j)%nat <$> seq 0 ((stop - start + step - 1) / step).

(** The label with a line break after every 20 characters, as
    [create_pyvis_graph] writes it on a node; [label[i:i+20]] is
    [substring i 20 label]. *)
Definition wrap_label (label : string) : string :=
  if (20 <? String.length label)%nat then
    let label_parts := (λ i, substring i 20 label) <$> range 0 (String.length label) 20 in
    String.concat nl label_parts
  else label.

(** [label = node_data.get("label", node)] and its line breaks: [len] raises
    on a number, and [join] on the slices of a list. *)
Definition node_label (node : string) (node_data : gmap string attr) : option attr :=
  match default (AStr node) (node_data !! "label") with
  | AStr label => Some (AStr (wrap_label label))
  | AInt _ => None
  | AList label => if (20 <? length label)%nat then None else Some (AList label)
  end.

Definition edge_colors : gmap string string :=
  list_to_map [("LEADS_TO", "#4682b4"); ("PRECEDES", "#d62728"); ("REQUIRES", "#9467bd");
               ("RELATED_TO", "#8c564b"); ("ENABLES", "#e377c2"); ("PART_OF", "#7f7f7f");
               ("SUPPORTS", "#bcbd22"); ("INFLUENCES", "#17becf"); ("INCLUDES", "#1f77b4");
               ("CONTAINS", "#ff7f0e"); ("PREREQUISITE_FOR", "#d62728");
               ("SPECIALIZES_TO", "#2ca02c")].

(** [edge_colors.get(data.get("relation", ...), "#999999")]: the lookup
    raises on a list, which cannot be a key. *)
Definition edge_color (data : gmap string attr) : option string :=
  match default (AStr EmptyString) (data !! "relation") with
  | AStr relation => Some (default "#999999" (edge_colors !! relation))
  | AInt _ => Some "#999999"
  | AList _ => None
  end.

#[global] Instance attr_eq_dec : EqDecision attr.
Proof. solve_decision. Defined.

(** A formatted string can hold a text, a list of texts, and a number of at
    most [int_max_str_digits] digits; on a longer number the conversion
    raises [ValueError]. *)
Definition formats (value : attr) : bool :=
  match value with
  | AInt n => bool_decide (Z.abs n < 10 ^ Z.of_nat int_max_str_digits)%Z
  | _ => true
  end.

(** The keys whose values the hover text of a node holds, by the type of
    the node. *)
Definition hover_keys (node_type : attr) : list string :=
  if decide (node_type = AStr "KnowledgeNode")
  then ["title"; "difficulty"; "estimatedMinutes"; "description"]
  else if decide (node_type = AStr "Concept")
  then ["name"; "estimatedMinutes"; "description"]
  else if decide (node_type = AStr "LearningPath")
  then ["name"; "estimatedMinutes"; "targetAudience"; "description"]
  else [].

(** The values of [data] under [keys], where present, can be formatted. *)
Definition all_format (data : gmap string attr) (keys : list string) : bool :=
  forallb (λ key, from_option formats true (data !! key)) keys.

(** The body of the loop over the nodes, and of the loop over the edges. *)
Definition draw_node (node : string) (node_data : gmap string attr) : option attr :=
  label ← node_label node node_data;
  if all_format node_data (hover_keys (default (AStr "Unknown") (node_data !! "type")))
  then Some label else None.

Definition draw_edge (data : gmap string attr) : option string :=
  color ← edge_color data;
  if all_format data ["relation"; "strength"; "justification"]
  then Some color else None.

(** What is drawn: the label of each node and the colour of each edge. *)
Record Network := {
  net_nodes : gmap string attr;
  net_edges : gmap (string * string) string
}.

Definition draw (subgraph : DiGraph) : option Network :=
  nodes ← mapM (λ nd, label ← draw_node nd.1 nd.2; Some (nd.1, label))
               (map_to_list (g_node subgraph));
  edges ← mapM (λ ed, color ← draw_edge ed.2; Some (ed.1, color))
               (map_to_list (g_adj subgraph));
  Some {| net_nodes := list_to_map nodes; net_edges := list_to_map edges |}.

(** ** The views built on [create_pyvis_graph] *)

(** The result of a view: [None] when the call raises, [Some None] when it
    reports that the node is not found and returns [None], and
    [Some (Some subgraph)] otherwise, with the graph that it has drawn.  The
    concept view is modelled with its drawing.  The other views are modelled
    up to the selection; they are used on graphs of scripts only, on which
    the drawing does not raise (lemma [draw_selection]). *)
Definition view : Type := option (option DiGraph).

(** A list comprehension with a condition that may raise. *)
Fixpoint filterM {A : Type} (f : A → option bool) (l : list A) : option (list A) :=
  match l with
  | [] => Some []
  | x :: l' =>
      b ← f x;
      k ← filterM f l';
      Some (if b : bool then x :: k else k)
  end.

(** [sorted] with a comparison in place of an integer key. *)
Section sorted_with.
Context {A : Type} (leb : A → A → bool).

Fixpoint insert_with (x : A) (l : list A) : list A :=
  match l with
  | [] => [x]
  | y :: l' => if leb x y then x :: y :: l' else y :: insert_with x l'
  end.

Fixpoint sorted_with (l : list A) : list A :=
  match l with
  | [] => []
  | x :: l' => insert_with x (sorted_with l')
  end.
End sorted_with.

(** The order of lists of strings: the first difference decides. *)
Fixpoint list_leb (x y : list string) : bool :=
  match x, y with
  | [], _ => true
  | _ :: _, [] => false
  | a :: x', b :: y' => if String.eqb a b then list_leb x' y' else String.leb a b
  end.

Definition int_key (a : attr) : option Z :=
  match a with AInt n => Some n | _ => None end.

Definition str_key (a : attr) : option string :=
  match a with AStr s => Some s | _ => None end.

Definition list_key (a : attr) : option (list string) :=
  match a with AList l => Some l | _ => None end.

(** [l.sort(key=...)] on elements paired with their keys: keys of one kind
    are compared with each other; keys of different kinds are not
    comparable, and the sort raises. *)
Definition sort_by_key {A : Type} (l : list (A * attr)) : option (list A) :=
  match mapM (λ p, pair p.1 <$> int_key p.2) l with
  | Some keyed => Some (sorted snd keyed).*1
  | None =>
      match mapM (λ p, pair p.1 <$> str_key p.2) l with
      | Some keyed => Some (sorted_with (λ p q, String.leb p.2 q.2) keyed).*1
      | None =>
          match mapM (λ p, pair p.1 <$> list_key p.2) l with
          | Some keyed => Some (sorted_with (λ p q, list_leb p.2 q.2) keyed).*1
          | None => None
          end
      end
  end.

(** [G.nodes[n].get("type") == type]; the subscript raises for a node that
    [G] does not have. *)
Definition node_type_is (G : DiGraph) (type n : string) : option bool :=
  d ← g_node G !! n; Some (bool_decide (d !! "type" = Some (AStr type))).

(** [G.edges[u, v].get("sequence", 0)] *)
Definition sequence_key (G : DiGraph) (u v : string) : option attr :=
  d ← g_adj G !! (u, v); Some (default (AInt 0) (d !! "sequence")).

Definition create_path_view (G : DiGraph) (path_id : string) : view :=
  if negb (has_node G path_id) then Some None
  else
    path_concepts ← filterM (node_type_is G "Concept") (elements (successors G path_id));
    keys ← mapM (sequence_key G path_id) path_concepts;
    path_concepts ← sort_by_key (zip path_concepts keys);
    Some <$> create_pyvis_graph G None (Some ([path_id] ++ path_concepts)) None 1.

Definition create_concept_view (G : DiGraph) (concept_id : string) : view :=
  if negb (has_node G concept_id) then Some None
  else
    subgraph ← create_pyvis_graph G None (Some [concept_id]) None 1;
    _ ← draw subgraph;
    Some (Some subgraph).

Definition create_relationships_view (G : DiGraph)
    (relationship_types : option (list string)) : option DiGraph :=
  create_pyvis_graph G (Some ["KnowledgeNode"]) None relationship_types 0.

(** The overview tab of [main]: paths and concepts, and the knowledge nodes
    when the box is ticked. *)
Definition overview_types (show_knowledge_nodes : bool) : list string :=
  if show_knowledge_nodes
  then ["LearningPath"; "Concept"; "KnowledgeNode"]
  else ["LearningPath"; "Concept"].

Definition curriculum_overview (G : DiGraph) (show_knowledge_nodes : bool) : option DiGraph :=
  create_pyvis_graph G (Some (overview_types show_knowledge_nodes)) None None 0.

(** A path with one concept that has one unit. *)
Definition script_path_with_units : string :=
  script [create_knowledge_node "N1"; create_concept "CONCEPT-1"; create_path "PATH-1";
          create_contains "CONCEPT-1" "N1" "0";
          create_includes "PATH-1" "CONCEPT-1" "0"].

(** ** Notions used to state further properties of the parser *)

(** An identifier: the prefix of its kind followed by one or more digits. *)
Definition is_id (prefix k : string) : Prop := captured (prefix, is_digit, Plus) k.

(** What the last creation statement for [k] among the matches [ms] stores
    under [k], [step] being the body of the loop over the matches. *)
Definition last_created {V : Type}
    (step : gmap string V → list string → option (gmap string V))
    (ms : list (list string)) (k : string) : option V :=
  g ← last (filter (λ g, head g = Some k) ms);
  m ← step ∅ g;
  m !! k.

(** A concept, respectively a learning path, as its creation statement
    leaves it: without members. *)
Definition fresh_concept (c : Concept) : Concept :=
  {| c_id := c_id c; c_name := c_name c; c_description := c_description c;
     c_estimatedMinutes := c_estimatedMinutes c;
     c_nodes := []; c_sequence := None |}.

Definition fresh_path (p : LearningPath) : LearningPath :=
  {| p_id := p_id p; p_name := p_name p; p_description := p_description p;
     p_targetAudience := p_targetAudience p;
     p_keyCompetencies := p_keyCompetencies p;
     p_estimatedMinutes := p_estimatedMinutes p;
     p_concepts := []; p_conceptSequence := None |}.

(** The elements of a list in the order of their first occurrences. *)
Fixpoint first_occurrences (l : list string) : list string :=
  match l with
  | [] => []
  | x :: l' => x :: filter (λ y, y ≠ x) (first_occurrences l')
  end.

(** The list after appending, one after the other, the elements of [l]
    that it does not have yet. *)
Definition add_new (acc l : list string) : list string :=
  fold_left (λ acc x, if bool_decide (x ∈ acc) then acc else acc ++ [x]) l acc.

(** ** Statements written after a pattern *)

(** The text written after a pattern: its literals in order, with one string
    of [fills] in the place of every repeated class and every group. *)
Fixpoint render (p : pattern) (fills : list string) : string :=
  match p with
  | [] => EmptyString
  | Lit l :: p' => l +:+ render p' fills
  | Rep _ _ :: p' => hd EmptyString fills +:+ render p' (tl fills)
  | Grp pre _ _ :: p' => pre +:+ hd EmptyString fills +:+ render p' (tl fills)
  end.

(** The texts of the groups of such a statement. *)
Fixpoint captures (p : pattern) (fills : list string) : list string :=
  match p with
  | [] => []
  | Lit _ :: p' => captures p' fills
  | Rep _ _ :: p' => captures p' (tl fills)
  | Grp pre _ _ :: p' => (pre +:+ hd EmptyString fills) :: captures p' (tl fills)
  end.

(** The text does not go on with a character of the class. *)
Definition stops (c : ascii → bool) (s : string) : Prop :=
  match s with
  | String a _ => c a = false
  | EmptyString => True
  end.

(** The fills suit the pattern: one per repeated class or group, made of
    characters of the class, not empty where the pattern asks for one or
    more, and ending where the run of the class ends in the text, which
    is followed by [rest]. *)
Fixpoint fits (p : pattern) (fills : list string) (rest : string) : Prop :=
  match p with
  | [] => fills = []
  | Lit _ :: p' => fits p' fills rest
  | Rep c q :: p' | Grp _ c q :: p' =>
      match fills with
      | w :: fills' =>
          string_forall c w = true ∧ (q = Plus → w ≠ EmptyString)
          ∧ stops c (render p' fills' +:+ rest) ∧ fits p' fills' rest
      | [] => False
      end
  end.

(** A concept statement laid out over several lines. *)
Definition concept_fills : list string :=
  [nl +:+ "  "; "7"; nl +:+ "  "; "Listening"; " "; "How to listen"; nl +:+ "  "; "30"; nl].

(** ** What the tabs of [main] write

    [st.write] puts a line on the page.  A subscript with a key that the
    dictionary does not have raises; the lines written before stay on the
    page, and the handler around the tabs reports the error.  A block of
    code is modelled by the lines it writes and its result, [None] when it
    raises. *)
Definition written (A : Type) : Type := list string * option A.

Definition wret {A : Type} (a : A) : written A := ([], Some a).

Definition wbind {A B : Type} (m : written A) (f : A → written B) : written B :=
  match m.2 with
  | Some a => (m.1 ++ (f a).1, (f a).2)
  | None => (m.1, None)
  end.

Definition write (line : string) : written unit := ([line], Some tt).

(** [d[key]] *)
Definition subscript {V : Type} (d : gmap string V) (key : string) : written V :=
  match d !! key with
  | Some v => wret v
  | None => ([], None)
  end.

Fixpoint for_each {A : Type} (body : A → written unit) (l : list A) : written unit :=
  match l with
  | [] => wret tt
  | x :: l' => wbind (body x) (λ _, for_each body l')
  end.

(** The list of concepts in the Learning Paths tab. *)
Definition list_path_concepts (graph_data : GraphData) (path_data : LearningPath)
    : written unit :=
  match p_conceptSequence path_data with
  | Some conceptSequence =>
      wbind (write "**Concepts:**") (λ _,
        for_each (λ '(i, concept_id),
            wbind (subscript (concepts graph_data) concept_id) (λ concept_data,
              write (pretty (i + 1)%nat +:+ ". " +:+ c_name concept_data)))
          (enumerate conceptSequence))
  | None => wret tt
  end.

(** The list of knowledge nodes in the Concepts tab. *)
Definition list_concept_nodes (graph_data : GraphData) (concept_data : Concept)
    : written unit :=
  match c_sequence concept_data with
  | Some sequence =>
      wbind (write "**Knowledge Nodes:**") (λ _,
        for_each (λ '(i, node_id),
            wbind (subscript (knowledge_nodes graph_data) node_id) (λ node_data,
              wbind (subscript (knowledge_nodes graph_data) node_id) (λ node_data',
                write (pretty (i + 1)%nat +:+ ". " +:+ kn_title node_data
                       +:+ " (" +:+ kn_difficulty node_data' +:+ ")"))))
          (enumerate sequence))
  | None => wret tt
  end.

(** ** The label of a node in the drawing *)

(** ** The member lists of [display_node_details]

    For a concept the inspector lists the knowledge nodes it contains, for
    a learning path the concepts it includes, sorted by the sequence
    attribute of the edge.  The two loops have the same shape.  The order
    in which networkx walks the successors is not modelled (the successors
    are taken in the order of [elements]); the list is sorted afterwards. *)

(** A list comprehension with a condition on elements that may raise. *)
Definition comprehension {A B : Type} (f : A → option (option B)) (l : list A)
    : option (list B) :=
  omap id <$> mapM f l.

(** The entry [(n, seq, label)] of the successor [n], if it passes the test
    [G.nodes[n].get("type") == type and
     G.edges[node_id, n].get("relation") == relation]. *)
Definition member_entry (G : DiGraph) (type relation node_id n : string)
    : option (option (string * attr * attr)) :=
  d ← g_node G !! n;
  if bool_decide (d !! "type" = Some (AStr type)) then
    e ← g_adj G !! (node_id, n);
    if bool_decide (e !! "relation" = Some (AStr relation)) then
      Some (Some (n, default (AInt 0) (e !! "sequence"), default (AStr n) (d !! "label")))
    else Some None
  else Some None.

Definition sorted_members (G : DiGraph) (type relation node_id : string)
    : option (list (string * attr * attr)) :=
  entries ← comprehension (member_entry G type relation node_id)
               (elements (successors G node_id));
  sort_by_key ((λ x, (x, x.1.2)) <$> entries).

(** [sorted(contained_nodes, key=lambda x: x[1])] in the branch of a concept
    and [sorted(included_concepts, key=lambda x: x[1])] in the branch of a
    learning path. *)
Definition contained_nodes (G : DiGraph) (node_id : string) :=
  sorted_members G "KnowledgeNode" "CONTAINS" node_id.

Definition included_concepts (G : DiGraph) (node_id : string) :=
  sorted_members G "Concept" "INCLUDES" node_id.

(** The members of a sequence that have a label, each at its last position,
    with the position counted from one. *)
Definition ranked (label_of : string → option string) (l : list string)
    : list (string * attr * attr) :=
  omap (λ iv, if bool_decide (last_index l iv.2 = Some iv.1)
              then (λ label, (iv.2, AInt (Z.of_nat iv.1 + 1), AStr label)) <$> label_of iv.2
              else None)
    (enumerate l).

(** The integer of an entry's sequence attribute. *)
Definition entry_key (x : string * attr * attr) : Z := default 0%Z (int_key x.1.2).

(** ** The lists of the inspector for a knowledge node

    These lists are written in the order in which networkx walks the
    neighbours, which is not modelled: the neighbours are taken in the order
    of [elements], and the properties are about what the lists hold. *)

(** The concepts that contain the node. *)
Definition containing_concepts (G : DiGraph) (node_id : string)
    : option (list (string * attr)) :=
  comprehension (λ n,
      d ← g_node G !! n;
      if bool_decide (d !! "type" = Some (AStr "Concept")) then
        e ← g_adj G !! (n, node_id);
        if bool_decide (e !! "relation" = Some (AStr "CONTAINS"))
        then Some (Some (n, default (AStr n) (d !! "label")))
        else Some None
      else Some None)
    (elements (predecessors G node_id)).

(** The relationships from the node to knowledge nodes, and those from
    knowledge nodes to the node. *)
Definition outgoing (G : DiGraph) (node_id : string)
    : option (list (string * attr * attr)) :=
  comprehension (λ n,
      d ← g_node G !! n;
      if bool_decide (d !! "type" = Some (AStr "KnowledgeNode")) then
        e ← g_adj G !! (node_id, n);
        let rel := default (AStr "RELATED_TO") (e !! "relation") in
        Some (Some (n, rel, default (AStr n) (d !! "label")))
      else Some None)
    (elements (successors G node_id)).

Definition incoming (G : DiGraph) (node_id : string)
    : option (list (string * attr * attr)) :=
  comprehension (λ n,
      d ← g_node G !! n;
      if bool_decide (d !! "type" = Some (AStr "KnowledgeNode")) then
        e ← g_adj G !! (n, node_id);
        let rel := default (AStr "RELATED_TO") (e !! "relation") in
        Some (Some (n, rel, default (AStr n) (d !! "label")))
      else Some None)
    (elements (predecessors G node_id)).

(** * Properties *)

(** ** The matcher *)

Lemma append_nil (r : string) : EmptyString +:+ r = r.
Proof. reflexivity. Qed.

Lemma append_cons (a : ascii) (l r : string) : String a l +:+ r = String a (l +:+ r).
Proof. reflexivity. Qed.

Lemma append_assoc (a b c : string) : (a +:+ b) +:+ c = a +:+ (b +:+ c).
Proof. induction a; [done|]. rewrite !append_cons. by f_equal. Qed.

Lemma strip_prefix_Some l s r : strip_prefix l s = Some r → s = l +:+ r.
Proof.
  revert s. induction l as [|a l IH]; intros s H; simpl in *.
  - by inversion H.
  - destruct s as [|b s]; [done|].
    destruct (Ascii.eqb_spec a b) as [->|]; [|done].
    rewrite append_cons. f_equal. by apply IH.
Qed.

Section greedy_facts.
Context {R : Type} (c : ascii → bool) (k : string → option R).

Lemma rep_star_Some s w r :
  rep_star c k s = Some (w, r) →
  string_forall c w = true ∧ ∃ s', s = w +:+ s' ∧ k s' = Some r.
Proof.
  revert w. induction s as [|a s IH]; intros w; simpl.
  - destruct (k EmptyString) eqn:Hk; simpl; [|done].
    intros [= <- <-]. split; [done|]. by exists EmptyString.
  - destruct (c a) eqn:Hc.
    + destruct (rep_star c k s) as [[w' r']|] eqn:Hs.
      * intros [= <- <-]. destruct (IH _ eq_refl) as (Hw & s' & -> & Hk).
        simpl. rewrite Hc, Hw. split; [done|]. by exists s'.
      * destruct (k (String a s)) eqn:Hk; simpl; [|done].
        intros [= <- <-]. split; [done|]. by exists (String a s).
    + destruct (k (String a s)) eqn:Hk; simpl; [|done].
      intros [= <- <-]. split; [done|]. by exists (String a s).
Qed.

Lemma rep_Some q s w r :
  rep c k q s = Some (w, r) →
  string_forall c w = true ∧ (q = Plus → w ≠ EmptyString)
  ∧ ∃ s', s = w +:+ s' ∧ k s' = Some r.
Proof.
  destruct q; simpl.
  - intros H. apply rep_star_Some in H as [? ?]. done.
  - unfold rep_plus. destruct s as [|a s]; [done|].
    destruct (c a) eqn:Hc; [|done].
    destruct (rep_star c k s) as [[w' r']|] eqn:Hs; simpl; [|done].
    intros [= <- <-]. apply rep_star_Some in Hs as (Hw & s' & -> & Hk).
    simpl. rewrite Hc, Hw. repeat split; [done|]. by exists s'.
Qed.
End greedy_facts.

(** A successful match captures one text per group, each of the shape the
    group prescribes, and reads a prefix of the text. *)
Lemma match_items_Some p s caps rest :
  match_items p s = Some (caps, rest) →
  Forall2 captured (groups_of p) caps ∧ ∃ m, s = m +:+ rest.
Proof.
  revert s caps rest. induction p as [|it p IH]; intros s caps rest; simpl.
  - intros [= <- <-]. split; [constructor|]. by exists EmptyString.
  - destruct it as [l|c q|pre c q]; simpl.
    + destruct (strip_prefix l s) as [s'|] eqn:Hl; simpl; [|done].
      intros H. apply IH in H as [Hcaps [m ->]].
      apply strip_prefix_Some in Hl as ->. split; [done|].
      exists (l +:+ m). by rewrite append_assoc.
    + destruct (rep c (match_items p) q s) as [[w [caps' rest']]|] eqn:Hr; simpl; [|done].
      intros [= <- <-]. apply rep_Some in Hr as (_ & _ & s' & -> & Hk).
      apply IH in Hk as [Hcaps [m ->]]. split; [done|].
      exists (w +:+ m). by rewrite append_assoc.
    + destruct (strip_prefix pre s) as [s1|] eqn:Hl; simpl; [|done].
      destruct (rep c (match_items p) q s1) as [[w [caps' rest']]|] eqn:Hr; simpl; [|done].
      intros [= <- <-]. apply rep_Some in Hr as (Hw & Hq & s' & -> & Hk).
      apply IH in Hk as [Hcaps [m ->]].
      apply strip_prefix_Some in Hl as ->. split.
      * constructor; [|done]. by exists w.
      * exists ((pre +:+ w) +:+ m). by rewrite !append_assoc.
Qed.

(** Every match that [re.finditer] yields is a match of the pattern at some
    place of the text. *)
Lemma finditer_from_match n p s g :
  g ∈ finditer_from n p s → ∃ s' rest, match_items p s' = Some (g, rest).
Proof.
  revert s. induction n as [|n IH]; intros s; simpl; [by intros ?%elem_of_nil|].
  destruct (match_items p s) as [[caps rest]|] eqn:Hm.
  - intros [->|Hg]%elem_of_cons; [by eauto|].
    destruct (_ <? _)%nat; [by eapply IH|].
    destruct s; [by apply elem_of_nil in Hg|by eapply IH].
  - destruct s; [by intros ?%elem_of_nil|by apply IH].
Qed.

Lemma finditer_captured p s g :
  g ∈ finditer p s → Forall2 captured (groups_of p) g.
Proof.
  intros (s' & rest & Hm)%finditer_from_match.
  by apply match_items_Some in Hm as [? _].
Qed.

(** The scan never runs out of fuel: any amount above the length of the
    text gives the same matches. *)
Lemma finditer_from_fuel n m p s :
  (String.length s < n)%nat → (String.length s < m)%nat →
  finditer_from n p s = finditer_from m p s.
Proof.
  revert m s. induction n as [|n IH]; intros m s Hn Hm; [lia|].
  destruct m as [|m]; [lia|]. simpl.
  destruct (match_items p s) as [[caps rest]|] eqn:Hmatch.
  - f_equal. destruct (Nat.ltb_spec (String.length rest) (String.length s)).
    + apply IH; lia.
    + destruct s; [done|]. simpl in *. apply IH; lia.
  - destruct s; [done|]. simpl in *. apply IH; lia.
Qed.

Lemma finditer_fuel n p s :
  (String.length s < n)%nat → finditer_from n p s = finditer p s.
Proof. intros Hn. apply finditer_from_fuel; [done|lia]. Qed.

(** ** Numbers and identifiers that come out of a match *)

Lemma int_digits_is_Some acc w :
  string_forall is_digit w = true → is_Some (int_digits acc w).
Proof.
  revert acc. induction w as [|a w IH]; intros acc; simpl; [by eauto|].
  intros [Ha Hw]%andb_true_iff. unfold digit_value. rewrite Ha. simpl. by apply IH.
Qed.

(** A run of digits converts, unless it is longer than the limit. *)
Lemma py_int_digits g cap :
  g.1.1 = EmptyString → g.1.2 = is_digit → g.2 = Plus →
  captured g cap →
  ∃ n, py_int cap =
         if (int_max_str_digits <? String.length cap)%nat then None else Some n.
Proof.
  intros Hpre Hc Hq (w & -> & Hw & Hne). rewrite Hpre, append_nil.
  rewrite Hc in Hw. destruct w as [|a w]; [by destruct Hne|].
  destruct (int_digits_is_Some 0 _ Hw) as [n Hn]. exists n.
  unfold py_int. rewrite Hn. done.
Qed.

Lemma py_int_limit w n :
  py_int w = (if (int_max_str_digits <? String.length w)%nat then None else Some n) →
  (is_Some (py_int w) ↔ (String.length w ≤ int_max_str_digits)%nat)
  ∧ ((String.length w ≤ int_max_str_digits)%nat → py_int w = Some n).
Proof.
  intros ->. destruct (Nat.ltb_spec int_max_str_digits (String.length w)).
  - split; [|lia]. split; [by intros [? ?]|lia].
  - split; [|done]. split; [done|by eexists].
Qed.

Lemma captured_initial g cap a pre :
  g.1.1 = String a pre → captured g cap → initial cap = Some a.
Proof. intros Hpre (w & -> & _). by rewrite Hpre. Qed.

Lemma groups_knowledge_node :
  groups_of knowledge_node_pattern =
    [("N", is_digit, Plus); (EmptyString, not_quote, Plus);
     (EmptyString, not_quote, Plus); (EmptyString, not_quote, Plus);
     (EmptyString, is_digit, Plus); (EmptyString, not_quote, Star);
     (EmptyString, not_quote, Star)].
Proof. reflexivity. Qed.

Lemma groups_concept :
  groups_of concept_pattern =
    [("CONCEPT-", is_digit, Plus); (EmptyString, not_quote, Plus);
     (EmptyString, not_quote, Plus); (EmptyString, is_digit, Plus)].
Proof. reflexivity. Qed.

Lemma groups_path :
  groups_of path_pattern =
    [("PATH-", is_digit, Plus); (EmptyString, not_quote, Plus);
     (EmptyString, not_quote, Plus); (EmptyString, not_quote, Star);
     (EmptyString, not_quote, Star); (EmptyString, is_digit, Plus)].
Proof. reflexivity. Qed.

Lemma groups_node_relationship :
  groups_of node_relationship_pattern =
    [("N", is_digit, Plus); ("N", is_digit, Plus); (EmptyString, is_word, Plus);
     (EmptyString, is_digit, Plus); (EmptyString, not_quote, Plus)].
Proof. reflexivity. Qed.

Lemma groups_concept_node :
  groups_of concept_node_pattern =
    [("CONCEPT-", is_digit, Plus); ("N", is_digit, Plus); (EmptyString, is_digit, Plus)].
Proof. reflexivity. Qed.

Lemma groups_path_concept :
  groups_of path_concept_pattern =
    [("PATH-", is_digit, Plus); ("CONCEPT-", is_digit, Plus);
     (EmptyString, is_digit, Plus)].
Proof. reflexivity. Qed.

Lemma groups_prereq :
  groups_of prereq_pattern =
    [("CONCEPT-", is_digit, Plus); ("CONCEPT-", is_digit, Plus)].
Proof. reflexivity. Qed.

(** Turn [g ∈ finditer p s] into the list of its groups, one hypothesis
    [captured _ _] per group. *)
Ltac groups_of_match H Hgroups :=
  apply finditer_captured in H; rewrite Hgroups in H;
  repeat lazymatch type of H with
    | Forall2 _ (_ :: _) _ =>
        let x := fresh "x" in let Hx := fresh "Hx" in
        apply Forall2_cons_inv_l in H as (x & ? & Hx & H & ->)
    | Forall2 _ [] _ => apply Forall2_nil_inv_l in H as ->
    end.

Ltac digits H :=
  let n := fresh "n" in let Hn := fresh "Hn" in
  eapply py_int_digits in H as [n Hn]; [|reflexivity..].

Ltac starts_with H := eapply captured_initial in H; [|reflexivity].

Lemma knowledge_node_groups s g :
  g ∈ finditer knowledge_node_pattern s →
  ∃ node_id title description difficulty minutes source_lesson source_title n,
    g = [node_id; title; description; difficulty; minutes; source_lesson; source_title]
    ∧ initial node_id = Some "N"%char ∧ py_int minutes =
        if (int_max_str_digits <? String.length minutes)%nat then None else Some n.
Proof.
  intros H. groups_of_match H groups_knowledge_node.
  digits Hx3. starts_with Hx. by repeat eexists.
Qed.

Lemma concept_groups s g :
  g ∈ finditer concept_pattern s →
  ∃ concept_id name description minutes n,
    g = [concept_id; name; description; minutes]
    ∧ initial concept_id = Some "C"%char ∧ py_int minutes =
        if (int_max_str_digits <? String.length minutes)%nat then None else Some n.
Proof.
  intros H. groups_of_match H groups_concept.
  digits Hx2. starts_with Hx. by repeat eexists.
Qed.

Lemma path_groups s g :
  g ∈ finditer path_pattern s →
  ∃ path_id name description target_audience key_competencies minutes n,
    g = [path_id; name; description; target_audience; key_competencies; minutes]
    ∧ initial path_id = Some "P"%char ∧ py_int minutes =
        if (int_max_str_digits <? String.length minutes)%nat then None else Some n.
Proof.
  intros H. groups_of_match H groups_path.
  digits Hx4. starts_with Hx. by repeat eexists.
Qed.

Lemma node_relationship_groups s g :
  g ∈ finditer node_relationship_pattern s →
  ∃ source target rel_type strength justification n,
    g = [source; target; rel_type; strength; justification]
    ∧ initial source = Some "N"%char ∧ initial target = Some "N"%char
    ∧ py_int strength =
        if (int_max_str_digits <? String.length strength)%nat then None else Some n.
Proof.
  intros H. groups_of_match H groups_node_relationship.
  digits Hx2. starts_with Hx. starts_with Hx0. by repeat eexists.
Qed.

Lemma concept_node_groups s g :
  g ∈ finditer concept_node_pattern s →
  ∃ concept_id node_id sequence n,
    g = [concept_id; node_id; sequence]
    ∧ initial concept_id = Some "C"%char ∧ initial node_id = Some "N"%char
    ∧ py_int sequence =
        if (int_max_str_digits <? String.length sequence)%nat then None else Some n.
Proof.
  intros H. groups_of_match H groups_concept_node.
  digits Hx1. starts_with Hx. starts_with Hx0. by repeat eexists.
Qed.

Lemma path_concept_groups s g :
  g ∈ finditer path_concept_pattern s →
  ∃ path_id concept_id sequence n,
    g = [path_id; concept_id; sequence]
    ∧ initial path_id = Some "P"%char ∧ initial concept_id = Some "C"%char
    ∧ py_int sequence =
        if (int_max_str_digits <? String.length sequence)%nat then None else Some n.
Proof.
  intros H. groups_of_match H groups_path_concept.
  digits Hx1. starts_with Hx. starts_with Hx0. by repeat eexists.
Qed.

Lemma prereq_groups s g :
  g ∈ finditer prereq_pattern s →
  ∃ prereq_id concept_id,
    g = [prereq_id; concept_id]
    ∧ initial prereq_id = Some "C"%char ∧ initial concept_id = Some "C"%char.
Proof.
  intros H. groups_of_match H groups_prereq.
  starts_with Hx. starts_with Hx0. by repeat eexists.
Qed.

(** ** Loops that may raise *)

Lemma foldM_cons {A S : Type} (f : S → A → option S) x l st :
  foldM f (x :: l) st = f st x ≫= foldM f l.
Proof. reflexivity. Qed.

Lemma foldM_is_Some {A S : Type} (f : S → A → option S) l st :
  (∀ st x, x ∈ l → is_Some (f st x)) → is_Some (foldM f l st).
Proof.
  revert st. induction l as [|x l IH]; intros st Hf; simpl; [by eauto|].
  destruct (Hf st x) as [st' ->]; [by left|]. simpl.
  apply IH. intros ???. apply Hf. by right.
Qed.

Lemma foldM_invariant {A S : Type} (P : S → Prop) (f : S → A → option S) l st st' :
  foldM f l st = Some st' → P st →
  (∀ s x s', x ∈ l → P s → f s x = Some s' → P s') → P st'.
Proof.
  revert st. induction l as [|x l IH]; intros st; simpl.
  - by intros [= <-] ? _.
  - destruct (f st x) as [st1|] eqn:Hf; simpl; [|done].
    intros Hl HP Hstep. eapply IH; [done| |].
    + eapply Hstep; [by left|done..].
    + intros ?????. eapply Hstep; [by right|done..].
Qed.

(** ** [sorted] is an ascending, stable rearrangement *)

Section sorted_facts.
Context {A : Type} (key : A → Z).

Lemma insert_by_perm x l : insert_by key x l ≡ₚ x :: l.
Proof.
  induction l as [|y l IH]; simpl; [done|].
  destruct (key x <=? key y)%Z; [done|].
  rewrite IH. apply Permutation_swap.
Qed.

Lemma sorted_perm l : sorted key l ≡ₚ l.
Proof.
  induction l as [|x l IH]; simpl; [done|].
  by rewrite insert_by_perm, IH.
Qed.

Lemma insert_by_Sorted x l :
  Sorted (λ a b, (key a ≤ key b)%Z) l →
  Sorted (λ a b, (key a ≤ key b)%Z) (insert_by key x l).
Proof.
  induction 1 as [|y l Hl IH Hhd]; simpl; [by repeat constructor|].
  destruct (Z.leb_spec (key x) (key y)).
  - repeat constructor; done.
  - constructor; [done|].
    destruct l as [|z l]; simpl in *.
    + constructor. lia.
    + destruct (Z.leb_spec (key x) (key z)); constructor; [lia|].
      by inversion Hhd.
Qed.

Lemma sorted_Sorted l : Sorted (λ a b, (key a ≤ key b)%Z) (sorted key l).
Proof.
  induction l as [|x l IH]; simpl; [constructor|]. by apply insert_by_Sorted.
Qed.

Lemma insert_by_stable k x l :
  filter (λ a, key a = k) (insert_by key x l) = filter (λ a, key a = k) (x :: l).
Proof.
  induction l as [|y l IH]; simpl; [done|].
  destruct (Z.leb_spec (key x) (key y)); [done|].
  rewrite filter_cons, IH, !filter_cons.
  repeat case_decide; try done; lia.
Qed.

(** Elements with the same key come out in the order they went in. *)
Lemma sorted_stable k l :
  filter (λ a, key a = k) (sorted key l) = filter (λ a, key a = k) l.
Proof.
  induction l as [|x l IH]; simpl; [done|].
  by rewrite insert_by_stable, !filter_cons, IH.
Qed.
End sorted_facts.

(** ** The two loops over structural statements *)

Lemma declared_members_cons owner member sequence n ms k :
  py_int sequence = Some n →
  declared_members ([owner; member; sequence] :: ms) k =
    if decide (owner = k) then (member, n) :: declared_members ms k
    else declared_members ms k.
Proof.
  intros Hn. unfold declared_members. simpl. rewrite Hn.
  by destruct (decide (owner = k)).
Qed.

Section member_loop_facts.
Context {A : Type} (members : A → list string) (order : A → option (list string))
  (append_member : string → A → A) (set_order : list string → A → A).
Hypothesis order_append : ∀ x o, order (append_member x o) = order o.
Hypothesis order_set : ∀ l o, order (set_order l o) = Some l.

Local Abbreviation step := (member_step members append_member).

Lemma member_step_Some om os g st' :
  step (om, os) g = Some st' →
  ∃ owner member sequence n,
    g = [owner; member; sequence] ∧ py_int sequence = Some n
    ∧ st' =
        (<[owner := default [] (om !! owner) ++ [(member, n)]]> om,
         match os !! owner with
         | Some o =>
             if bool_decide (member ∈ members o) then os
             else <[owner := append_member member o]> os
         | None => os
         end).
Proof.
  unfold member_step.
  destruct g as [|owner [|member [|sequence [|? ?]]]]; try done.
  destruct (py_int sequence) as [n|] eqn:Hn; simpl; [|done].
  intros [= <-]. by exists owner, member, sequence, n.
Qed.

(** What the first loop leaves in [owner_members]. *)
Lemma member_loop_members ms om0 os0 om os k :
  foldM step ms (om0, os0) = Some (om, os) →
  (declared_members ms k = [] → om !! k = om0 !! k)
  ∧ (declared_members ms k ≠ [] →
     om !! k = Some (default [] (om0 !! k) ++ declared_members ms k)).
Proof.
  revert om0 os0. induction ms as [|g ms IH]; intros om0 os0.
  - intros [= <- <-]. by split.
  - rewrite foldM_cons.
    destruct (step (om0, os0) g) as [st1|] eqn:Hstep; [|done].
    change (Some st1 ≫= foldM step ms) with (foldM step ms st1).
    apply member_step_Some in Hstep as (owner & member & sequence & n & -> & Hn & ->).
    intros [IHnil IHcons]%IH. rewrite (declared_members_cons _ _ _ n) by done.
    destruct (decide (owner = k)) as [->|Hne].
    + split; [done|]. intros _.
      destruct (declared_members ms k) as [|x l] eqn:Hd.
      * by rewrite IHnil, lookup_insert_eq.
      * rewrite IHcons, lookup_insert_eq by done. simpl.
        by rewrite <-app_assoc.
    + rewrite lookup_insert_ne in IHnil, IHcons by done. by split.
Qed.

(** The first loop keeps the set of owners and their [order] field, and
    leaves an owner without declared member untouched. *)
Lemma member_loop_owners ms om0 os0 om os k :
  foldM step ms (om0, os0) = Some (om, os) →
  match os0 !! k with
  | None => os !! k = None
  | Some o0 =>
      ∃ o, os !! k = Some o ∧ order o = order o0
           ∧ (declared_members ms k = [] → o = o0)
  end.
Proof.
  revert om0 os0. induction ms as [|g ms IH]; intros om0 os0.
  - intros [= <- <-]. destruct (os0 !! k); eauto.
  - rewrite foldM_cons.
    destruct (step (om0, os0) g) as [st1|] eqn:Hstep; [|done].
    change (Some st1 ≫= foldM step ms) with (foldM step ms st1).
    apply member_step_Some in Hstep as (owner & member & sequence & n & -> & Hn & ->).
    intros H%IH. rewrite (declared_members_cons _ _ _ n) by done.
    destruct (decide (owner = k)) as [->|Hne].
    + destruct (os0 !! k) as [o0|] eqn:Hk; [|by rewrite Hk in H].
      destruct (bool_decide (member ∈ members o0)).
      * rewrite Hk in H. destruct H as (o & ? & ? & _). by exists o.
      * rewrite lookup_insert_eq in H. destruct H as (o & ? & ? & _).
        exists o. rewrite <-(order_append member o0). done.
    + destruct (os0 !! owner) as [o1|]; [|done].
      destruct (bool_decide (member ∈ members o1)); [done|].
      by rewrite lookup_insert_ne in H.
Qed.

(** What the second loop writes. *)
Lemma sort_members_lookup om os k :
  sort_members set_order om os !! k =
    match om !! k with
    | Some l => set_order (sorted snd l).*1 <$> os !! k
    | None => os !! k
    end.
Proof.
  unfold sort_members. revert k.
  apply (map_fold_weak_ind (λ r m, ∀ k,
    r !! k = match m !! k with
             | Some l => set_order (sorted snd l).*1 <$> os !! k
             | None => os !! k
             end)).
  - intros k. by rewrite lookup_empty.
  - intros i l m r Hi IH k. pose proof (IH i) as Hri. rewrite Hi in Hri.
    destruct (decide (i = k)) as [->|Hne].
    + rewrite lookup_insert_eq, Hri.
      destruct (os !! k); simpl; [by rewrite lookup_insert_eq|done].
    + rewrite lookup_insert_ne by done.
      destruct (r !! i); [by rewrite lookup_insert_ne|by apply IH].
Qed.

(** Both loops together, started as the parser starts them. *)
Lemma member_loops_spec ms os0 om os k o :
  (∀ k o, os0 !! k = Some o → order o = None ∧ members o = []) →
  foldM step ms (∅, os0) = Some (om, os) →
  sort_members set_order om os !! k = Some o →
  is_Some (os0 !! k)
  ∧ (declared_members ms k = [] → order o = None ∧ members o = [])
  ∧ (declared_members ms k ≠ [] →
     order o = Some (sorted snd (declared_members ms k)).*1).
Proof.
  intros Hfresh Hloop. rewrite sort_members_lookup. intros Hlook.
  destruct (member_loop_members _ _ _ _ _ k Hloop) as [Hnil Hcons].
  pose proof (member_loop_owners _ _ _ _ _ k Hloop) as Hown.
  rewrite lookup_empty in Hnil, Hcons. simpl in Hcons.
  destruct (os0 !! k) as [o0|] eqn:Hk.
  - destruct Hown as (o1 & Ho1 & Horder & Hsame).
    destruct (Hfresh _ _ Hk) as [Ho0 Hm0]. split; [by eauto|].
    destruct (declared_members ms k) as [|x l] eqn:Hd.
    + rewrite Hnil, Ho1 in Hlook by done. injection Hlook as <-.
      split; [|done]. intros _. by rewrite Hsame.
    + rewrite Hcons, Ho1 in Hlook by done. injection Hlook as <-.
      split; [done|]. intros _. by rewrite order_set.
  - rewrite Hown in Hlook. by destruct (om !! k).
Qed.
End member_loop_facts.

(** ** When the parser raises

    The only operation of the parser that can raise is [int]; it does on a
    numeric field beyond the digit limit, and on nothing else that a match
    can hold. *)

Lemma knowledge_node_step_is_Some s st g :
  g ∈ finditer knowledge_node_pattern s →
  ∃ w, g !! 4%nat = Some w
       ∧ (is_Some (knowledge_node_step st g) ↔
          (String.length w ≤ int_max_str_digits)%nat).
Proof.
  intros (?&?&?&?&w&?&?&n&->&_&Hn)%knowledge_node_groups.
  exists w. split; [done|]. destruct (py_int_limit _ _ Hn) as [<- _].
  unfold knowledge_node_step. destruct (py_int w); simpl; [|by split; intros [? ?]].
  split; by eexists.
Qed.

Lemma concept_step_is_Some s st g :
  g ∈ finditer concept_pattern s →
  ∃ w, g !! 3%nat = Some w
       ∧ (is_Some (concept_step st g) ↔ (String.length w ≤ int_max_str_digits)%nat).
Proof.
  intros (?&?&?&w&n&->&_&Hn)%concept_groups.
  exists w. split; [done|]. destruct (py_int_limit _ _ Hn) as [<- _].
  unfold concept_step. destruct (py_int w); simpl; [|by split; intros [? ?]].
  split; by eexists.
Qed.

Lemma path_step_is_Some s st g :
  g ∈ finditer path_pattern s →
  ∃ w, g !! 5%nat = Some w
       ∧ (is_Some (path_step st g) ↔ (String.length w ≤ int_max_str_digits)%nat).
Proof.
  intros (?&?&?&?&?&w&n&->&_&Hn)%path_groups.
  exists w. split; [done|]. destruct (py_int_limit _ _ Hn) as [<- _].
  unfold path_step. destruct (py_int w); simpl; [|by split; intros [? ?]].
  split; by eexists.
Qed.

Lemma node_relationship_step_is_Some s st g :
  g ∈ finditer node_relationship_pattern s →
  ∃ w, g !! 3%nat = Some w
       ∧ (is_Some (node_relationship_step st g) ↔
          (String.length w ≤ int_max_str_digits)%nat).
Proof.
  intros (?&?&?&w&?&n&->&_&_&Hn)%node_relationship_groups.
  exists w. split; [done|]. destruct (py_int_limit _ _ Hn) as [<- _].
  unfold node_relationship_step.
  destruct (py_int w); simpl; [|by split; intros [? ?]].
  split; by eexists.
Qed.

Lemma concept_node_step_is_Some s st g :
  g ∈ finditer concept_node_pattern s →
  ∃ w, g !! 2%nat = Some w
       ∧ (is_Some (concept_node_step st g) ↔
          (String.length w ≤ int_max_str_digits)%nat).
Proof.
  intros (?&?&w&n&->&_&_&Hn)%concept_node_groups. destruct st.
  exists w. split; [done|]. destruct (py_int_limit _ _ Hn) as [<- _].
  unfold concept_node_step, member_step.
  destruct (py_int w); simpl; [|by split; intros [? ?]].
  split; by eexists.
Qed.

Lemma path_concept_step_is_Some s st g :
  g ∈ finditer path_concept_pattern s →
  ∃ w, g !! 2%nat = Some w
       ∧ (is_Some (path_concept_step st g) ↔
          (String.length w ≤ int_max_str_digits)%nat).
Proof.
  intros (?&?&w&n&->&_&_&Hn)%path_concept_groups. destruct st.
  exists w. split; [done|]. destruct (py_int_limit _ _ Hn) as [<- _].
  unfold path_concept_step, member_step.
  destruct (py_int w); simpl; [|by split; intros [? ?]].
  split; by eexists.
Qed.

Lemma prereq_step_is_Some s st g :
  g ∈ finditer prereq_pattern s → is_Some (prereq_step st g).
Proof. intros (?&?&->&_)%prereq_groups. by eexists. Qed.

(** A loop whose body raises exactly on a long numeric field returns
    exactly when no field of its matches is long. *)
Lemma loop_is_Some {S : Type} (step : S → list string → option S) index
    (ms : list (list string)) st :
  (∀ st g, g ∈ ms →
     ∃ w, g !! index = Some w
          ∧ (is_Some (step st g) ↔ (String.length w ≤ int_max_str_digits)%nat)) →
  is_Some (foldM step ms st) ↔
  Forall (λ w, (String.length w ≤ int_max_str_digits)%nat)
    (omap (λ groups, groups !! index) ms).
Proof.
  revert st. induction ms as [|g ms IH]; intros st Hstep.
  - split; [constructor|by eexists].
  - rewrite foldM_cons. destruct (Hstep st g) as (w & Hw & Hg); [by left|].
    simpl. rewrite Hw. rewrite Forall_cons, <- Hg.
    destruct (step st g) as [st1|] eqn:Hst1; simpl.
    + rewrite (IH st1) by (intros ???; apply Hstep; by right).
      split; [by split; [eexists|]|by intros [_ ?]].
    + split; [by intros [? ?]|]. by intros [[? ?] _].
Qed.

(** [parse_cypher_file] returns exactly when no numeric field of a
    recognised statement is beyond the digit limit. *)
Lemma parse_cypher_file_is_Some s :
  is_Some (parse_cypher_file s) ↔ within_digit_limit s.
Proof.
  unfold within_digit_limit, numeric_fields, numeric_field.
  rewrite !Forall_app.
  rewrite <- (loop_is_Some knowledge_node_step 4 _ ∅)
    by (intros; by eapply knowledge_node_step_is_Some).
  rewrite <- (loop_is_Some concept_step 3 _ ∅)
    by (intros; by eapply concept_step_is_Some).
  rewrite <- (loop_is_Some path_step 5 _ ∅)
    by (intros; by eapply path_step_is_Some).
  rewrite <- (loop_is_Some node_relationship_step 3 _ [])
    by (intros; by eapply node_relationship_step_is_Some).
  unfold parse_cypher_file.
  destruct (foldM knowledge_node_step (finditer knowledge_node_pattern s) ∅)
    as [kn|]; simpl; [|by split; [intros [? ?]|intros [[? ?] _]]].
  destruct (foldM concept_step (finditer concept_pattern s) ∅)
    as [cs0|]; simpl; [|by split; [intros [? ?]|intros (_ & [? ?] & _)]].
  destruct (foldM path_step (finditer path_pattern s) ∅)
    as [lp0|]; simpl; [|by split; [intros [? ?]|intros (_ & _ & [? ?] & _)]].
  destruct (foldM node_relationship_step (finditer node_relationship_pattern s) [])
    as [rels0|]; simpl;
    [|by split; [intros [? ?]|intros (_ & _ & _ & [? ?] & _)]].
  rewrite <- (loop_is_Some concept_node_step 2 _ (∅, cs0))
    by (intros; by eapply concept_node_step_is_Some).
  rewrite <- (loop_is_Some path_concept_step 2 _ (∅, lp0))
    by (intros; by eapply path_concept_step_is_Some).
  destruct (foldM concept_node_step (finditer concept_node_pattern s) (∅, cs0))
    as [[cn cs1]|]; simpl;
    [|by split; [intros [? ?]|intros (_ & _ & _ & _ & [? ?] & _)]].
  destruct (foldM path_concept_step (finditer path_concept_pattern s) (∅, lp0))
    as [[pc lp1]|]; simpl;
    [|by split; [intros [? ?]|intros (_ & _ & _ & _ & _ & [? ?])]].
  destruct (foldM_is_Some prereq_step (finditer prereq_pattern s) rels0)
    as [rels ->]; [by intros; eapply prereq_step_is_Some|]. simpl.
  split; [|by eexists]. intros _. repeat split; by eexists.
Qed.

(** After a parse that returned, every numeric field is within the limit. *)
Lemma numeric_field_elem index p s g w :
  g ∈ finditer p s → g !! index = Some w → w ∈ numeric_field index p s.
Proof. intros Hg Hw. apply list_elem_of_omap. by exists g. Qed.

Lemma within_digit_limit_field s index p g w :
  within_digit_limit s →
  (index, p) ∈ [(4%nat, knowledge_node_pattern); (3%nat, concept_pattern);
                (5%nat, path_pattern); (3%nat, node_relationship_pattern);
                (2%nat, concept_node_pattern); (2%nat, path_concept_pattern)] →
  g ∈ finditer p s → g !! index = Some w →
  (String.length w ≤ int_max_str_digits)%nat.
Proof.
  intros Hlimit Hp Hg Hw. pose proof (numeric_field_elem _ _ _ _ _ Hg Hw) as Hin.
  apply (proj1 (Forall_forall _ _) Hlimit). unfold numeric_fields.
  rewrite !elem_of_app. rewrite !elem_of_cons in Hp.
  destruct Hp as [[= -> ->]|[[= -> ->]|[[= -> ->]|[[= -> ->]|[[= -> ->]|[[= -> ->]|Hp]]]]]];
    [tauto..|by apply elem_of_nil in Hp].
Qed.

Ltac numeric_group :=
  solve [repeat first [apply list_elem_of_here | apply list_elem_of_further]].

Lemma field_converts s index p g w n :
  is_Some (parse_cypher_file s) →
  (index, p) ∈ [(4%nat, knowledge_node_pattern); (3%nat, concept_pattern);
                (5%nat, path_pattern); (3%nat, node_relationship_pattern);
                (2%nat, concept_node_pattern); (2%nat, path_concept_pattern)] →
  g ∈ finditer p s → g !! index = Some w →
  py_int w = (if (int_max_str_digits <? String.length w)%nat then None else Some n) →
  py_int w = Some n.
Proof.
  intros Hs%parse_cypher_file_is_Some Hp Hg Hw Hn.
  apply (py_int_limit _ _ Hn). by eapply within_digit_limit_field.
Qed.

(** The stages of a successful parse. *)
Lemma parse_cypher_file_Some s gd :
  parse_cypher_file s = Some gd →
  ∃ kn cs0 lp0 rels0 cn cs1 pc lp1 rels,
    foldM knowledge_node_step (finditer knowledge_node_pattern s) ∅ = Some kn
    ∧ foldM concept_step (finditer concept_pattern s) ∅ = Some cs0
    ∧ foldM path_step (finditer path_pattern s) ∅ = Some lp0
    ∧ foldM node_relationship_step (finditer node_relationship_pattern s) []
      = Some rels0
    ∧ foldM concept_node_step (finditer concept_node_pattern s) (∅, cs0)
      = Some (cn, cs1)
    ∧ foldM path_concept_step (finditer path_concept_pattern s) (∅, lp0)
      = Some (pc, lp1)
    ∧ foldM prereq_step (finditer prereq_pattern s) rels0 = Some rels
    ∧ gd = {| knowledge_nodes := kn;
              concepts := sort_concept_nodes cn cs1;
              learning_paths := sort_path_concepts pc lp1;
              relationships := rels |}.
Proof.
  unfold parse_cypher_file.
  destruct (foldM knowledge_node_step _ _) as [kn|] eqn:H1; [|done].
  destruct (foldM concept_step _ _) as [cs0|] eqn:H2; [|done].
  destruct (foldM path_step _ _) as [lp0|] eqn:H3; [|done].
  destruct (foldM node_relationship_step _ _) as [rels0|] eqn:H4; [|done].
  simpl.
  destruct (foldM concept_node_step _ _) as [[cn cs1]|] eqn:H5; [|done].
  simpl.
  destruct (foldM path_concept_step _ _) as [[pc lp1]|] eqn:H6; [|done].
  simpl.
  destruct (foldM prereq_step _ _) as [rels|] eqn:H7; [|done].
  simpl. intros [= <-]. by exists kn, cs0, lp0, rels0, cn, cs1, pc, lp1, rels.
Qed.

(** ** What a successful parse contains *)

Lemma foldM_snoc {A B : Type} (R : A → B → Prop) (f : list B → A → option (list B))
    l st st' :
  (∀ st x st', x ∈ l → f st x = Some st' → ∃ y, st' = st ++ [y] ∧ R x y) →
  foldM f l st = Some st' → ∃ new, st' = st ++ new ∧ Forall2 R l new.
Proof.
  revert st. induction l as [|x l IH]; intros st Hf.
  - intros [= <-]. exists []. split; [by rewrite app_nil_r|constructor].
  - rewrite foldM_cons. destruct (f st x) as [st1|] eqn:Hx; [|done].
    destruct (Hf _ _ _ ltac:(by left) Hx) as (y & -> & Hy).
    intros (new & -> & Hnew)%IH.
    + exists (y :: new). split; [by rewrite <-app_assoc|by constructor].
    + intros ????. apply Hf. by right.
Qed.

Lemma knowledge_nodes_initial s kn k :
  foldM knowledge_node_step (finditer knowledge_node_pattern s) ∅ = Some kn →
  is_Some (kn !! k) → initial k = Some "N"%char.
Proof.
  intros Hloop. revert k.
  eapply (foldM_invariant (λ kn, ∀ k, is_Some (kn !! k) → initial k = Some "N"%char));
    [exact Hloop| |].
  - intros k. rewrite lookup_empty. by intros [? ?].
  - intros st g st' (id&?&?&?&?&?&?&n&->&Hid&Hn)%knowledge_node_groups IH.
    unfold knowledge_node_step. rewrite Hn. destruct (_ <? _)%nat; [done|]. simpl.
    intros [= <-] k.
    destruct (decide (id = k)) as [<-|]; [done|].
    rewrite lookup_insert_ne by done. apply IH.
Qed.

Lemma concepts_fresh s cs0 k c :
  foldM concept_step (finditer concept_pattern s) ∅ = Some cs0 →
  cs0 !! k = Some c →
  initial k = Some "C"%char ∧ c_sequence c = None ∧ c_nodes c = [].
Proof.
  intros Hloop. revert k c.
  eapply (foldM_invariant (λ cs, ∀ k c, cs !! k = Some c →
            initial k = Some "C"%char ∧ c_sequence c = None ∧ c_nodes c = []));
    [exact Hloop| |].
  - intros k c. by rewrite lookup_empty.
  - intros st g st' (id&?&?&?&n&->&Hid&Hn)%concept_groups IH.
    unfold concept_step. rewrite Hn. destruct (_ <? _)%nat; [done|]. simpl.
    intros [= <-] k c.
    destruct (decide (id = k)) as [<-|].
    + rewrite lookup_insert_eq. by intros [= <-].
    + rewrite lookup_insert_ne by done. apply IH.
Qed.

Lemma paths_fresh s lp0 k p :
  foldM path_step (finditer path_pattern s) ∅ = Some lp0 →
  lp0 !! k = Some p →
  initial k = Some "P"%char ∧ p_conceptSequence p = None ∧ p_concepts p = [].
Proof.
  intros Hloop. revert k p.
  eapply (foldM_invariant (λ lp, ∀ k p, lp !! k = Some p →
            initial k = Some "P"%char ∧ p_conceptSequence p = None ∧ p_concepts p = []));
    [exact Hloop| |].
  - intros k p. by rewrite lookup_empty.
  - intros st g st' (id&?&?&?&?&?&n&->&Hid&Hn)%path_groups IH.
    unfold path_step. rewrite Hn. destruct (_ <? _)%nat; [done|]. simpl.
    intros [= <-] k p.
    destruct (decide (id = k)) as [<-|].
    + rewrite lookup_insert_eq. by intros [= <-].
    + rewrite lookup_insert_ne by done. apply IH.
Qed.

Lemma parsed_knowledge_node s gd k :
  parse_cypher_file s = Some gd →
  is_Some (knowledge_nodes gd !! k) → initial k = Some "N"%char.
Proof.
  intros (kn&?&?&?&?&?&?&?&?&Hkn&_&_&_&_&_&_&->)%parse_cypher_file_Some.
  simpl. by eapply knowledge_nodes_initial.
Qed.

(** The [sequence] key of a parsed concept. *)
Lemma parsed_concept s gd k c :
  parse_cypher_file s = Some gd → concepts gd !! k = Some c →
  initial k = Some "C"%char
  ∧ (contains_members s k = [] → c_sequence c = None ∧ c_nodes c = [])
  ∧ (contains_members s k ≠ [] →
     c_sequence c = Some (sorted snd (contains_members s k)).*1).
Proof.
  intros (?&cs0&?&?&cn&cs1&?&?&?&_&Hcs0&_&_&Hloop&_&_&->)%parse_cypher_file_Some.
  simpl. intros Hk.
  destruct (member_loops_spec c_nodes c_sequence append_node set_sequence
              (λ _ _, eq_refl) (λ _ _, eq_refl) _ _ _ _ _ _
              (λ k c H, proj2 (concepts_fresh s cs0 k c Hcs0 H)) Hloop Hk)
    as ([c0 Hc0] & Hnil & Hcons).
  split; [|done]. by eapply concepts_fresh.
Qed.

(** The [conceptSequence] key of a parsed learning path. *)
Lemma parsed_path s gd k p :
  parse_cypher_file s = Some gd → learning_paths gd !! k = Some p →
  initial k = Some "P"%char
  ∧ (includes_members s k = [] → p_conceptSequence p = None ∧ p_concepts p = [])
  ∧ (includes_members s k ≠ [] →
     p_conceptSequence p = Some (sorted snd (includes_members s k)).*1).
Proof.
  intros (?&?&lp0&?&?&?&pc&lp1&?&_&_&Hlp0&_&_&Hloop&_&->)%parse_cypher_file_Some.
  simpl. intros Hk.
  destruct (member_loops_spec p_concepts p_conceptSequence append_concept
              set_conceptSequence
              (λ _ _, eq_refl) (λ _ _, eq_refl) _ _ _ _ _ _
              (λ k p H, proj2 (paths_fresh s lp0 k p Hlp0 H)) Hloop Hk)
    as ([p0 Hp0] & Hnil & Hcons).
  split; [|done]. by eapply paths_fresh.
Qed.

Lemma declared_members_elem ms k x n :
  (x, n) ∈ declared_members ms k →
  ∃ sequence, [k; x; sequence] ∈ ms ∧ py_int sequence = Some n.
Proof.
  unfold declared_members. rewrite list_elem_of_omap.
  intros (g & Hg & Hm). unfold member_of in Hm.
  destruct g as [|owner [|member [|sequence [|? ?]]]]; try done.
  destruct (decide (owner = k)) as [->|]; [|done].
  destruct (py_int sequence) as [n'|] eqn:Hn; [|done].
  injection Hm as <- <-. by exists sequence.
Qed.

Lemma contains_members_initial s k x :
  x ∈ (contains_members s k).*1 → initial x = Some "N"%char.
Proof.
  intros ([x' n] & -> & Hx)%list_elem_of_fmap.
  apply declared_members_elem in Hx as (sequence & Hg & _).
  apply concept_node_groups in Hg as (?&?&?&?&[= <- <- <-]&_&?&_). done.
Qed.

Lemma includes_members_initial s k x :
  x ∈ (includes_members s k).*1 → initial x = Some "C"%char.
Proof.
  intros ([x' n] & -> & Hx)%list_elem_of_fmap.
  apply declared_members_elem in Hx as (sequence & Hg & _).
  apply path_concept_groups in Hg as (?&?&?&?&[= <- <- <-]&_&?&_). done.
Qed.

(** The raw relationship list holds one entry per relationship statement,
    whatever its endpoints: first the unit-to-unit statements, then the
    prerequisite statements. *)
Lemma parsed_relationships s gd :
  parse_cypher_file s = Some gd →
  ∃ rn rp,
    relationships gd = rn ++ rp
    ∧ Forall2 declares_relationship (finditer node_relationship_pattern s) rn
    ∧ Forall2 declares_prerequisite (finditer prereq_pattern s) rp.
Proof.
  intros (?&?&?&rels0&?&?&?&?&rels&_&_&_&Hn&_&_&Hp&->)%parse_cypher_file_Some.
  simpl.
  eapply (foldM_snoc declares_relationship) in Hn as (rn & -> & Hrn).
  - eapply (foldM_snoc declares_prerequisite) in Hp as (rp & -> & Hrp).
    + by exists rn, rp.
    + intros st g st' (a&b&->&_)%prereq_groups [= <-]. by eexists.
  - intros st g st' (a&b&kind&strength&j&n&->&_&_&Hs)%node_relationship_groups.
    unfold node_relationship_step.
    destruct (py_int strength) as [n'|] eqn:Hn'; [|done]. simpl. intros [= <-].
    eexists. split; [done|]. by exists strength.
Qed.

(** ** Graph operations *)

Lemma has_node_true G n : has_node G n = true ↔ is_Some (g_node G !! n).
Proof. unfold has_node. apply bool_decide_eq_true. Qed.

Lemma has_node_ext G G' n : g_node G' = g_node G → has_node G' n = has_node G n.
Proof. unfold has_node. by intros ->. Qed.

Lemma add_node_is_Some G n attrs k :
  is_Some (g_node (add_node G n attrs) !! k) ↔ k = n ∨ is_Some (g_node G !! k).
Proof.
  simpl. destruct (decide (n = k)) as [->|].
  - rewrite lookup_insert_eq. split; [by left|by eauto].
  - rewrite lookup_insert_ne by done. split; [by right|]. by intros [->|].
Qed.

Lemma add_edge_nodes G u v attrs :
  has_node G u = true → has_node G v = true →
  g_node (add_edge G u v attrs) = g_node G.
Proof.
  intros Hu Hv. unfold add_edge. simpl. rewrite Hu.
  fold (has_node G v). by rewrite Hv.
Qed.

Lemma add_edge_keeps_nodes G u v attrs k :
  is_Some (g_node G !! k) → is_Some (g_node (add_edge G u v attrs) !! k).
Proof.
  intros Hk. unfold add_edge. simpl.
  assert (is_Some ((if has_node G u then g_node G else <[u:=∅]> (g_node G)) !! k)) as Hk'.
  { destruct (has_node G u); [done|].
    destruct (decide (u = k)) as [->|]; [by rewrite lookup_insert_eq|].
    by rewrite lookup_insert_ne. }
  case_bool_decide; [done|].
  destruct (decide (v = k)) as [->|]; [by rewrite lookup_insert_eq|].
  by rewrite lookup_insert_ne.
Qed.

Lemma add_edge_endpoints G u v attrs :
  is_Some (g_node (add_edge G u v attrs) !! u)
  ∧ is_Some (g_node (add_edge G u v attrs) !! v).
Proof.
  unfold add_edge. simpl.
  assert (is_Some ((if has_node G u then g_node G else <[u:=∅]> (g_node G)) !! u)) as Hu.
  { destruct (has_node G u) eqn:Hu; [by apply has_node_true|].
    by rewrite lookup_insert_eq. }
  case_bool_decide as Hv; [done|]. split; [|by rewrite lookup_insert_eq].
  destruct (decide (v = u)) as [->|]; [by rewrite lookup_insert_eq|].
  by rewrite lookup_insert_ne.
Qed.

Lemma add_node_wf G n attrs : wf_graph G → wf_graph (add_node G n attrs).
Proof.
  intros Hwf u v Huv. rewrite !add_node_is_Some.
  destruct (Hwf u v Huv). split; by right.
Qed.

Lemma add_edge_wf G u v attrs : wf_graph G → wf_graph (add_edge G u v attrs).
Proof.
  intros Hwf u' v' Huv.
  destruct (decide ((u, v) = (u', v'))) as [[= <- <-]|Hne].
  - apply add_edge_endpoints.
  - simpl in Huv. rewrite lookup_insert_ne in Huv by done.
    destruct (Hwf u' v' Huv). split; by apply add_edge_keeps_nodes.
Qed.

Lemma empty_graph_wf : wf_graph empty_graph.
Proof. intros u v. simpl. rewrite lookup_empty. by intros [? ?]. Qed.

(** Later member statements take over the two keys of earlier ones. *)
Lemma member_attrs_absorb relation relation' i j (d : gmap string attr) :
  member_attrs relation j ∪ (member_attrs relation' i ∪ d) = member_attrs relation j ∪ d.
Proof.
  apply map_eq. intros key. rewrite !lookup_union. unfold member_attrs.
  destruct (decide (key = "relation")) as [->|];
    [by rewrite !lookup_insert_eq; destruct (d !! "relation")|].
  destruct (decide (key = "sequence")) as [->|].
  - rewrite !(lookup_insert_ne _ "relation") by done.
    rewrite !lookup_insert_eq. by destruct (d !! "sequence").
  - rewrite !lookup_insert_ne, !lookup_empty by done.
    by destruct (d !! key).
Qed.

Lemma member_attrs_relation relation i (d : gmap string attr) :
  (member_attrs relation i ∪ d) !! "relation" = Some (AStr relation).
Proof. rewrite lookup_union. unfold member_attrs. rewrite lookup_insert_eq.
  by destruct (d !! "relation"). Qed.

Lemma member_attrs_sequence relation i (d : gmap string attr) :
  (member_attrs relation i ∪ d) !! "sequence" = Some (AInt (Z.of_nat i + 1)).
Proof.
  rewrite lookup_union. unfold member_attrs.
  rewrite lookup_insert_ne, lookup_insert_eq by done.
  by destruct (d !! "sequence").
Qed.

(** ** Linking the members of an owner *)

Lemma add_member_fold relation owner l i G :
  has_node G owner = true →
  let G' := fold_left (add_member relation owner) (enumerate_from i l) G in
  g_node G' = g_node G
  ∧ ∀ u v,
      g_adj G' !! (u, v) =
        if decide (u = owner) then
          match last_index_from i l v with
          | Some j =>
              if has_node G v
              then Some (member_attrs relation j ∪ default ∅ (g_adj G !! (u, v)))
              else g_adj G !! (u, v)
          | None => g_adj G !! (u, v)
          end
        else g_adj G !! (u, v).
Proof.
  revert i G. induction l as [|x l IH]; intros i G Howner; simpl.
  - split; [done|]. intros u v. by destruct (decide (u = owner)).
  - set (G1 := add_member relation owner G (i, x)).
    assert (g_node G1 = g_node G) as Hnodes.
    { unfold G1, add_member. simpl. destruct (has_node G x) eqn:Hx; [|done].
      by apply add_edge_nodes. }
    destruct (IH (S i) G1) as [IHn IHa]; [by rewrite (has_node_ext G)|].
    split; [by rewrite IHn|]. intros u v. rewrite IHa.
    rewrite (has_node_ext G G1) by done.
    destruct (decide (u = owner)) as [->|Hu].
    + destruct (last_index_from (S i) l v) as [j|].
      * destruct (has_node G v) eqn:Hv.
        -- unfold G1, add_member. simpl.
           destruct (has_node G x) eqn:Hx; [|done]. simpl.
           destruct (decide (x = v)) as [->|Hne].
           ++ rewrite lookup_insert_eq. simpl. by rewrite member_attrs_absorb.
           ++ rewrite lookup_insert_ne by congruence. done.
        -- unfold G1, add_member. simpl.
           destruct (has_node G x) eqn:Hx; [|done]. simpl.
           rewrite lookup_insert_ne; [done|]. congruence.
      * unfold G1, add_member. simpl.
        destruct (decide (x = v)) as [->|Hne].
        -- destruct (has_node G v); [|done]. simpl. by rewrite lookup_insert_eq.
        -- destruct (has_node G x); [|done]. simpl.
           rewrite lookup_insert_ne; [done|]. congruence.
    + unfold G1, add_member. simpl. destruct (has_node G x); [|done]. simpl.
      rewrite lookup_insert_ne; [done|]. congruence.
Qed.

Lemma add_members_spec relation owner seq G :
  has_node G owner = true →
  g_node (add_members relation owner seq G) = g_node G
  ∧ ∀ u v,
      g_adj (add_members relation owner seq G) !! (u, v) =
        if decide (u = owner)
        then member_edge G relation seq v (g_adj G !! (u, v))
        else g_adj G !! (u, v).
Proof.
  intros Howner. destruct seq as [l|]; simpl.
  - destruct (add_member_fold relation owner l 0 G Howner) as [Hn Ha].
    split; [done|]. intros u v. rewrite Ha. by unfold member_edge, last_index.
  - split; [done|]. intros u v. unfold member_edge. simpl.
    by destruct (decide (u = owner)).
Qed.

(** A whole pass: every owner of the dictionary [m] is a node of [G]. *)
Lemma member_pass_spec {A : Type} relation (seq_of : A → option (list string))
    (m : gmap string A) G :
  (∀ k, is_Some (m !! k) → has_node G k = true) →
  let G' := map_fold (λ k d G, add_members relation k (seq_of d) G) G m in
  g_node G' = g_node G
  ∧ ∀ u v,
      g_adj G' !! (u, v) =
        member_edge G relation (m !! u ≫= seq_of) v (g_adj G !! (u, v)).
Proof.
  simpl.
  apply (map_fold_weak_ind (λ G' m,
    (∀ k, is_Some (m !! k) → has_node G k = true) →
    g_node G' = g_node G
    ∧ ∀ u v, g_adj G' !! (u, v) =
        member_edge G relation (m !! u ≫= seq_of) v (g_adj G !! (u, v)))).
  - intros _. split; [done|]. intros u v. by rewrite lookup_empty.
  - intros i x m' r Hi IH Hnodes.
    destruct IH as [IHn IHa].
    { intros k Hk. apply Hnodes. rewrite lookup_insert_ne; [done|].
      intros ->. rewrite Hi in Hk. by destruct Hk. }
    destruct (add_members_spec relation i (seq_of x) r) as [Hn Ha].
    { rewrite (has_node_ext G) by done. apply Hnodes.
      by rewrite lookup_insert_eq. }
    split; [by rewrite Hn|]. intros u v. rewrite Ha.
    destruct (decide (u = i)) as [->|Hu].
    + rewrite lookup_insert_eq, IHa, Hi. simpl. unfold member_edge.
      by rewrite (has_node_ext G r).
    + by rewrite lookup_insert_ne, IHa.
Qed.

(** ** Last occurrences *)

Lemma last_index_from_None i l v : last_index_from i l v = None ↔ v ∉ l.
Proof.
  revert i. induction l as [|x l IH]; intros i; simpl.
  - split; [intros _; apply not_elem_of_nil|done].
  - rewrite not_elem_of_cons. destruct (last_index_from (S i) l v) eqn:Hl.
    + split; [done|]. intros [_ Hv]. apply (IH (S i)) in Hv. congruence.
    + apply IH in Hl. destruct (decide (x = v)) as [->|]; [|by split].
      split; [done|]. by intros [? _].
Qed.

Lemma last_index_from_Some i l v j :
  last_index_from i l v = Some j ↔
  ∃ r, j = (i + r)%nat ∧ l !! r = Some v ∧ v ∉ drop (S r) l.
Proof.
  revert i j. induction l as [|x l IH]; intros i j; simpl.
  - split; [done|]. by intros (r & _ & ? & _).
  - destruct (last_index_from (S i) l v) as [j'|] eqn:Hl.
    + apply IH in Hl as (r & -> & Hr & Hlast). split.
      * intros [= <-]. exists (S r). split; [lia|done].
      * intros (r' & -> & Hr' & Hlast'). f_equal.
        destruct r' as [|r']; simpl in *.
        -- destruct Hlast'. by eapply list_elem_of_lookup_2.
        -- destruct (Nat.lt_trichotomy r r') as [Hlt|[->|Hgt]]; [|lia|].
           ++ destruct Hlast. apply list_elem_of_lookup.
              exists (r' - S r)%nat. rewrite lookup_drop. rewrite <-Hr'. f_equal. lia.
           ++ destruct Hlast'. apply list_elem_of_lookup.
              exists (r - S r')%nat. rewrite lookup_drop. rewrite <-Hr. f_equal. lia.
    + apply last_index_from_None in Hl.
      destruct (decide (x = v)) as [->|Hne]; split.
      * intros [= <-]. exists 0%nat. split; [lia|]. by rewrite drop_0.
      * intros ([|r] & -> & Hr & _); [f_equal; lia|].
        destruct Hl. by eapply list_elem_of_lookup_2.
      * done.
      * intros ([|r] & -> & Hr & _); simpl in Hr; [congruence|].
        destruct Hl. by eapply list_elem_of_lookup_2.
Qed.

Lemma last_index_Some l v j :
  last_index l v = Some j ↔ l !! j = Some v ∧ v ∉ drop (S j) l.
Proof.
  unfold last_index. rewrite last_index_from_Some. split.
  - by intros (r & -> & ?).
  - intros ?. by exists j.
Qed.

Lemma last_index_None l v : last_index l v = None ↔ v ∉ l.
Proof. apply last_index_from_None. Qed.

Lemma last_index_is_Some l v : v ∈ l → is_Some (last_index l v).
Proof.
  intros Hv. destruct (last_index l v) eqn:Hl; [by eauto|].
  by apply last_index_None in Hl.
Qed.

(** ** The passes of [build_networkx_graph] *)

Lemma node_pass_spec {A : Type} (attrs_of : string → A → gmap string attr)
    (m : gmap string A) G :
  let G' := map_fold (λ k d G, add_node G k (attrs_of k d)) G m in
  g_adj G' = g_adj G
  ∧ (wf_graph G → wf_graph G')
  ∧ ∀ n, is_Some (g_node G' !! n) ↔ is_Some (g_node G !! n) ∨ is_Some (m !! n).
Proof.
  simpl.
  apply (map_fold_weak_ind (λ G' m,
    g_adj G' = g_adj G ∧ (wf_graph G → wf_graph G')
    ∧ ∀ n, is_Some (g_node G' !! n) ↔ is_Some (g_node G !! n) ∨ is_Some (m !! n))).
  - split; [done|]. split; [done|]. intros n. rewrite lookup_empty.
    split; [by left|]. intros [?|[? ?]]; done.
  - intros i x m' r Hi (IHa & IHwf & IHn). split; [done|]. split.
    + intros Hwf. by apply add_node_wf, IHwf.
    + intros n. rewrite add_node_is_Some, IHn.
      destruct (decide (i = n)) as [->|Hne].
      * rewrite lookup_insert_eq. split; [by right; eauto|by left].
      * rewrite lookup_insert_ne by done. split; [by intros [?|?]|].
        intros H. by right.
Qed.

Lemma node_graph_spec gd :
  g_adj (node_graph gd) = ∅ ∧ wf_graph (node_graph gd)
  ∧ ∀ n, is_Some (g_node (node_graph gd) !! n) ↔ is_entity gd n.
Proof.
  unfold node_graph.
  set (G1 := add_knowledge_nodes gd empty_graph).
  set (G2 := add_concepts gd G1).
  set (G3 := add_learning_paths gd G2).
  assert (g_adj G1 = g_adj empty_graph ∧ (wf_graph empty_graph → wf_graph G1)
          ∧ ∀ n, is_Some (g_node G1 !! n) ↔
                 is_Some (g_node empty_graph !! n) ∨ is_Some (knowledge_nodes gd !! n))
    as (Ha1 & Hwf1 & Hn1).
  { exact (node_pass_spec (λ _ d,
      <["type" := AStr "KnowledgeNode"]> (<["label" := AStr (kn_title d)]>
        (knowledge_node_dict d))) (knowledge_nodes gd) empty_graph). }
  assert (g_adj G2 = g_adj G1 ∧ (wf_graph G1 → wf_graph G2)
          ∧ ∀ n, is_Some (g_node G2 !! n) ↔
                 is_Some (g_node G1 !! n) ∨ is_Some (concepts gd !! n))
    as (Ha2 & Hwf2 & Hn2).
  { exact (node_pass_spec (λ _ d,
      <["type" := AStr "Concept"]> (<["label" := AStr (c_name d)]>
        (concept_dict d))) (concepts gd) G1). }
  assert (g_adj G3 = g_adj G2 ∧ (wf_graph G2 → wf_graph G3)
          ∧ ∀ n, is_Some (g_node G3 !! n) ↔
                 is_Some (g_node G2 !! n) ∨ is_Some (learning_paths gd !! n))
    as (Ha3 & Hwf3 & Hn3).
  { exact (node_pass_spec (λ _ d,
      <["type" := AStr "LearningPath"]> (<["label" := AStr (p_name d)]>
        (path_dict d))) (learning_paths gd) G2). }
  split; [by rewrite Ha3, Ha2, Ha1|]. split.
  - apply Hwf3, Hwf2, Hwf1, empty_graph_wf.
  - intros n. rewrite Hn3, Hn2, Hn1. unfold is_entity. simpl.
    rewrite lookup_empty. split; [|tauto].
    intros [[[[? ?]|?]|?]|?]; [done|tauto..].
Qed.

Lemma add_relationship_nodes G r : g_node (add_relationship G r) = g_node G.
Proof.
  unfold add_relationship.
  destruct (has_node G (r_source r)) eqn:Hs; [|done].
  destruct (has_node G (r_target r)) eqn:Ht; [|done].
  by apply add_edge_nodes.
Qed.

Lemma add_relationship_wf G r : wf_graph G → wf_graph (add_relationship G r).
Proof.
  intros Hwf. unfold add_relationship.
  destruct (_ && _); [by apply add_edge_wf|done].
Qed.

Lemma add_relationship_other G r u v :
  ¬ joins r u v → g_adj (add_relationship G r) !! (u, v) = g_adj G !! (u, v).
Proof.
  intros Hne. unfold add_relationship. destruct (_ && _); [|done]. simpl.
  rewrite lookup_insert_ne; [done|]. intros [= ? ?]. by apply Hne.
Qed.

Lemma add_relationship_joined G r :
  has_node G (r_source r) = true → has_node G (r_target r) = true →
  g_adj (add_relationship G r) !! (r_source r, r_target r) =
    Some (relationship_attrs r ∪ default ∅ (g_adj G !! (r_source r, r_target r))).
Proof.
  intros Hs Ht. unfold add_relationship. rewrite Hs, Ht. simpl.
  by rewrite lookup_insert_eq.
Qed.

Lemma fold_relationships_nodes rs G :
  g_node (fold_left add_relationship rs G) = g_node G.
Proof.
  revert G. induction rs as [|r rs IH]; intros G; simpl; [done|].
  by rewrite IH, add_relationship_nodes.
Qed.

Lemma fold_relationships_wf rs G :
  wf_graph G → wf_graph (fold_left add_relationship rs G).
Proof.
  revert G. induction rs as [|r rs IH]; intros G Hwf; simpl; [done|].
  by apply IH, add_relationship_wf.
Qed.

Lemma fold_relationships_other rs G u v :
  Forall (λ r, ¬ joins r u v) rs →
  g_adj (fold_left add_relationship rs G) !! (u, v) = g_adj G !! (u, v).
Proof.
  revert G. induction rs as [|r rs IH]; intros G Hrs; simpl; [done|].
  inversion Hrs; subst. by rewrite IH, add_relationship_other.
Qed.

(** The edge between two nodes carries the attributes of the last
    relationship that joins them. *)
Lemma fold_relationships_last rs1 r rs2 G :
  has_node G (r_source r) = true → has_node G (r_target r) = true →
  Forall (λ r', ¬ joins r' (r_source r) (r_target r)) rs2 →
  ∃ d, g_adj (fold_left add_relationship (rs1 ++ r :: rs2) G)
         !! (r_source r, r_target r) = Some (relationship_attrs r ∪ d).
Proof.
  intros Hs Ht Hrs2. rewrite fold_left_app. simpl.
  rewrite fold_relationships_other by done.
  rewrite add_relationship_joined; [by eauto|..];
    by rewrite (has_node_ext G) by apply fold_relationships_nodes.
Qed.

(** Relationship edges carry no [sequence], and each comes from a
    relationship of the list. *)
Lemma fold_relationships_edges rs G u v d :
  g_adj (fold_left add_relationship rs G) !! (u, v) = Some d →
  (g_adj G !! (u, v) = Some d)
  ∨ (∃ r, r ∈ rs ∧ joins r u v ∧ has_node G u = true ∧ has_node G v = true
          ∧ (default ∅ (g_adj G !! (u, v)) !! "sequence" = None →
             d !! "sequence" = None)).
Proof.
  revert G d. induction rs as [|r rs IH] using rev_ind; intros G d; simpl; [by left|].
  rewrite fold_left_app. simpl. set (G1 := fold_left add_relationship rs G).
  destruct (decide (joins r u v)) as [[<- <-]|Hne].
  - unfold add_relationship.
    rewrite !(has_node_ext G G1) by apply fold_relationships_nodes.
    destruct (has_node G (r_source r)) eqn:Hs; simpl.
    + destruct (has_node G (r_target r)) eqn:Ht; simpl.
      * rewrite lookup_insert_eq. intros [= <-]. right. exists r.
        split; [apply elem_of_app; right; by left|]. repeat split; try done.
        intros Hseq. rewrite lookup_union.
        unfold relationship_attrs. rewrite !lookup_insert_ne, lookup_empty by done.
        destruct (g_adj G1 !! (r_source r, r_target r)) as [d1|] eqn:Hd1;
          simpl; [|by rewrite lookup_empty].
        apply IH in Hd1 as [Hd1|(r' & _ & _ & _ & _ & Hd1)].
        -- rewrite Hd1 in Hseq. simpl in Hseq. by rewrite Hseq.
        -- by rewrite Hd1.
      * intros [?|(r' & ? & ? & ? & ? & ?)]%IH; [by left|congruence].
    + intros [?|(r' & ? & ? & ? & ? & ?)]%IH; [by left|congruence].
  - rewrite add_relationship_other by done.
    intros [?|(r' & ? & ?)]%IH; [by left|]. right. exists r'.
    split; [apply elem_of_app; by left|done].
Qed.

(** ** The built graph *)

Lemma add_members_wf relation owner seq G :
  wf_graph G → wf_graph (add_members relation owner seq G).
Proof.
  destruct seq as [l|]; simpl; [|done]. unfold enumerate. generalize 0%nat.
  revert G. induction l as [|x l IH]; intros G i Hwf; simpl; [done|].
  apply IH. unfold add_member. simpl.
  destruct (has_node G x); [by apply add_edge_wf|done].
Qed.

Lemma member_pass_wf {A : Type} relation (seq_of : A → option (list string))
    (m : gmap string A) G :
  wf_graph G →
  wf_graph (map_fold (λ k d G, add_members relation k (seq_of d) G) G m).
Proof.
  intros Hwf. apply (map_fold_weak_ind (λ G' _, wf_graph G')); [done|].
  intros. by apply add_members_wf.
Qed.

Lemma member_edge_ext G G' relation seq v old :
  g_node G' = g_node G →
  member_edge G' relation seq v old = member_edge G relation seq v old.
Proof. intros H. unfold member_edge. by rewrite (has_node_ext G G'). Qed.

Lemma relationship_graph_nodes gd :
  g_node (relationship_graph gd) = g_node (node_graph gd).
Proof. apply fold_relationships_nodes. Qed.

(** Nodes and edges of the built graph in terms of the model. *)
Lemma build_spec gd :
  let G := build_networkx_graph gd in
  g_node G = g_node (node_graph gd)
  ∧ ∀ u v,
      g_adj G !! (u, v) =
        member_edge G "INCLUDES" (learning_paths gd !! u ≫= p_conceptSequence) v
          (member_edge G "CONTAINS" (concepts gd !! u ≫= c_sequence) v
             (g_adj (relationship_graph gd) !! (u, v))).
Proof.
  simpl. unfold build_networkx_graph.
  change (add_relationships gd _) with (relationship_graph gd).
  set (G4 := relationship_graph gd).
  assert (∀ n, is_entity gd n → has_node G4 n = true) as Hentity.
  { intros n Hn. apply has_node_true. unfold G4.
    rewrite relationship_graph_nodes. by apply node_graph_spec. }
  destruct (member_pass_spec "CONTAINS" c_sequence (concepts gd) G4) as [Hn5 Ha5].
  { intros k Hk. apply Hentity. right. by left. }
  set (G5 := add_concept_edges gd G4).
  change (map_fold _ G4 (concepts gd)) with G5 in Hn5, Ha5.
  destruct (member_pass_spec "INCLUDES" p_conceptSequence (learning_paths gd) G5)
    as [Hn6 Ha6].
  { intros k Hk. rewrite (has_node_ext G4) by done. apply Hentity. right. by right. }
  set (G6 := add_path_edges gd G5).
  change (map_fold _ G5 (learning_paths gd)) with G6 in Hn6, Ha6.
  split; [by rewrite Hn6, Hn5; apply relationship_graph_nodes|].
  intros u v. rewrite Ha6, Ha5.
  rewrite (member_edge_ext G5 G6) by done.
  f_equal. apply member_edge_ext. by rewrite Hn6.
Qed.

Lemma build_nodes gd n :
  is_Some (g_node (build_networkx_graph gd) !! n) ↔ is_entity gd n.
Proof.
  destruct (build_spec gd) as [-> _]. apply node_graph_spec.
Qed.

Lemma build_wf gd : wf_graph (build_networkx_graph gd).
Proof.
  unfold build_networkx_graph. apply member_pass_wf, member_pass_wf.
  apply fold_relationships_wf, node_graph_spec.
Qed.

(** An edge of the relationship pass joins two entities, has no
    [sequence], and stems from a relationship of the list. *)
Lemma relationship_graph_edge gd u v d :
  g_adj (relationship_graph gd) !! (u, v) = Some d →
  d !! "sequence" = None
  ∧ ∃ r, r ∈ relationships gd ∧ joins r u v ∧ is_entity gd u ∧ is_entity gd v.
Proof.
  intros Hd. apply fold_relationships_edges in Hd.
  destruct (node_graph_spec gd) as (Hempty & _ & Hnodes).
  rewrite Hempty, lookup_empty in Hd.
  destruct Hd as [?|(r & Hr & Hj & Hu & Hv & Hseq)]; [done|].
  split; [by apply Hseq|]. exists r. split; [done|]. split; [done|].
  split; by apply Hnodes, has_node_true.
Qed.

(** ** Graphs of parsed scripts

    Identifiers of units, concepts and paths start with different letters,
    so the three passes that add edges never write the same edge. *)

Lemma parsed_Some s :
  is_Some (parse_cypher_file s) → parse_cypher_file s = Some (parsed s).
Proof. unfold parsed. by intros [gd ->]. Qed.

Lemma parsed_None s : parse_cypher_file s = None → parsed s = empty_model.
Proof. unfold parsed. by intros ->. Qed.

(** The model of a script is the model of a script whose parse returns:
    of the script itself, or of the empty script if parsing raises. *)
Lemma parsed_source s :
  ∃ s', parse_cypher_file s' = Some (parsed s') ∧ parsed s = parsed s'.
Proof.
  destruct (parse_cypher_file s) as [gd|] eqn:Hs.
  - exists s. split; [|done]. apply parsed_Some. by eexists.
  - exists EmptyString. split; [done|]. by rewrite (parsed_None s Hs).
Qed.

Lemma parsed_ind (P : GraphData → Prop) s :
  (∀ s', parse_cypher_file s' = Some (parsed s') → P (parsed s')) → P (parsed s).
Proof.
  intros HP. destruct (parsed_source s) as (s' & Hs' & ->). by apply HP.
Qed.

(** A model that holds something comes from a parse that returned. *)
Lemma parsed_knowledge_node_Some s k :
  is_Some (knowledge_nodes (parsed s) !! k) → parse_cypher_file s = Some (parsed s).
Proof.
  intros Hk. destruct (parse_cypher_file s) as [gd|] eqn:Hs.
  - unfold parsed. by rewrite Hs.
  - rewrite (parsed_None s Hs) in Hk. simpl in Hk. rewrite lookup_empty in Hk.
    by destruct Hk.
Qed.

Lemma parsed_concept_Some s k :
  is_Some (concepts (parsed s) !! k) → parse_cypher_file s = Some (parsed s).
Proof.
  intros Hk. destruct (parse_cypher_file s) as [gd|] eqn:Hs.
  - unfold parsed. by rewrite Hs.
  - rewrite (parsed_None s Hs) in Hk. simpl in Hk. rewrite lookup_empty in Hk.
    by destruct Hk.
Qed.

Lemma parsed_path_Some s k :
  is_Some (learning_paths (parsed s) !! k) → parse_cypher_file s = Some (parsed s).
Proof.
  intros Hk. destruct (parse_cypher_file s) as [gd|] eqn:Hs.
  - unfold parsed. by rewrite Hs.
  - rewrite (parsed_None s Hs) in Hk. simpl in Hk. rewrite lookup_empty in Hk.
    by destruct Hk.
Qed.

Lemma parsed_relationship_Some s r :
  r ∈ relationships (parsed s) → parse_cypher_file s = Some (parsed s).
Proof.
  intros Hr. destruct (parse_cypher_file s) as [gd|] eqn:Hs.
  - unfold parsed. by rewrite Hs.
  - rewrite (parsed_None s Hs) in Hr. by apply elem_of_nil in Hr.
Qed.

Lemma parsed_relationship_initials s gd r :
  parse_cypher_file s = Some gd → r ∈ relationships gd →
  (initial (r_source r) = Some "N"%char ∧ initial (r_target r) = Some "N"%char)
  ∨ (initial (r_source r) = Some "C"%char ∧ initial (r_target r) = Some "C"%char).
Proof.
  intros (rn & rp & -> & Hrn & Hrp)%parsed_relationships.
  intros [Hr|Hr]%elem_of_app.
  - left. apply list_elem_of_lookup in Hr as [i Hi].
    destruct (Forall2_lookup_r _ _ _ _ _ Hrn Hi) as (g & Hg & strength & -> & _).
    apply list_elem_of_lookup_2 in Hg.
    apply node_relationship_groups in Hg as (?&?&?&?&?&?&[= <- <- _ _ _]&?&?&_).
    done.
  - right. apply list_elem_of_lookup in Hr as [i Hi].
    destruct (Forall2_lookup_r _ _ _ _ _ Hrp Hi) as (g & Hg & -> & _).
    apply list_elem_of_lookup_2 in Hg.
    apply prereq_groups in Hg as (?&?&[= <- <-]&?&?). done.
Qed.

Lemma parsed_sequence_initials s gd k c l x :
  parse_cypher_file s = Some gd → concepts gd !! k = Some c →
  c_sequence c = Some l → x ∈ l → initial x = Some "N"%char.
Proof.
  intros Hparse Hk Hl Hx.
  destruct (parsed_concept _ _ _ _ Hparse Hk) as (_ & Hnil & Hcons).
  destruct (decide (contains_members s k = [])) as [Hd|Hd].
  - destruct (Hnil Hd). congruence.
  - rewrite (Hcons Hd) in Hl. injection Hl as <-.
    eapply contains_members_initial. by rewrite <-(sorted_perm snd).
Qed.

Lemma parsed_conceptSequence_initials s gd k p l x :
  parse_cypher_file s = Some gd → learning_paths gd !! k = Some p →
  p_conceptSequence p = Some l → x ∈ l → initial x = Some "C"%char.
Proof.
  intros Hparse Hk Hl Hx.
  destruct (parsed_path _ _ _ _ Hparse Hk) as (_ & Hnil & Hcons).
  destruct (decide (includes_members s k = [])) as [Hd|Hd].
  - destruct (Hnil Hd). congruence.
  - rewrite (Hcons Hd) in Hl. injection Hl as <-.
    eapply includes_members_initial. by rewrite <-(sorted_perm snd).
Qed.

Lemma parsed_not_path s gd k :
  parse_cypher_file s = Some gd → initial k ≠ Some "P"%char →
  learning_paths gd !! k = None.
Proof.
  intros Hparse Hk. destruct (learning_paths gd !! k) as [p|] eqn:Hp; [|done].
  by destruct (parsed_path _ _ _ _ Hparse Hp) as (? & _).
Qed.

Lemma parsed_not_concept s gd k :
  parse_cypher_file s = Some gd → initial k ≠ Some "C"%char →
  concepts gd !! k = None.
Proof.
  intros Hparse Hk. destruct (concepts gd !! k) as [c|] eqn:Hc; [|done].
  by destruct (parsed_concept _ _ _ _ Hparse Hc) as (? & _).
Qed.

(** Edges that leave a concept. *)
Lemma parsed_concept_edge s gd k c v :
  parse_cypher_file s = Some gd → concepts gd !! k = Some c →
  g_adj (build_networkx_graph gd) !! (k, v) =
    member_edge (build_networkx_graph gd) "CONTAINS" (c_sequence c) v
      (g_adj (relationship_graph gd) !! (k, v)).
Proof.
  intros Hparse Hk. destruct (build_spec gd) as [_ ->].
  destruct (parsed_concept _ _ _ _ Hparse Hk) as (Hinit & _).
  rewrite (parsed_not_path s gd k), Hk by (done || congruence). done.
Qed.

(** Edges that leave a learning path. *)
Lemma parsed_path_edge s gd k p v :
  parse_cypher_file s = Some gd → learning_paths gd !! k = Some p →
  g_adj (build_networkx_graph gd) !! (k, v) =
    member_edge (build_networkx_graph gd) "INCLUDES" (p_conceptSequence p) v
      (g_adj (relationship_graph gd) !! (k, v)).
Proof.
  intros Hparse Hk. destruct (build_spec gd) as [_ ->].
  destruct (parsed_path _ _ _ _ Hparse Hk) as (Hinit & _).
  rewrite (parsed_not_concept s gd k), Hk by (done || congruence). done.
Qed.

(** Edges declared by relationship statements are left alone by the two
    structural passes. *)
Lemma parsed_relationship_edge s gd r :
  parse_cypher_file s = Some gd → r ∈ relationships gd →
  g_adj (build_networkx_graph gd) !! (r_source r, r_target r) =
    g_adj (relationship_graph gd) !! (r_source r, r_target r).
Proof.
  intros Hparse Hr. destruct (build_spec gd) as [_ ->].
  destruct (parsed_relationship_initials _ _ _ Hparse Hr) as [[Hs Ht]|[Hs Ht]].
  - rewrite (parsed_not_path s gd), (parsed_not_concept s gd)
      by (done || congruence). done.
  - rewrite (parsed_not_path s gd) by (done || congruence).
    unfold member_edge at 1. simpl.
    destruct (concepts gd !! r_source r) as [c|] eqn:Hc; [|done].
    unfold member_edge. simpl. destruct (c_sequence c) as [l|] eqn:Hl; [|done].
    simpl. destruct (last_index l (r_target r)) as [i|] eqn:Hi; [|done].
    apply last_index_Some in Hi as [Hi%list_elem_of_lookup_2 _].
    pose proof (parsed_sequence_initials _ _ _ _ _ _ Hparse Hc Hl Hi). congruence.
Qed.

(** ** Where the entries of a model come from *)

Lemma foldM_insert_provenance {V : Type}
    (f : gmap string V → list string → option (gmap string V)) l m :
  (∀ st g st', f st g = Some st' → ∃ k v, head g = Some k ∧ st' = <[k:=v]> st) →
  foldM f l ∅ = Some m →
  ∀ k, is_Some (m !! k) → ∃ g, g ∈ l ∧ head g = Some k.
Proof.
  intros Hf Hloop.
  eapply (foldM_invariant (λ m, ∀ k, is_Some (m !! k) → ∃ g, g ∈ l ∧ head g = Some k));
    [exact Hloop| |].
  - intros k. rewrite lookup_empty. by intros [? ?].
  - intros st g st' Hg IH (k' & v & Hhead & ->)%Hf k.
    destruct (decide (k' = k)) as [->|]; [by eauto|].
    rewrite lookup_insert_ne by done. apply IH.
Qed.

Lemma knowledge_node_step_insert st g st' :
  knowledge_node_step st g = Some st' →
  ∃ k v, head g = Some k ∧ st' = <[k:=v]> st.
Proof.
  unfold knowledge_node_step.
  destruct g as [|k [|? [|? [|? [|m [|? [|? [|? ?]]]]]]]]; try done.
  destruct (py_int m); [|done]. simpl. intros [= <-]. by eexists _, _.
Qed.

Lemma concept_step_insert st g st' :
  concept_step st g = Some st' → ∃ k v, head g = Some k ∧ st' = <[k:=v]> st.
Proof.
  unfold concept_step. destruct g as [|k [|? [|? [|m [|? ?]]]]]; try done.
  destruct (py_int m); [|done]. simpl. intros [= <-]. by eexists _, _.
Qed.

Lemma path_step_insert st g st' :
  path_step st g = Some st' → ∃ k v, head g = Some k ∧ st' = <[k:=v]> st.
Proof.
  unfold path_step. destruct g as [|k [|? [|? [|? [|? [|m [|? ?]]]]]]]; try done.
  destruct (py_int m); [|done]. simpl. intros [= <-]. by eexists _, _.
Qed.

Lemma parsed_declared_by s gd : parse_cypher_file s = Some gd → declared_by s gd.
Proof.
  intros Hparse. pose proof (parsed_relationships _ _ Hparse) as Hrels.
  apply parse_cypher_file_Some in Hparse
    as (kn&cs0&lp0&?&cn&cs1&pc&lp1&?&Hkn&Hcs&Hlp&_&Hc&Hp&_&->).
  simpl in *. repeat split; [| | |done].
  - eapply foldM_insert_provenance; [apply knowledge_node_step_insert|exact Hkn].
  - intros k [c Hk].
    destruct (member_loops_spec c_nodes c_sequence append_node set_sequence
                (λ _ _, eq_refl) (λ _ _, eq_refl) _ _ _ _ _ _
                (λ k c H, proj2 (concepts_fresh s cs0 k c Hcs H)) Hc Hk)
      as (Hk0 & _).
    eapply foldM_insert_provenance; [apply concept_step_insert|exact Hcs|done].
  - intros k [p Hk].
    destruct (member_loops_spec p_concepts p_conceptSequence append_concept
                set_conceptSequence
                (λ _ _, eq_refl) (λ _ _, eq_refl) _ _ _ _ _ _
                (λ k p H, proj2 (paths_fresh s lp0 k p Hlp H)) Hp Hk)
      as (Hk0 & _).
    eapply foldM_insert_provenance; [apply path_step_insert|exact Hlp|done].
Qed.

Lemma steps_never_raise_all s : within_digit_limit s → steps_never_raise s.
Proof.
  intros Hlimit. repeat split; intros st g Hg.
  - destruct (knowledge_node_step_is_Some s st g Hg) as (w & Hw & ->).
    eapply (within_digit_limit_field s 4); [done| |done..]. numeric_group.
  - destruct (concept_step_is_Some s st g Hg) as (w & Hw & ->).
    eapply (within_digit_limit_field s 3 concept_pattern); [done| |done..]. numeric_group.
  - destruct (path_step_is_Some s st g Hg) as (w & Hw & ->).
    eapply (within_digit_limit_field s 5); [done| |done..]. numeric_group.
  - destruct (node_relationship_step_is_Some s st g Hg) as (w & Hw & ->).
    eapply (within_digit_limit_field s 3 node_relationship_pattern);
      [done| |done..]. numeric_group.
  - destruct (concept_node_step_is_Some s st g Hg) as (w & Hw & ->).
    eapply (within_digit_limit_field s 2 concept_node_pattern); [done| |done..].
    numeric_group.
  - destruct (path_concept_step_is_Some s st g Hg) as (w & Hw & ->).
    eapply (within_digit_limit_field s 2 path_concept_pattern); [done| |done..].
    numeric_group.
  - by eapply prereq_step_is_Some.
Qed.

Lemma unrecognised_empty s : unrecognised s → parse_cypher_file s = Some empty_model.
Proof.
  unfold unrecognised, patterns. rewrite !Forall_cons.
  intros (H1 & H2 & H3 & H4 & H5 & H6 & H7 & _).
  unfold parse_cypher_file. by rewrite H1, H2, H3, H4, H5, H6, H7.
Qed.

(** ** Edges as a list *)

Lemma edges_NoDup G : NoDup (edges G).*1.
Proof. apply NoDup_fst_map_to_list. Qed.

Lemma elem_of_edges G u v d : (u, v, d) ∈ edges G ↔ g_adj G !! (u, v) = Some d.
Proof. apply elem_of_map_to_list. Qed.

Lemma filter_key_absent {K V : Type} `{EqDecision K} (l : list (K * V)) k :
  k ∉ l.*1 → filter (λ e, e.1 = k) l = [].
Proof.
  induction l as [|[k' d'] l IH]; simpl; [done|].
  intros [Hne Hl]%not_elem_of_cons.
  rewrite filter_cons_False by (simpl; congruence). by apply IH.
Qed.

Lemma filter_key_NoDup {K V : Type} `{EqDecision K} (l : list (K * V)) k d :
  NoDup l.*1 → (k, d) ∈ l → filter (λ e, e.1 = k) l = [(k, d)].
Proof.
  induction l as [|[k' d'] l IH]; simpl; [by intros _ ?%elem_of_nil|].
  intros [Hk' Hl]%NoDup_cons [[= <- <-]|Hin]%elem_of_cons.
  - rewrite filter_cons_True by done. f_equal. by apply filter_key_absent.
  - rewrite filter_cons_False; [by apply IH|]. simpl. intros ->.
    apply Hk'. apply list_elem_of_fmap. by exists (k, d).
Qed.

(** An edge of the graph is the only edge between its endpoints. *)
Lemma edge_is_single G u v d :
  g_adj G !! (u, v) = Some d → filter (λ e, e.1 = (u, v)) (edges G) = [(u, v, d)].
Proof.
  intros Hd. apply filter_key_NoDup; [apply edges_NoDup|by apply elem_of_edges].
Qed.

(** ** Successors, predecessors and one round of collection *)

Lemma elem_of_successors G n v : v ∈ successors G n ↔ is_edge G n v.
Proof.
  unfold successors, is_edge. rewrite elem_of_map. split.
  - intros ([u w] & -> & [Hu Hd]%elem_of_filter). simpl in *. subst.
    by apply elem_of_dom.
  - intros He. exists (n, v). split; [done|].
    apply elem_of_filter. split; [done|]. by apply elem_of_dom.
Qed.

Lemma elem_of_predecessors G n v : v ∈ predecessors G n ↔ is_edge G v n.
Proof.
  unfold predecessors, is_edge. rewrite elem_of_map. split.
  - intros ([u w] & -> & [Hu Hd]%elem_of_filter). simpl in *. subst.
    by apply elem_of_dom.
  - intros He. exists (v, n). split; [done|].
    apply elem_of_filter. split; [done|]. by apply elem_of_dom.
Qed.

Lemma elem_of_fold_next G (next : DiGraph → string → gset string) l acc v :
  v ∈ fold_left (λ acc n, if has_node G n then acc ∪ next G n else acc) l acc ↔
  v ∈ acc ∨ ∃ n, n ∈ l ∧ has_node G n = true ∧ v ∈ next G n.
Proof.
  revert acc. induction l as [|x l IH]; intros acc; simpl.
  - split; [by left|]. intros [?|(n & ?%elem_of_nil & _)]; done.
  - rewrite IH. destruct (has_node G x) eqn:Hx.
    + rewrite elem_of_union. split.
      * intros [[?|?]|(n & ? & ? & ?)]; [by left| |].
        -- right. exists x. split; [by left|done].
        -- right. exists n. split; [by right|done].
      * intros [?|(n & [->|?]%elem_of_cons & ? & ?)];
          [by left; left|by left; right|].
        right. by exists n.
    + split.
      * intros [?|(n & ? & ? & ?)]; [by left|].
        right. exists n. split; [by right|done].
      * intros [?|(n & [->|?]%elem_of_cons & ? & ?)]; [by left|congruence|].
        right. by exists n.
Qed.

Lemma elem_of_neighbors_round G next node_id X v :
  v ∈ neighbors_round G next node_id X ↔
  v ∈ X ∨ ∃ n, (n ∈ X ∨ n = node_id) ∧ has_node G n = true ∧ v ∈ next G n.
Proof.
  unfold neighbors_round. rewrite elem_of_fold_next.
  split; (intros [?|(n & Hn & ?)]; [by left|right; exists n; split; [|done]]).
  - apply elem_of_app in Hn as [?%elem_of_elements|?%list_elem_of_singleton];
      [by left|by right].
  - apply elem_of_app. destruct Hn as [?| ->]; [left|right].
    + by apply elem_of_elements.
    + by apply list_elem_of_singleton.
Qed.

Lemma neighbors_round_mono G next node_id X Y :
  X ⊆ Y → neighbors_round G next node_id X ⊆ neighbors_round G next node_id Y.
Proof.
  intros HXY v. rewrite !elem_of_neighbors_round.
  intros [?|(n & [?| ->] & ?)]; [left; by apply HXY|right..].
  - exists n. split; [left; by apply HXY|done].
  - exists node_id. split; [by right|done].
Qed.

Lemma neighbors_round_incr G next node_id X :
  X ⊆ neighbors_round G next node_id X.
Proof. intros v Hv. apply elem_of_neighbors_round. by left. Qed.

Lemma iter_round_mono G next node_id n m X Y :
  (n ≤ m)%nat → X ⊆ Y →
  Nat.iter n (neighbors_round G next node_id) X
  ⊆ Nat.iter m (neighbors_round G next node_id) Y.
Proof.
  intros Hnm. revert n Hnm X Y. induction m as [|m IH]; intros n Hnm X Y HXY.
  - by replace n with 0%nat by lia.
  - destruct n as [|n]; simpl.
    + etrans; [|apply neighbors_round_incr]. apply (IH 0%nat); [lia|done].
    + apply neighbors_round_mono, IH; [lia|done].
Qed.

Lemma collect_neighbors_mono G r1 r2 node_id :
  (r1 ≤ r2)%Z → collect_neighbors G r1 node_id ⊆ collect_neighbors G r2 node_id.
Proof.
  intros Hr. unfold collect_neighbors.
  apply iter_round_mono; [lia|]. apply iter_round_mono; [lia|done].
Qed.

(** ** The selected nodes *)

Lemma elem_of_seed_nodes G l v :
  v ∈ seed_nodes G l ↔ v ∈ l ∧ has_node G v = true.
Proof.
  unfold seed_nodes.
  assert (∀ acc : gset string,
    v ∈ fold_left (λ nodes node_id,
                     if has_node G node_id then nodes ∪ {[node_id]} else nodes) l acc
    ↔ v ∈ acc ∨ (v ∈ l ∧ has_node G v = true)) as H.
  { induction l as [|x l IH]; intros acc; simpl.
    - split; [by left|]. intros [?|[?%elem_of_nil _]]; done.
    - rewrite IH, elem_of_cons. destruct (has_node G x) eqn:Hx.
      + rewrite elem_of_union, elem_of_singleton. split.
        * intros [[?| ->]|[? ?]]; [by left|by right; split; [left|]|].
          right. split; [by right|done].
        * intros [?|[[->|?] ?]]; [by left; left|by left; right|by right].
      + split.
        * intros [?|[? ?]]; [by left|]. right. split; [by right|done].
        * intros [?|[[->|?] ?]]; [by left|congruence|by right]. }
  rewrite H. split; [|by right]. intros [?%not_elem_of_empty|?]; done.
Qed.

Lemma elem_of_add_neighborhoods G k X v :
  v ∈ add_neighborhoods G k X ↔
  v ∈ X ∨ ∃ node_id, node_id ∈ X ∧ v ∈ collect_neighbors G k node_id.
Proof.
  unfold add_neighborhoods.
  assert (∀ l (acc : gset string),
    v ∈ fold_left (λ nodes node_id, nodes ∪ collect_neighbors G k node_id) l acc
    ↔ v ∈ acc ∨ ∃ node_id, node_id ∈ l ∧ v ∈ collect_neighbors G k node_id) as H.
  { induction l as [|x l IH]; intros acc; simpl.
    - split; [by left|]. intros [?|(? & ?%elem_of_nil & _)]; done.
    - rewrite IH, elem_of_union. split.
      + intros [[?|?]|(n & ? & ?)]; [by left| |].
        * right. exists x. split; [by left|done].
        * right. exists n. split; [by right|done].
      + intros [?|(n & [->|?]%elem_of_cons & ?)];
          [by left; left|by left; right|].
        right. by exists n. }
  rewrite H. by setoid_rewrite elem_of_elements.
Qed.

Lemma elem_of_add_typed_nodes G filter_types X v :
  v ∈ add_typed_nodes G filter_types X ↔
  v ∈ X ∨ ∃ d, g_node G !! v = Some d ∧ attr_in d "type" filter_types = true.
Proof.
  unfold add_typed_nodes.
  apply (map_fold_weak_ind (λ (r : gset string) m,
    v ∈ r ↔ v ∈ X ∨ ∃ d, m !! v = Some d ∧ attr_in d "type" filter_types = true)).
  - split; [by left|]. intros [?|(d & Hd & _)]; [done|].
    by rewrite lookup_empty in Hd.
  - intros i x m r Hi IH. destruct (attr_in x "type" filter_types) eqn:Hx.
    + rewrite elem_of_union, elem_of_singleton, IH. split.
      * intros [[?|(d & ? & ?)]| ->]; [by left| |].
        -- right. exists d. rewrite lookup_insert_ne; [done|congruence].
        -- right. exists x. by rewrite lookup_insert_eq.
      * intros [?|(d & Hd & ?)]; [by left; left|].
        destruct (decide (i = v)) as [->|]; [by right|].
        rewrite lookup_insert_ne in Hd by done. left. right. by exists d.
    + rewrite IH. split.
      * intros [?|(d & ? & ?)]; [by left|].
        right. exists d. rewrite lookup_insert_ne; [done|congruence].
      * intros [?|(d & Hd & ?)]; [by left|].
        destruct (decide (i = v)) as [->|].
        -- rewrite lookup_insert_eq in Hd. congruence.
        -- rewrite lookup_insert_ne in Hd by done. right. by exists d.
Qed.

(** A larger radius selects at least the same nodes. *)
Lemma nodes_to_include_mono G filter_types filter_node_ids r1 r2 :
  (r1 ≤ r2)%Z →
  nodes_to_include G filter_types filter_node_ids r1
  ⊆ nodes_to_include G filter_types filter_node_ids r2.
Proof.
  intros Hr. unfold nodes_to_include.
  destruct (negb (truthy filter_node_ids) && negb (truthy filter_types)); [done|].
  assert ((if truthy filter_node_ids
           then if (0 <? r1)%Z
                then add_neighborhoods G r1 (seed_nodes G (filter_list filter_node_ids))
                else seed_nodes G (filter_list filter_node_ids)
           else (∅ : gset string))
          ⊆ (if truthy filter_node_ids
             then if (0 <? r2)%Z
                  then add_neighborhoods G r2 (seed_nodes G (filter_list filter_node_ids))
                  else seed_nodes G (filter_list filter_node_ids)
             else ∅)) as Hseeds.
  { destruct (truthy filter_node_ids); [|done].
    destruct (Z.ltb_spec 0 r1), (Z.ltb_spec 0 r2); try lia; try done.
    - intros v. rewrite !elem_of_add_neighborhoods.
      intros [?|(n & ? & ?)]; [by left|]. right. exists n. split; [done|].
      by eapply collect_neighbors_mono.
    - intros v Hv. apply elem_of_add_neighborhoods. by left. }
  destruct (truthy filter_types); [|done].
  intros v. rewrite !elem_of_add_typed_nodes.
  intros [?|?]; [left; by apply Hseeds|by right].
Qed.

Lemma iter_round_nodes G next node_id n (X : gset string) v :
  (∀ a b, b ∈ next G a → is_Some (g_node G !! b)) →
  (∀ x, x ∈ X → is_Some (g_node G !! x)) →
  v ∈ Nat.iter n (neighbors_round G next node_id) X → is_Some (g_node G !! v).
Proof.
  intros Hnext. revert v. induction n as [|n IH]; intros v HX; simpl; [by apply HX|].
  rewrite elem_of_neighbors_round. intros [?|(a & _ & _ & ?)]; [by apply IH|].
  by eapply Hnext.
Qed.

Lemma collect_neighbors_nodes G k node_id v :
  wf_graph G → v ∈ collect_neighbors G k node_id → is_Some (g_node G !! v).
Proof.
  intros Hwf. unfold collect_neighbors. apply iter_round_nodes.
  - intros a b Hb%elem_of_predecessors. by apply Hwf in Hb as [? _].
  - intros x. apply iter_round_nodes; [|by intros ? ?%not_elem_of_empty].
    intros a b Hb%elem_of_successors. by apply Hwf in Hb as [_ ?].
Qed.

(** Only nodes of the graph are selected. *)
Lemma nodes_to_include_nodes G filter_types filter_node_ids k v :
  wf_graph G → v ∈ nodes_to_include G filter_types filter_node_ids k →
  is_Some (g_node G !! v).
Proof.
  intros Hwf. unfold nodes_to_include.
  destruct (negb (truthy filter_node_ids) && negb (truthy filter_types));
    [by intros ?%elem_of_dom|].
  assert (v ∈ (if truthy filter_node_ids
               then if (0 <? k)%Z
                    then add_neighborhoods G k (seed_nodes G (filter_list filter_node_ids))
                    else seed_nodes G (filter_list filter_node_ids)
               else (∅ : gset string)) → is_Some (g_node G !! v)) as Hseeds.
  { destruct (truthy filter_node_ids); [|by intros ?%not_elem_of_empty].
    destruct (0 <? k)%Z.
    - rewrite elem_of_add_neighborhoods.
      intros [[_ ?%has_node_true]%elem_of_seed_nodes|(n & _ & ?)]; [done|].
      by eapply collect_neighbors_nodes.
    - by intros [_ ?%has_node_true]%elem_of_seed_nodes. }
  destruct (truthy filter_types); [|done].
  rewrite elem_of_add_typed_nodes. intros [?|(d & -> & _)]; [by apply Hseeds|done].
Qed.

(** ** The selected subgraph *)

Lemma copy_nodes_spec G l sg :
  (∀ n, n ∈ l → is_Some (g_node G !! n)) →
  g_adj sg = ∅ → (∀ n d, g_node sg !! n = Some d → g_node G !! n = Some d) →
  ∃ sg', foldM (copy_node G) l sg = Some sg'
    ∧ g_adj sg' = ∅
    ∧ (∀ n d, g_node sg' !! n = Some d → g_node G !! n = Some d)
    ∧ ∀ n, is_Some (g_node sg' !! n) ↔ n ∈ l ∨ is_Some (g_node sg !! n).
Proof.
  revert sg. induction l as [|x l IH]; intros sg Hl Hadj Hsub.
  - exists sg. repeat split; try done; [by right|].
    intros [?%elem_of_nil|?]; done.
  - destruct (Hl x) as [dx Hx]; [by left|]. rewrite foldM_cons.
    change (copy_node G sg x) with (add_node sg x <$> g_node G !! x).
    rewrite Hx. simpl.
    destruct (IH (add_node sg x dx)) as (sg' & Hfold & Hadj' & Hsub' & Hdom).
    + intros n Hn. apply Hl. by right.
    + done.
    + intros n d. simpl. destruct (decide (x = n)) as [->|].
      * rewrite lookup_insert_eq. intros [= <-].
        destruct (g_node sg !! n) as [d0|] eqn:Hd0; simpl.
        -- apply Hsub in Hd0. rewrite Hx in Hd0. injection Hd0 as <-.
           by rewrite (idemp_L (∪)).
        -- by rewrite (right_id_L ∅ (∪)).
      * rewrite lookup_insert_ne by done. apply Hsub.
    + exists sg'. repeat split; try done.
      * rewrite Hdom, add_node_is_Some. intros [?|[->|?]];
          [by left; right|by left; left|by right].
      * rewrite Hdom, add_node_is_Some. intros [[->|?]%elem_of_cons|?];
          [by right; left|by left|by right; right].
Qed.

Lemma copy_edges_spec G nodes filter_relationships sg :
  g_adj sg = ∅ → (∀ n, n ∈ nodes → is_Some (g_node sg !! n)) →
  g_node (copy_edges G nodes filter_relationships sg) = g_node sg
  ∧ ∀ u v,
      g_adj (copy_edges G nodes filter_relationships sg) !! (u, v) =
        d ← g_adj G !! (u, v);
        if keeps_edge nodes filter_relationships u v d then Some d else None.
Proof.
  intros Hadj Hnodes. unfold copy_edges.
  apply (map_fold_weak_ind (λ sg' m,
    g_node sg' = g_node sg
    ∧ ∀ u v, g_adj sg' !! (u, v) =
        d ← m !! (u, v);
        if keeps_edge nodes filter_relationships u v d then Some d else None)).
  - split; [done|]. intros u v. by rewrite Hadj, !lookup_empty.
  - intros [a b] d m r Hi [IHn IHa]. simpl.
    assert (keeps_edge nodes filter_relationships a b d =
            bool_decide (a ∈ nodes) && bool_decide (b ∈ nodes)
            && (negb (truthy filter_relationships)
                || attr_in d "relation" (filter_list filter_relationships)))
      as Hkeep by done.
    destruct (bool_decide (a ∈ nodes) && bool_decide (b ∈ nodes)) eqn:Hab;
      simpl in Hkeep.
    + apply andb_true_iff in Hab as [Ha%bool_decide_eq_true Hb%bool_decide_eq_true].
      destruct (negb (truthy filter_relationships)
                || attr_in d "relation" (filter_list filter_relationships)).
      * split.
        -- rewrite add_edge_nodes; [done|..]; apply has_node_true;
             rewrite IHn; by apply Hnodes.
        -- intros u v. simpl. destruct (decide ((a, b) = (u, v))) as [[= <- <-]|Hne].
           ++ rewrite !lookup_insert_eq. simpl. rewrite Hkeep.
              rewrite IHa, Hi. simpl. by rewrite (right_id_L ∅ (∪)).
           ++ by rewrite !lookup_insert_ne, IHa.
      * split; [done|]. intros u v. rewrite IHa.
        destruct (decide ((a, b) = (u, v))) as [[= <- <-]|Hne].
        -- rewrite lookup_insert_eq, Hi. simpl. by rewrite Hkeep.
        -- by rewrite lookup_insert_ne.
    + split; [done|]. intros u v. rewrite IHa.
      destruct (decide ((a, b) = (u, v))) as [[= <- <-]|Hne].
      * rewrite lookup_insert_eq, Hi. simpl. by rewrite Hkeep.
      * by rewrite lookup_insert_ne.
Qed.

(** The subgraph handed to the renderer: its nodes are the selected nodes
    with their dictionaries, its edges are the edges that [keeps_edge]
    keeps. *)
Lemma create_pyvis_graph_spec G filter_types filter_node_ids filter_relationships k :
  wf_graph G →
  let nodes := nodes_to_include G filter_types filter_node_ids k in
  ∃ sg,
    create_pyvis_graph G filter_types filter_node_ids filter_relationships k = Some sg
    ∧ (∀ n, is_Some (g_node sg !! n) ↔ n ∈ nodes)
    ∧ (∀ n d, g_node sg !! n = Some d → g_node G !! n = Some d)
    ∧ ∀ u v,
        g_adj sg !! (u, v) =
          d ← g_adj G !! (u, v);
          if keeps_edge nodes filter_relationships u v d then Some d else None.
Proof.
  intros Hwf nodes. unfold create_pyvis_graph.
  destruct (truthy filter_types || truthy filter_node_ids
            || truthy filter_relationships) eqn:Hfilters.
  - fold nodes.
    destruct (copy_nodes_spec G (elements nodes) empty_graph)
      as (sg0 & -> & Hadj & Hsub & Hdom);
      [|done|by intros ??; simpl; rewrite lookup_empty|].
    { intros n Hn%elem_of_elements. by eapply nodes_to_include_nodes. }
    assert (∀ n, is_Some (g_node sg0 !! n) ↔ n ∈ nodes) as Hdom'.
    { intros n. rewrite Hdom, elem_of_elements. simpl. rewrite lookup_empty.
      split; [|by left]. intros [?|[? ?]]; done. }
    destruct (copy_edges_spec G nodes filter_relationships sg0) as [Hn Ha];
      [done|by intros ??; apply Hdom'|].
    simpl. eexists. split; [done|]. rewrite Hn. done.
  - apply orb_false_iff in Hfilters as [[Ht Hi]%orb_false_iff Hr].
    assert (nodes = dom (g_node G)) as Hnodes.
    { unfold nodes, nodes_to_include. by rewrite Ht, Hi. }
    exists G. split; [done|]. split; [|split; [done|]].
    + intros n. by rewrite Hnodes, elem_of_dom.
    + intros u v. destruct (g_adj G !! (u, v)) as [d|] eqn:Hd; [|done]. simpl.
      unfold keeps_edge. rewrite Hr. destruct (Hwf u v) as [Hu Hv]; [by eauto|].
      rewrite !bool_decide_eq_true_2; [done|rewrite Hnodes; by apply elem_of_dom..].
Qed.

(** ** Undirected distance *)

Lemma within_hops_S G s k v : within_hops G s k v → within_hops G s (S k) v.
Proof.
  induction 1 as [k Hs|k u v _ IH Hadj]; [by apply hops_seed|].
  by eapply hops_step.
Qed.

Lemma elem_of_expand_round G X v :
  v ∈ expand_round G X ↔ v ∈ X ∨ ∃ u, u ∈ X ∧ adjacent G u v.
Proof.
  unfold expand_round, adjacent.
  rewrite elem_of_union, elem_of_set_bind.
  setoid_rewrite elem_of_union. setoid_rewrite elem_of_successors.
  setoid_rewrite elem_of_predecessors. done.
Qed.

(** The rounds of the specification compute the nodes at undirected
    distance at most [k] from a seed. *)
Lemma hop_ball_within G k seeds v :
  v ∈ hop_ball G k seeds ↔ ∃ s, s ∈ seeds ∧ within_hops G s k v.
Proof.
  unfold hop_ball. split.
  - revert v. induction k as [|k IH]; intros v; simpl.
    + intros [Hv Hn]%elem_of_seed_nodes. exists v. split; [done|].
      by apply hops_seed.
    + rewrite elem_of_expand_round. intros [Hv|(u & Hu & Hadj)].
      * destruct (IH _ Hv) as (s & ? & ?). exists s. split; [done|].
        by apply within_hops_S.
      * destruct (IH _ Hu) as (s & ? & ?). exists s. split; [done|].
        by eapply hops_step.
  - intros (s & Hs & Hw). induction Hw as [k Hn|k u v _ IH Hadj].
    + induction k as [|k IH]; simpl.
      * by apply elem_of_seed_nodes.
      * apply elem_of_expand_round. by left.
    + simpl. apply elem_of_expand_round. right. by exists u.
Qed.

(** ** Structural edges of a parsed script *)

Lemma member_edge_present G relation l i v old :
  l !! i = Some v → v ∉ drop (S i) l → has_node G v = true →
  ∃ d, member_edge G relation (Some l) v old = Some d
    ∧ d !! "relation" = Some (AStr relation)
    ∧ d !! "sequence" = Some (AInt (Z.of_nat i + 1)).
Proof.
  intros Hi Hlast Hv. unfold member_edge. simpl.
  rewrite (proj2 (last_index_Some l v i)) by done. rewrite Hv.
  eexists. split; [done|]. split.
  - apply member_attrs_relation.
  - apply member_attrs_sequence.
Qed.

Lemma member_edge_gap G relation l r v w old d :
  l !! r = Some v → has_node G v = false →
  (∀ d0, old = Some d0 → d0 !! "sequence" = None) →
  member_edge G relation (Some l) w old = Some d →
  d !! "sequence" ≠ Some (AInt (Z.of_nat r + 1)).
Proof.
  intros Hr Hv Hold. unfold member_edge. simpl.
  destruct (last_index l w) as [i|] eqn:Hi.
  - destruct (has_node G w) eqn:Hw.
    + intros [= <-]. rewrite member_attrs_sequence. intros [= Heq].
      assert (i = r) as -> by lia.
      apply last_index_Some in Hi as [Hi _]. congruence.
    + intros Hd. by rewrite (Hold _ Hd).
  - intros Hd. by rewrite (Hold _ Hd).
Qed.

Lemma edge_attr_Some G u v d key :
  g_adj G !! (u, v) = Some d → edge_attr G u v key = d !! key.
Proof. unfold edge_attr. by intros ->. Qed.

Lemma relationship_attrs_lookup r (d : gmap string attr) :
  (relationship_attrs r ∪ d) !! "relation" = Some (AStr (r_type r))
  ∧ (relationship_attrs r ∪ d) !! "strength" = Some (AInt (r_strength r))
  ∧ (relationship_attrs r ∪ d) !! "justification" = Some (AStr (r_justification r)).
Proof.
  rewrite !lookup_union. unfold relationship_attrs. repeat split.
  - rewrite lookup_insert_eq. by destruct (d !! "relation").
  - rewrite lookup_insert_ne, lookup_insert_eq by done. by destruct (d !! "strength").
  - rewrite !lookup_insert_ne, lookup_insert_eq by done.
    by destruct (d !! "justification").
Qed.

(** ** Counting occurrences *)






(** * The properties of the specification, C1 to C10 *)

(** C8, as the code has it.  Parsing returns a model exactly when every
    numeric field of a recognised statement has at most 4300 digits, the
    limit of [int] on the text of a number; beyond it [int] raises and
    parsing with it.  Within the limit no loop body raises on a match of its
    pattern (the groups unpack and every numeric group converts).  Whenever
    parsing returns, everything the model holds was declared by a match of
    one of the patterns, and a text in which no pattern matches yields the
    empty model. *)
Theorem parse_cypher_file_raises_exactly_beyond_the_digit_limit
    (cypher_script : string) :
  (is_Some (parse_cypher_file cypher_script) ↔ within_digit_limit cypher_script)
  ∧ (within_digit_limit cypher_script → steps_never_raise cypher_script)
  ∧ (∀ graph_data,
       parse_cypher_file cypher_script = Some graph_data →
       declared_by cypher_script graph_data)
  ∧ (unrecognised cypher_script →
     parse_cypher_file cypher_script = Some empty_model).
Proof.
  split; [apply parse_cypher_file_is_Some|].
  split; [apply steps_never_raise_all|].
  split; [intros gd; apply parsed_declared_by|].
  apply unrecognised_empty.
Qed.

Lemma parse_cypher_file_within_the_digit_limit_witness :
  numeric_fields script_sequence = ["15"; "15"; "15"; "45"; "2"; "0"; "1"]
  ∧ is_Some (parse_cypher_file script_sequence)
  ∧ steps_never_raise script_sequence.
Proof.
  assert (numeric_fields script_sequence = ["15"; "15"; "15"; "45"; "2"; "0"; "1"])
    as Hfields by (vm_compute; reflexivity).
  assert (within_digit_limit script_sequence) as Hlimit.
  { unfold within_digit_limit. rewrite Hfields.
    unfold int_max_str_digits. repeat constructor; simpl; lia. }
  split; [exact Hfields|].
  destruct (parse_cypher_file_raises_exactly_beyond_the_digit_limit script_sequence)
    as (Hsome & Hsteps & _).
  split; [exact (proj2 Hsome Hlimit)|exact (Hsteps Hlimit)].
Defined.

(** C8 fails as stated: a concept statement whose minutes are a number of
    4301 digits is recognised, and parsing raises on it. *)
Lemma long_number_raises :
  (finditer concept_pattern script_long_number
   = [["CONCEPT-1"; "Topic"; "About"; ones (S int_max_str_digits)]])
  ∧ parse_cypher_file script_long_number = None.
Proof. split; vm_compute; reflexivity. Qed.

(** C3, as the code has it.  A parsed concept for which no
    concept-contains-unit statement was recognised has no [sequence] key at
    all (the key is absent from the concept and from the dictionary the graph
    builder copies); its [nodes] list is the empty list. *)
Theorem concept_without_members_has_no_sequence
    (cypher_script : string) (graph_data : GraphData) (concept_id : string)
    (c : Concept) :
  parse_cypher_file cypher_script = Some graph_data →
  concepts graph_data !! concept_id = Some c →
  contains_members cypher_script concept_id = [] →
  c_sequence c = None ∧ concept_dict c !! "sequence" = None ∧ c_nodes c = [].
Proof.
  intros Hparse Hc Hnone.
  destruct (parsed_concept _ _ _ _ Hparse Hc) as (_ & Hnil & _).
  destruct (Hnil Hnone) as [Hseq Hnodes]. split; [done|]. split; [|done].
  unfold concept_dict. rewrite Hseq. simpl.
  by rewrite !lookup_insert_ne, lookup_empty.
Qed.

Lemma concept_without_members_witness :
  parse_cypher_file script_lonely_concept = Some (parsed script_lonely_concept)
  ∧ concepts (parsed script_lonely_concept) !! "CONCEPT-1" = Some (concept_1 [] None)
  ∧ contains_members script_lonely_concept "CONCEPT-1" = []
  ∧ c_sequence (concept_1 [] None) = None
  ∧ concept_dict (concept_1 [] None) !! "sequence" = None
  ∧ c_nodes (concept_1 [] None) = [].
Proof.
  assert (parse_cypher_file script_lonely_concept
          = Some (parsed script_lonely_concept)) as H1 by (vm_compute; reflexivity).
  assert (concepts (parsed script_lonely_concept) !! "CONCEPT-1"
          = Some (concept_1 [] None)) as H2 by (vm_compute; reflexivity).
  assert (contains_members script_lonely_concept "CONCEPT-1" = []) as H3
    by (vm_compute; reflexivity).
  split; [exact H1|]. split; [exact H2|]. split; [exact H3|].
  exact (concept_without_members_has_no_sequence _ _ _ _ H1 H2 H3).
Defined.

(** C3 as stated fails: the concept of a script that holds one concept and
    no containment statement is parsed, yet its sequence is not the empty
    list; the field is absent. *)
Lemma lonely_concept_sequence_is_absent :
  ¬ (∀ cypher_script graph_data concept_id c,
       parse_cypher_file cypher_script = Some graph_data →
       concepts graph_data !! concept_id = Some c →
       contains_members cypher_script concept_id = [] →
       c_sequence c = Some []).
Proof.
  intros H.
  specialize (H script_lonely_concept (parsed script_lonely_concept)
                "CONCEPT-1" (concept_1 [] None)).
  discriminate H; vm_compute; reflexivity.
Qed.

(** C4. For every parsed concept with recorded containment statements, the
    derived sequence lists the member ids of a rearrangement [l] of the
    recorded (member, sequence number) pairs that is ascending in the
    sequence number and keeps pairs with equal numbers in statement order;
    and the CONTAINS edge towards a member that is a node carries the
    1-based rank of the member in that order.  For CONCEPT-1 with N3
    (sequence 2), N1 (sequence 0), N2 (sequence 1) the sequence is
    N1, N2, N3 and the edges carry 1, 2, 3. *)
Theorem sequence_is_stable_sort_and_positions_are_ranks :
  (∀ cypher_script graph_data concept_id c,
     parse_cypher_file cypher_script = Some graph_data →
     concepts graph_data !! concept_id = Some c →
     contains_members cypher_script concept_id ≠ [] →
     let G := build_networkx_graph graph_data in
     ∃ l,
       c_sequence c = Some l.*1
       ∧ l ≡ₚ contains_members cypher_script concept_id
       ∧ Sorted (λ a b, (a.2 ≤ b.2)%Z) l
       ∧ (∀ n, filter (λ a, a.2 = n) l
               = filter (λ a, a.2 = n) (contains_members cypher_script concept_id))
       ∧ ∀ i node_id,
           l.*1 !! i = Some node_id → node_id ∉ drop (S i) l.*1 →
           has_node G node_id = true →
           edge_attr G concept_id node_id "relation" = Some (AStr "CONTAINS")
           ∧ edge_attr G concept_id node_id "sequence" = Some (AInt (Z.of_nat i + 1)))
  ∧ (let G := graph_of script_sequence in
     contains_members script_sequence "CONCEPT-1" = [("N3", 2%Z); ("N1", 0%Z); ("N2", 1%Z)]
     ∧ c_sequence <$> concepts (parsed script_sequence) !! "CONCEPT-1"
       = Some (Some ["N1"; "N2"; "N3"])
     ∧ edge_attr G "CONCEPT-1" "N1" "sequence" = Some (AInt 1)
     ∧ edge_attr G "CONCEPT-1" "N2" "sequence" = Some (AInt 2)
     ∧ edge_attr G "CONCEPT-1" "N3" "sequence" = Some (AInt 3)).
Proof.
  split; [|cbv zeta; repeat split; vm_compute; reflexivity].
  intros s gd cid c Hparse Hc Hsome G.
  destruct (parsed_concept _ _ _ _ Hparse Hc) as (_ & _ & Hcons).
  exists (sorted snd (contains_members s cid)).
  split; [by apply Hcons|]. split; [apply sorted_perm|].
  split; [apply sorted_Sorted|]. split; [intros n; apply (sorted_stable snd)|].
  intros i v Hi Hlast Hv.
  destruct (member_edge_present G "CONTAINS" _ i v
              (g_adj (relationship_graph gd) !! (cid, v)) Hi Hlast Hv)
    as (d & Hd & Hrel & Hseq).
  rewrite <-(Hcons Hsome) in Hd.
  rewrite <-(parsed_concept_edge _ _ _ _ _ Hparse Hc) in Hd.
  by rewrite !(edge_attr_Some _ _ _ d).
Qed.

Lemma sequence_witness :
  parse_cypher_file script_sequence = Some (parsed script_sequence)
  ∧ concepts (parsed script_sequence) !! "CONCEPT-1"
    = Some (concept_1 ["N3"; "N1"; "N2"] (Some ["N1"; "N2"; "N3"]))
  ∧ contains_members script_sequence "CONCEPT-1" ≠ []
  ∧ ∃ l, Some ["N1"; "N2"; "N3"] = Some l.*1
         ∧ l ≡ₚ contains_members script_sequence "CONCEPT-1"
         ∧ Sorted (λ a b, (a.2 ≤ b.2)%Z) l.
Proof.
  assert (parse_cypher_file script_sequence = Some (parsed script_sequence)) as H1
    by (vm_compute; reflexivity).
  assert (concepts (parsed script_sequence) !! "CONCEPT-1"
          = Some (concept_1 ["N3"; "N1"; "N2"] (Some ["N1"; "N2"; "N3"]))) as H2
    by (vm_compute; reflexivity).
  assert (contains_members script_sequence "CONCEPT-1" ≠ []) as H3
    by (vm_compute; discriminate).
  split; [exact H1|]. split; [exact H2|]. split; [exact H3|].
  destruct (proj1 sequence_is_stable_sort_and_positions_are_ranks _ _ _ _ H1 H2 H3)
    as (l & Hl & Hperm & Hsorted & _).
  exists l. split; [exact Hl|]. split; [exact Hperm|exact Hsorted].
Defined.




(** C10. In the graph of a parsed script the position of a CONTAINS (or
    INCLUDES) edge is the 1-based rank of the member in the full derived
    sequence, members that are not nodes included; such members get no
    edge, and no edge of the concept (or path) carries their rank: the
    positions of the surviving edges skip it.  For CONCEPT-1 with N1,
    N2, N3 where N2 is never created, the edges carry 1 and 3; likewise for
    PATH-1 with CONCEPT-1, CONCEPT-2, CONCEPT-3 where CONCEPT-2 is never
    created. *)
Theorem positions_count_missing_members :
  (∀ cypher_script graph_data,
     parse_cypher_file cypher_script = Some graph_data →
     let G := build_networkx_graph graph_data in
     (∀ concept_id c l,
        concepts graph_data !! concept_id = Some c → c_sequence c = Some l →
        (∀ r v, l !! r = Some v → v ∉ drop (S r) l → has_node G v = true →
           edge_attr G concept_id v "relation" = Some (AStr "CONTAINS")
           ∧ edge_attr G concept_id v "sequence" = Some (AInt (Z.of_nat r + 1)))
        ∧ (∀ r v, l !! r = Some v → has_node G v = false →
             g_adj G !! (concept_id, v) = None
             ∧ ∀ w, edge_attr G concept_id w "sequence" ≠ Some (AInt (Z.of_nat r + 1))))
     ∧ (∀ path_id p l,
          learning_paths graph_data !! path_id = Some p →
          p_conceptSequence p = Some l →
          (∀ r v, l !! r = Some v → v ∉ drop (S r) l → has_node G v = true →
             edge_attr G path_id v "relation" = Some (AStr "INCLUDES")
             ∧ edge_attr G path_id v "sequence" = Some (AInt (Z.of_nat r + 1)))
          ∧ (∀ r v, l !! r = Some v → has_node G v = false →
               g_adj G !! (path_id, v) = None
               ∧ ∀ w, edge_attr G path_id w "sequence" ≠ Some (AInt (Z.of_nat r + 1)))))
  ∧ (let G := graph_of script_missing_unit in
     c_sequence <$> concepts (parsed script_missing_unit) !! "CONCEPT-1"
       = Some (Some ["N1"; "N2"; "N3"])
     ∧ edge_attr G "CONCEPT-1" "N1" "sequence" = Some (AInt 1)
     ∧ g_adj G !! ("CONCEPT-1", "N2") = None
     ∧ edge_attr G "CONCEPT-1" "N3" "sequence" = Some (AInt 3)
     ∧ size (g_adj G) = 2%nat)
  ∧ (let G := graph_of script_missing_concept in
     p_conceptSequence <$> learning_paths (parsed script_missing_concept) !! "PATH-1"
       = Some (Some ["CONCEPT-1"; "CONCEPT-2"; "CONCEPT-3"])
     ∧ edge_attr G "PATH-1" "CONCEPT-1" "sequence" = Some (AInt 1)
     ∧ g_adj G !! ("PATH-1", "CONCEPT-2") = None
     ∧ edge_attr G "PATH-1" "CONCEPT-3" "sequence" = Some (AInt 3)
     ∧ size (g_adj G) = 2%nat).
Proof.
  split; [|cbv zeta; repeat split; vm_compute; reflexivity].
  intros s gd Hparse G.
  assert (∀ u v d0, g_adj (relationship_graph gd) !! (u, v) = Some d0 →
                    d0 !! "sequence" = None) as Hrel.
  { intros u v d0 Hd0. by apply relationship_graph_edge in Hd0 as [? _]. }
  assert (∀ u v, has_node G v = false → g_adj G !! (u, v) = None) as Habsent.
  { intros u v Hv. destruct (g_adj G !! (u, v)) as [d|] eqn:Hd; [|done].
    destruct (build_wf gd u v) as [_ Hv']; [by eauto|].
    apply has_node_true in Hv'. unfold G in Hv. congruence. }
  split.
  - intros cid c l Hc Hl. split.
    + intros r v Hr Hlast Hv.
      destruct (member_edge_present G "CONTAINS" l r v
                  (g_adj (relationship_graph gd) !! (cid, v)) Hr Hlast Hv)
        as (d & Hd & Hrelation & Hseq).
      rewrite <-Hl, <-(parsed_concept_edge _ _ _ _ _ Hparse Hc) in Hd.
      by rewrite !(edge_attr_Some _ _ _ d).
    + intros r v Hr Hv. split; [by apply Habsent|]. intros w.
      unfold edge_attr. rewrite (parsed_concept_edge _ _ _ _ _ Hparse Hc), Hl.
      destruct (member_edge _ _ _ _ _) as [d|] eqn:Hd; [|done]. simpl.
      eapply member_edge_gap; [exact Hr|exact Hv| |exact Hd]. apply Hrel.
  - intros pid p l Hp Hl. split.
    + intros r v Hr Hlast Hv.
      destruct (member_edge_present G "INCLUDES" l r v
                  (g_adj (relationship_graph gd) !! (pid, v)) Hr Hlast Hv)
        as (d & Hd & Hrelation & Hseq).
      rewrite <-Hl, <-(parsed_path_edge _ _ _ _ _ Hparse Hp) in Hd.
      by rewrite !(edge_attr_Some _ _ _ d).
    + intros r v Hr Hv. split; [by apply Habsent|]. intros w.
      unfold edge_attr. rewrite (parsed_path_edge _ _ _ _ _ Hparse Hp), Hl.
      destruct (member_edge _ _ _ _ _) as [d|] eqn:Hd; [|done]. simpl.
      eapply member_edge_gap; [exact Hr|exact Hv| |exact Hd]. apply Hrel.
Qed.

Lemma positions_count_missing_members_witness :
  parse_cypher_file script_missing_unit = Some (parsed script_missing_unit)
  ∧ concepts (parsed script_missing_unit) !! "CONCEPT-1"
    = Some (concept_1 ["N1"; "N2"; "N3"] (Some ["N1"; "N2"; "N3"]))
  ∧ has_node (build_networkx_graph (parsed script_missing_unit)) "N2" = false
  ∧ has_node (build_networkx_graph (parsed script_missing_unit)) "N3" = true
  ∧ g_adj (build_networkx_graph (parsed script_missing_unit)) !! ("CONCEPT-1", "N2")
    = None
  ∧ edge_attr (build_networkx_graph (parsed script_missing_unit)) "CONCEPT-1" "N3"
      "sequence" = Some (AInt (Z.of_nat 2 + 1)).
Proof.
  assert (parse_cypher_file script_missing_unit = Some (parsed script_missing_unit))
    as H1 by (vm_compute; reflexivity).
  assert (concepts (parsed script_missing_unit) !! "CONCEPT-1"
          = Some (concept_1 ["N1"; "N2"; "N3"] (Some ["N1"; "N2"; "N3"]))) as H2
    by (vm_compute; reflexivity).
  assert (has_node (build_networkx_graph (parsed script_missing_unit)) "N2" = false)
    as H3 by (vm_compute; reflexivity).
  assert (has_node (build_networkx_graph (parsed script_missing_unit)) "N3" = true)
    as H4 by (vm_compute; reflexivity).
  do 4 (split; [assumption|]).
  destruct (proj1 positions_count_missing_members _ _ H1) as [Hconcepts _].
  destruct (Hconcepts "CONCEPT-1" _ ["N1"; "N2"; "N3"] H2 eq_refl)
    as [Hpresent Habsent].
  split.
  - exact (proj1 (Habsent 1%nat "N2" eq_refl H3)).
  - refine (proj2 (Hpresent 2%nat "N3" eq_refl _ H4)).
    simpl. apply not_elem_of_nil.
Defined.

(** C5. Every edge of a built graph joins two nodes, so a relationship
    whose source or target is not a node leaves no edge (building never
    raises: it is a total function); the raw relationship list of a parsed
    model nevertheless holds one entry per relationship statement of the
    script, whatever its endpoints.  A script with one unit and one
    relationship towards an unknown unit gives one raw relationship and no
    edge. *)
Theorem dangling_relationship_is_dropped_not_forgotten :
  (∀ graph_data,
     let G := build_networkx_graph graph_data in
     (∀ u v, is_edge G u v → has_node G u = true ∧ has_node G v = true)
     ∧ (∀ r, r ∈ relationships graph_data →
             has_node G (r_source r) = false ∨ has_node G (r_target r) = false →
             ¬ is_edge G (r_source r) (r_target r)))
  ∧ (∀ cypher_script graph_data,
       parse_cypher_file cypher_script = Some graph_data →
       ∃ rn rp,
         relationships graph_data = rn ++ rp
         ∧ Forall2 declares_relationship
             (finditer node_relationship_pattern cypher_script) rn
         ∧ Forall2 declares_prerequisite (finditer prereq_pattern cypher_script) rp)
  ∧ (let graph_data := parsed script_dangling in
     parse_cypher_file script_dangling = Some graph_data
     ∧ length (finditer node_relationship_pattern script_dangling) = 1%nat
     ∧ (λ r, (r_source r, r_target r)) <$> relationships graph_data = [("N1", "N9")]
     ∧ g_adj (build_networkx_graph graph_data) = ∅
     ∧ dom (g_node (build_networkx_graph graph_data)) = {["N1"]}).
Proof.
  split; [|split; [apply parsed_relationships|]].
  - intros gd G.
    assert (∀ u v, is_edge G u v → has_node G u = true ∧ has_node G v = true) as Hwf.
    { intros u v Huv. destruct (build_wf gd u v Huv).
      split; by apply has_node_true. }
    split; [done|]. intros r _ Hmissing Hedge.
    destruct (Hwf _ _ Hedge). destruct Hmissing; congruence.
  - cbv zeta. repeat split; vm_compute; reflexivity.
Qed.

Lemma dangling_relationship_witness :
  parse_cypher_file script_dangling = Some (parsed script_dangling)
  ∧ sample_relationship "N1" "N9" "REQUIRES" 5 ∈ relationships (parsed script_dangling)
  ∧ has_node (build_networkx_graph (parsed script_dangling)) "N9" = false
  ∧ ¬ is_edge (build_networkx_graph (parsed script_dangling)) "N1" "N9"
  ∧ ∃ rn rp, relationships (parsed script_dangling) = rn ++ rp
      ∧ Forall2 declares_relationship
          (finditer node_relationship_pattern script_dangling) rn
      ∧ Forall2 declares_prerequisite (finditer prereq_pattern script_dangling) rp.
Proof.
  assert (parse_cypher_file script_dangling = Some (parsed script_dangling)) as H1
    by (vm_compute; reflexivity).
  assert (relationships (parsed script_dangling)
          = [sample_relationship "N1" "N9" "REQUIRES" 5]) as Hrels
    by (vm_compute; reflexivity).
  assert (sample_relationship "N1" "N9" "REQUIRES" 5
          ∈ relationships (parsed script_dangling)) as H2
    by (rewrite Hrels; left).
  assert (has_node (build_networkx_graph (parsed script_dangling)) "N9" = false)
    as H3 by (vm_compute; reflexivity).
  split; [exact H1|]. split; [exact H2|]. split; [exact H3|]. split.
  - exact (proj2 (proj1 dangling_relationship_is_dropped_not_forgotten
                    (parsed script_dangling)) _ H2 (or_intror H3)).
  - exact (proj1 (proj2 dangling_relationship_is_dropped_not_forgotten) _ _ H1).
Defined.

(** C2, as the code has it.  In the graph of a parsed script there is at most
    one edge for every (source, target) pair, whatever the relation kind,
    hence at most one for every (source, target, kind) triple; and between
    two nodes joined by relationships, that one edge carries the kind, the
    strength and the justification of the last of them: a relationship
    added later replaces the kind of the edge the earlier one had made. *)
Theorem one_edge_per_pair_last_relationship_wins
    (cypher_script : string) (graph_data : GraphData)
    (rs1 rs2 : list Relationship) (r : Relationship) :
  parse_cypher_file cypher_script = Some graph_data →
  relationships graph_data = rs1 ++ r :: rs2 →
  Forall (λ r', ¬ joins r' (r_source r) (r_target r)) rs2 →
  is_entity graph_data (r_source r) → is_entity graph_data (r_target r) →
  let G := build_networkx_graph graph_data in
  NoDup (edges G).*1
  ∧ ∃ d,
      filter (λ e, e.1 = (r_source r, r_target r)) (edges G)
        = [(r_source r, r_target r, d)]
      ∧ d !! "relation" = Some (AStr (r_type r))
      ∧ d !! "strength" = Some (AInt (r_strength r))
      ∧ d !! "justification" = Some (AStr (r_justification r)).
Proof.
  intros Hparse Hrels Hlast Hs Ht G. split; [apply edges_NoDup|].
  assert (r ∈ relationships graph_data) as Hr.
  { rewrite Hrels. apply elem_of_app. right. by left. }
  pose proof (parsed_relationship_edge _ _ _ Hparse Hr) as Hedge.
  destruct (node_graph_spec graph_data) as (_ & _ & Hnodes).
  destruct (fold_relationships_last rs1 r rs2 (node_graph graph_data))
    as [d0 Hd0]; [by apply has_node_true, Hnodes..|done|].
  unfold relationship_graph, add_relationships in Hedge.
  rewrite Hrels, Hd0 in Hedge.
  exists (relationship_attrs r ∪ d0). split; [by apply edge_is_single|].
  apply relationship_attrs_lookup.
Qed.

Lemma one_edge_per_pair_witness :
  parse_cypher_file script_two_kinds = Some (parsed script_two_kinds)
  ∧ relationships (parsed script_two_kinds)
    = [sample_relationship "N1" "N2" "LEADS_TO" 3]
        ++ sample_relationship "N1" "N2" "REQUIRES" 5 :: []
  ∧ is_entity (parsed script_two_kinds) "N1"
  ∧ is_entity (parsed script_two_kinds) "N2"
  ∧ ∃ d, filter (λ e, e.1 = ("N1", "N2"))
           (edges (build_networkx_graph (parsed script_two_kinds)))
         = [("N1", "N2", d)]
       ∧ d !! "relation" = Some (AStr "REQUIRES").
Proof.
  assert (parse_cypher_file script_two_kinds = Some (parsed script_two_kinds)) as H1
    by (vm_compute; reflexivity).
  assert (relationships (parsed script_two_kinds)
          = [sample_relationship "N1" "N2" "LEADS_TO" 3]
              ++ sample_relationship "N1" "N2" "REQUIRES" 5 :: []) as H2
    by (vm_compute; reflexivity).
  assert (is_entity (parsed script_two_kinds) "N1") as H3
    by (left; vm_compute; eexists; reflexivity).
  assert (is_entity (parsed script_two_kinds) "N2") as H4
    by (left; vm_compute; eexists; reflexivity).
  do 4 (split; [assumption|]).
  destruct (one_edge_per_pair_last_relationship_wins _ _ _ _ _ H1 H2
              (Forall_nil_2 _) H3 H4) as (_ & d & Hd & Hkind & _).
  exists d. split; [exact Hd|exact Hkind].
Defined.

(** C2 as stated fails: a script declares two units and, between them, a
    LEADS_TO and then a REQUIRES relationship; both are in the raw list and
    both endpoints are nodes, yet the graph has a single edge, of kind
    REQUIRES, and no edge of kind LEADS_TO. *)
Lemma later_kind_replaces_earlier_kind :
  let graph_data := parsed script_two_kinds in
  let G := build_networkx_graph graph_data in
  parse_cypher_file script_two_kinds = Some graph_data
  ∧ relationships graph_data
    = [sample_relationship "N1" "N2" "LEADS_TO" 3;
       sample_relationship "N1" "N2" "REQUIRES" 5]
  ∧ has_node G "N1" = true ∧ has_node G "N2" = true
  ∧ has_edge_kind G "N1" "N2" "REQUIRES"
  ∧ ¬ has_edge_kind G "N1" "N2" "LEADS_TO"
  ∧ length (edges G) = 1%nat.
Proof.
  cbv zeta.
  assert (g_adj (build_networkx_graph (parsed script_two_kinds)) !! ("N1", "N2")
          = Some (relationship_attrs (sample_relationship "N1" "N2" "REQUIRES" 5)))
    as Hedge by (vm_compute; reflexivity).
  repeat split; try (vm_compute; reflexivity).
  - eexists. split; [by apply elem_of_edges|]. vm_compute. reflexivity.
  - intros (d & Hd%elem_of_edges & Hkind). rewrite Hedge in Hd.
    injection Hd as <-. vm_compute in Hkind. discriminate.
Qed.

Lemma attr_in_true (d : gmap string attr) key values :
  attr_in d key values = true ↔ ∃ s, d !! key = Some (AStr s) ∧ s ∈ values.
Proof.
  unfold attr_in. destruct (d !! key) as [[s|n|l]|]; split;
    try (by intros (? & ? & ?)); try done.
  - intros ?%bool_decide_eq_true. by exists s.
  - intros (s' & [= <-] & ?). by apply bool_decide_eq_true.
Qed.

(** C6. For every graph, every seed list and type filter, and all hop radii
    0 <= r1 <= r2, the selections with radius r1 and with radius r2 both
    return a subgraph, and the nodes of the first are nodes of the second. *)
Theorem selection_grows_with_radius
    (G : DiGraph) (filter_types filter_node_ids filter_relationships : option (list string))
    (r1 r2 : Z) :
  wf_graph G → (0 ≤ r1 ≤ r2)%Z →
  ∃ sg1 sg2,
    create_pyvis_graph G filter_types filter_node_ids filter_relationships r1 = Some sg1
    ∧ create_pyvis_graph G filter_types filter_node_ids filter_relationships r2 = Some sg2
    ∧ dom (g_node sg1) ⊆ dom (g_node sg2).
Proof.
  intros Hwf Hr.
  destruct (create_pyvis_graph_spec G filter_types filter_node_ids
              filter_relationships r1 Hwf) as (sg1 & H1 & Hn1 & _).
  destruct (create_pyvis_graph_spec G filter_types filter_node_ids
              filter_relationships r2 Hwf) as (sg2 & H2 & Hn2 & _).
  exists sg1, sg2. split; [done|]. split; [done|].
  intros n. rewrite !elem_of_dom, Hn1, Hn2.
  apply nodes_to_include_mono. lia.
Qed.

Lemma selection_grows_with_radius_witness :
  wf_graph (graph_of script_siblings) ∧ (0 ≤ 1 ≤ 2)%Z
  ∧ ∃ sg1 sg2,
      create_pyvis_graph (graph_of script_siblings) None (Some ["CONCEPT-1"]) None 1
        = Some sg1
      ∧ create_pyvis_graph (graph_of script_siblings) None (Some ["CONCEPT-1"]) None 2
        = Some sg2
      ∧ dom (g_node sg1) ⊆ dom (g_node sg2).
Proof.
  assert (wf_graph (graph_of script_siblings)) as H1 by apply build_wf.
  assert (0 ≤ 1 ≤ 2)%Z as H2 by lia.
  split; [exact H1|]. split; [exact H2|].
  exact (selection_grows_with_radius _ None (Some ["CONCEPT-1"]) None 1 2 H1 H2).
Defined.

(** C7. For every graph, selecting with the type filter [KnowledgeNode]
    alone (no seeds, no relation filter) yields a subgraph whose nodes are
    exactly the nodes of type KnowledgeNode and whose edges are exactly the
    edges of the graph between two of them, with their dictionaries.  In
    every selection an edge is kept if and only if both endpoints are
    selected and either no relation filter is given (it is [None] or empty,
    which the code does not tell apart) or the relation kind of the edge is
    in the filter. *)
Theorem type_filter_induces_subgraph_and_edge_rule (G : DiGraph) :
  wf_graph G →
  (∀ k, ∃ sg,
     create_pyvis_graph G (Some ["KnowledgeNode"]) None None k = Some sg
     ∧ (∀ n, is_Some (g_node sg !! n) ↔
             ∃ d, g_node G !! n = Some d ∧ d !! "type" = Some (AStr "KnowledgeNode"))
     ∧ (∀ u v d, g_adj sg !! (u, v) = Some d ↔
                 g_adj G !! (u, v) = Some d
                 ∧ is_Some (g_node sg !! u) ∧ is_Some (g_node sg !! v)))
  ∧ (∀ filter_types filter_node_ids filter_relationships k sg,
       create_pyvis_graph G filter_types filter_node_ids filter_relationships k = Some sg →
       ∀ u v d, g_adj sg !! (u, v) = Some d ↔
                g_adj G !! (u, v) = Some d
                ∧ is_Some (g_node sg !! u) ∧ is_Some (g_node sg !! v)
                ∧ (truthy filter_relationships = false
                   ∨ ∃ kind, d !! "relation" = Some (AStr kind)
                             ∧ kind ∈ filter_list filter_relationships)).
Proof.
  intros Hwf.
  assert (∀ filter_types filter_node_ids filter_relationships k sg,
       create_pyvis_graph G filter_types filter_node_ids filter_relationships k = Some sg →
       ∀ u v d, g_adj sg !! (u, v) = Some d ↔
                g_adj G !! (u, v) = Some d
                ∧ is_Some (g_node sg !! u) ∧ is_Some (g_node sg !! v)
                ∧ (truthy filter_relationships = false
                   ∨ ∃ kind, d !! "relation" = Some (AStr kind)
                             ∧ kind ∈ filter_list filter_relationships)) as Hrule.
  { intros ft fn fr k sg Hsg u v d.
    destruct (create_pyvis_graph_spec G ft fn fr k Hwf) as (sg' & Hsg' & Hn & _ & Ha).
    rewrite Hsg in Hsg'. injection Hsg' as <-. rewrite Ha, !Hn.
    destruct (g_adj G !! (u, v)) as [d'|]; simpl; [|by split; [|intros [? _]]].
    unfold keeps_edge. rewrite <-attr_in_true. split.
    - destruct (bool_decide _) eqn:Hu; [|done].
      destruct (bool_decide _) eqn:Hv in |- *; [|done]. simpl.
      apply bool_decide_eq_true in Hu, Hv.
      destruct (truthy fr); simpl.
      + destruct (attr_in d' _ _) eqn:Hd; [|done]. intros [= <-]. eauto.
      + intros [= <-]. eauto.
    - intros ([= ->] & Hu & Hv & Hfr).
      rewrite !bool_decide_eq_true_2 by done. simpl.
      destruct Hfr as [-> | ->]; [done|]. by rewrite orb_true_r. }
  split; [|exact Hrule]. intros k.
  destruct (create_pyvis_graph_spec G (Some ["KnowledgeNode"]) None None k Hwf)
    as (sg & Hsg & Hn & _ & _).
  exists sg. split; [done|]. split.
  - intros n. rewrite Hn. unfold nodes_to_include. simpl.
    rewrite elem_of_add_typed_nodes. setoid_rewrite attr_in_true. split.
    + intros [?%not_elem_of_empty|(d & Hd & s & Hs & ->%list_elem_of_singleton)];
        [done|]. by exists d.
    + intros (d & Hd & Ht). right. exists d. split; [done|].
      exists "KnowledgeNode". split; [done|]. by left.
  - intros u v d. rewrite (Hrule _ _ _ _ _ Hsg). split.
    + by intros (? & ? & ? & _).
    + intros (? & ? & ?). repeat split; try done. by left.
Qed.

Lemma type_filter_witness :
  wf_graph (graph_of script_two_kinds)
  ∧ create_pyvis_graph (graph_of script_two_kinds) (Some ["KnowledgeNode"]) None
      (Some ["REQUIRES"]) 0 = Some (graph_of script_two_kinds)
  ∧ g_adj (graph_of script_two_kinds) !! ("N1", "N2")
    = Some (relationship_attrs (sample_relationship "N1" "N2" "REQUIRES" 5))
  ∧ (truthy (Some ["REQUIRES"]) = false
     ∨ ∃ kind,
         relationship_attrs (sample_relationship "N1" "N2" "REQUIRES" 5) !! "relation"
         = Some (AStr kind)
         ∧ kind ∈ filter_list (Some ["REQUIRES"])).
Proof.
  assert (wf_graph (graph_of script_two_kinds)) as H1 by apply build_wf.
  assert (create_pyvis_graph (graph_of script_two_kinds) (Some ["KnowledgeNode"]) None
            (Some ["REQUIRES"]) 0 = Some (graph_of script_two_kinds))
    as H2 by (vm_compute; reflexivity).
  assert (g_adj (graph_of script_two_kinds) !! ("N1", "N2")
          = Some (relationship_attrs (sample_relationship "N1" "N2" "REQUIRES" 5)))
    as H3 by (vm_compute; reflexivity).
  split; [exact H1|]. split; [exact H2|]. split; [exact H3|].
  exact (proj2 (proj2 (proj2 (proj1
    (proj2 (type_filter_induces_subgraph_and_edge_rule _ H1) _ _ _ _ _ H2 _ _ _)
    H3)))).
Defined.

(** C1 is what the docstring of [create_pyvis_graph] promises ("include
    neighbors up to this degree"), and the code does not deliver it.  The
    predecessor rounds run over the set the successor rounds have filled,
    and no round follows a successor of a predecessor.  So, with two
    concepts that contain the same unit, radius 1 around CONCEPT-1 selects
    CONCEPT-2, which is two hops away; and with one concept that contains
    two units, radius 2 around N1 misses N2, which is two hops away. *)
Theorem neighbourhood_is_not_the_hop_ball :
  (let G := graph_of script_shared_unit in
   (∃ sg, create_pyvis_graph G None (Some ["CONCEPT-1"]) None 1 = Some sg
          ∧ dom (g_node sg) = {["CONCEPT-1"; "N1"; "CONCEPT-2"]})
   ∧ ¬ within_hops G "CONCEPT-1" 1 "CONCEPT-2")
  ∧ (let G := graph_of script_siblings in
     (∃ sg, create_pyvis_graph G None (Some ["N1"]) None 2 = Some sg
            ∧ dom (g_node sg) = {["N1"; "CONCEPT-1"]})
     ∧ within_hops G "N1" 2 "N2").
Proof.
  cbv zeta. split; split.
  - eexists. split; vm_compute; reflexivity.
  - intros Hw.
    assert ("CONCEPT-2" ∈ hop_ball (graph_of script_shared_unit) 1 ["CONCEPT-1"])
      as Hin.
    { apply hop_ball_within. exists "CONCEPT-1". split; [left|exact Hw]. }
    assert (bool_decide
              ("CONCEPT-2" ∈ hop_ball (graph_of script_shared_unit) 1 ["CONCEPT-1"])
            = false) as Hout by (vm_compute; reflexivity).
    apply bool_decide_eq_false in Hout. exact (Hout Hin).
  - eexists. split; vm_compute; reflexivity.
  - assert ("N2" ∈ hop_ball (graph_of script_siblings) 2 ["N1"]) as Hin.
    { apply (bool_decide_eq_true_1 _). vm_compute. reflexivity. }
    apply hop_ball_within in Hin as (s & Hs & Hw).
    apply list_elem_of_singleton in Hs. subst s. exact Hw.
Qed.

(** * Further properties of the code *)

(** ** What the rounds of [create_pyvis_graph] collect *)

Lemma iter_round_walk G (next : DiGraph → string → gset string)
    (step : string → string → Prop) node_id n (X : gset string) v :
  (∀ a b, step a b ↔ has_node G a = true ∧ b ∈ next G a) →
  v ∈ Nat.iter n (neighbors_round G next node_id) X ↔
  v ∈ X ∨ ∃ m u, (1 ≤ m ≤ n)%nat ∧ (u ∈ X ∨ u = node_id) ∧ walk step m u v.
Proof.
  intros Hstep. revert v. induction n as [|n IH]; intros v; simpl.
  - split; [by left|]. intros [?|(m & u & ? & _)]; [done|lia].
  - rewrite elem_of_neighbors_round. split.
    + intros [Hv|(w & Hw & Hn & Hnext)].
      * apply IH in Hv as [?|(m & u & ? & ? & ?)]; [by left|].
        right. exists m, u. split; [lia|done].
      * assert (step w v) as Hwv by (apply Hstep; done).
        destruct Hw as [Hw| ->].
        -- apply IH in Hw as [Hw|(m & u & ? & ? & Hwalk)].
           ++ right. exists 1%nat, w. split; [lia|]. split; [by left|].
              eapply walk_S; [apply walk_0|done].
           ++ right. exists (S m), u. split; [lia|]. split; [done|].
              by eapply walk_S.
        -- right. exists 1%nat, node_id. split; [lia|]. split; [by right|].
           eapply walk_S; [apply walk_0|done].
    + intros [Hv|(m & u & Hm & Hu & Hwalk)].
      * left. apply IH. by left.
      * inversion Hwalk as [|m' ? w ? Hwalk' Hwv]; subst; [lia|].
        apply Hstep in Hwv as [Hn Hnext]. right. exists w.
        split; [|done]. destruct m' as [|m'].
        -- inversion Hwalk'; subst. destruct Hu as [Hu| ->]; [|by right].
           left. apply IH. by left.
        -- left. apply IH. right. exists (S m'), u. split; [lia|done].
Qed.

(** The nodes collected for one seed: at most [k] steps to successors, then
    at most [k] steps to predecessors, at least one step in all. *)
Lemma elem_of_collect_neighbors G k node_id v :
  v ∈ collect_neighbors G k node_id ↔
  ∃ a b u, (a ≤ Z.to_nat k)%nat ∧ (b ≤ Z.to_nat k)%nat ∧ (1 ≤ a + b)%nat
           ∧ walk (to_successor G) a node_id u ∧ walk (to_predecessor G) b u v.
Proof.
  unfold collect_neighbors.
  rewrite (iter_round_walk G predecessors (to_predecessor G)); last first.
  { intros a b. unfold to_predecessor. by rewrite elem_of_predecessors. }
  assert (∀ w, w ∈ Nat.iter (Z.to_nat k) (neighbors_round G successors node_id) ∅ ↔
               ∃ a, (1 ≤ a ≤ Z.to_nat k)%nat ∧ walk (to_successor G) a node_id w)
    as Hfwd.
  { intros w. rewrite (iter_round_walk G successors (to_successor G)); last first.
    { intros a b. unfold to_successor. by rewrite elem_of_successors. }
    split.
    - intros [?%not_elem_of_empty|(m & u & ? & [?%not_elem_of_empty| ->] & ?)];
        try done. by exists m.
    - intros (a & ? & ?). right. exists a, node_id. split; [done|]. split; [by right|done]. }
  split.
  - intros [Hv|(b & u & Hb & Hu & Hwalk)].
    + apply Hfwd in Hv as (a & ? & ?). exists a, 0%nat, v.
      repeat split; try lia; [done|apply walk_0].
    + destruct Hu as [Hu| ->].
      * apply Hfwd in Hu as (a & ? & ?). exists a, b, u.
        repeat split; try lia; done.
      * exists 0%nat, b, node_id. repeat split; try lia; [apply walk_0|done].
  - intros (a & b & u & Ha & Hb & Hab & Hfw & Hbw).
    destruct b as [|b].
    + inversion Hbw; subst. left. apply Hfwd. exists a. split; [lia|done].
    + right. exists (S b), u. split; [lia|]. split; [|done].
      destruct a as [|a].
      * inversion Hfw; subst. by right.
      * left. apply Hfwd. exists (S a). split; [lia|done].
Qed.

Lemma within_hops_walk G (step : string → string → Prop) s u v m n :
  (∀ a b, step a b → adjacent G a b) →
  within_hops G s m u → walk step n u v → within_hops G s (m + n) v.
Proof.
  intros Hadj Hu Hwalk. induction Hwalk as [u|n u v w _ IH Hstep].
  - by rewrite Nat.add_0_r.
  - rewrite Nat.add_succ_r. eapply hops_step; [by apply IH|by apply Hadj].
Qed.

Lemma within_hops_le G s m n v :
  (m ≤ n)%nat → within_hops G s m v → within_hops G s n v.
Proof.
  intros Hle. induction Hle as [|n _ IH]; [done|].
  intros H. by apply within_hops_S, IH.
Qed.

(** The selected nodes, read off the three branches of the code. *)
Lemma elem_of_nodes_to_include G filter_types filter_node_ids k v :
  v ∈ nodes_to_include G filter_types filter_node_ids k ↔
  (truthy filter_node_ids = true
   ∧ ∃ s, s ∈ filter_list filter_node_ids ∧ has_node G s = true
          ∧ (v = s ∨ ((0 < k)%Z ∧ v ∈ collect_neighbors G k s)))
  ∨ (truthy filter_types = true
     ∧ ∃ d, g_node G !! v = Some d
            ∧ attr_in d "type" (filter_list filter_types) = true)
  ∨ (truthy filter_node_ids = false ∧ truthy filter_types = false
     ∧ is_Some (g_node G !! v)).
Proof.
  unfold nodes_to_include.
  assert (v ∈ (if truthy filter_node_ids then
                 if (0 <? k)%Z
                 then add_neighborhoods G k (seed_nodes G (filter_list filter_node_ids))
                 else seed_nodes G (filter_list filter_node_ids)
               else (∅ : gset string)) ↔
          truthy filter_node_ids = true
          ∧ ∃ s, s ∈ filter_list filter_node_ids ∧ has_node G s = true
                 ∧ (v = s ∨ ((0 < k)%Z ∧ v ∈ collect_neighbors G k s))) as Hseeds.
  { destruct (truthy filter_node_ids).
    - destruct (Z.ltb_spec 0 k) as [Hk|Hk].
      + rewrite elem_of_add_neighborhoods. setoid_rewrite elem_of_seed_nodes. split.
        * intros [[? ?]|(s & [? ?] & ?)]; (split; [done|]).
          -- exists v. by repeat split; try left.
          -- exists s. repeat split; try done. by right.
        * intros (_ & s & ? & ? & [->|[_ ?]]); [by left|]. right. by exists s.
      + rewrite elem_of_seed_nodes. split.
        * intros [? ?]. split; [done|]. exists v. repeat split; try done. by left.
        * intros (_ & s & ? & ? & [->|[? _]]); [done|lia].
    - split; [by intros ?%not_elem_of_empty|by intros [? _]]. }
  destruct (truthy filter_types) eqn:Ht; simpl.
  - rewrite andb_false_r. rewrite elem_of_add_typed_nodes, Hseeds. split.
    + intros [?|?]; [by left|]. right. left. done.
    + intros [?|[[_ ?]|(_ & ? & _)]]; [by left|by right|done].
  - rewrite andb_true_r. destruct (truthy filter_node_ids) eqn:Hn; simpl.
    + rewrite Hseeds. split; [by left|]. intros [?|[[? _]|(? & _)]]; done.
    + rewrite elem_of_dom. split; [by right; right|].
      intros [[? _]|[[? _]|(_ & _ & ?)]]; done.
Qed.

Lemma truthy_Some_app {A : Type} (l1 l2 : list A) :
  l1 ≠ [] → truthy (Some (l1 ++ l2)) = true.
Proof. by destruct l1. Qed.

Lemma truthy_Some {A : Type} (l : list A) : l ≠ [] → truthy (Some l) = true.
Proof. by destruct l. Qed.

Lemma copy_edges_no_nodes G filter_relationships sg :
  copy_edges G ∅ filter_relationships sg = sg.
Proof.
  unfold copy_edges. apply (map_fold_weak_ind (λ r _, r = sg)); [done|].
  intros uv d m r _ ->. by rewrite bool_decide_eq_false_2 by set_solver.
Qed.

Lemma elem_of_selection G filter_types seeds k v :
  seeds ≠ [] →
  v ∈ nodes_to_include G filter_types (Some seeds) k ↔
  (∃ s u a b, s ∈ seeds ∧ has_node G s = true
              ∧ (a ≤ Z.to_nat k)%nat ∧ (b ≤ Z.to_nat k)%nat
              ∧ walk (to_successor G) a s u ∧ walk (to_predecessor G) b u v)
  ∨ (truthy filter_types = true
     ∧ ∃ d, g_node G !! v = Some d
            ∧ attr_in d "type" (filter_list filter_types) = true).
Proof.
  intros Hseeds. rewrite elem_of_nodes_to_include, (truthy_Some seeds Hseeds).
  simpl. split.
  - intros [(_ & s & Hs & Hn & Hv)|[?|(? & _)]]; [|by right|done]. left.
    destruct Hv as [->|[Hk Hv]].
    + exists s, s, 0%nat, 0%nat. repeat split; try done; try lia; apply walk_0.
    + apply elem_of_collect_neighbors in Hv as (a & b & u & ? & ? & _ & ? & ?).
      by exists s, u, a, b.
  - intros [(s & u & a & b & Hs & Hn & Ha & Hb & Hfw & Hbw)|?]; [|by right; left].
    left. split; [done|]. exists s. split; [done|]. split; [done|].
    destruct (decide (a + b = 0)%nat) as [Hz|Hnz].
    + assert (a = 0%nat) as -> by lia. assert (b = 0%nat) as -> by lia.
      inversion Hfw; subst. inversion Hbw; subst. by left.
    + right. split; [lia|]. apply elem_of_collect_neighbors.
      exists a, b, u. repeat split; try done. lia.
Qed.

(** ** The selection of [create_pyvis_graph], exactly *)

(** X1. With seed identifiers given, a node is selected exactly when it has
    one of the filtered types or is reached from a seed that is a node of
    the graph by at most [neighborhood_degree] steps to successors followed
    by at most [neighborhood_degree] steps to predecessors; a radius of zero
    or less leaves the seeds themselves. *)
Theorem selected_nodes_are_successor_then_predecessor_walks
    G filter_types seeds k v :
  seeds ≠ [] →
  v ∈ nodes_to_include G filter_types (Some seeds) k ↔
  (∃ s u a b, s ∈ seeds ∧ has_node G s = true
              ∧ (a ≤ Z.to_nat k)%nat ∧ (b ≤ Z.to_nat k)%nat
              ∧ walk (to_successor G) a s u ∧ walk (to_predecessor G) b u v)
  ∨ (truthy filter_types = true
     ∧ ∃ d, g_node G !! v = Some d
            ∧ attr_in d "type" (filter_list filter_types) = true).
Proof. apply elem_of_selection. Qed.

Lemma selected_nodes_walks_witness :
  "CONCEPT-2" ∈ nodes_to_include (graph_of script_shared_unit) None
                  (Some ["CONCEPT-1"]) 1.
Proof.
  apply (selected_nodes_are_successor_then_predecessor_walks
           (graph_of script_shared_unit) None ["CONCEPT-1"] 1 "CONCEPT-2");
    [discriminate|].
  left. exists "CONCEPT-1", "N1", 1%nat, 1%nat.
  assert (has_node (graph_of script_shared_unit) "CONCEPT-1" = true) as H1
    by (vm_compute; reflexivity).
  assert (has_node (graph_of script_shared_unit) "CONCEPT-2" = true) as H2
    by (vm_compute; reflexivity).
  assert (has_node (graph_of script_shared_unit) "N1" = true) as H3
    by (vm_compute; reflexivity).
  assert (is_edge (graph_of script_shared_unit) "CONCEPT-1" "N1") as H4
    by (apply (bool_decide_eq_true_1 (is_Some _)); vm_compute; reflexivity).
  assert (is_edge (graph_of script_shared_unit) "CONCEPT-2" "N1") as H5
    by (apply (bool_decide_eq_true_1 (is_Some _)); vm_compute; reflexivity).
  split; [apply list_elem_of_here|]. split; [exact H1|].
  split; [vm_compute; lia|]. split; [vm_compute; lia|]. split.
  - eapply walk_S; [apply walk_0|]. split; [exact H1|exact H4].
  - eapply walk_S; [apply walk_0|]. split; [exact H3|exact H5].
Defined.

(** X2. What the selection guarantees about distance: every node that a seed
    reaches along at most [neighborhood_degree] edges followed forwards, or
    along at most that many edges followed backwards, is selected; and
    without a type filter no selected node is farther than twice the radius
    from the seeds, counting hops in either direction. *)
Theorem selection_distance_bounds G filter_types seeds k :
  seeds ≠ [] →
  (∀ s n v, s ∈ seeds → has_node G s = true → (n ≤ Z.to_nat k)%nat →
     walk (to_successor G) n s v ∨ walk (to_predecessor G) n s v →
     v ∈ nodes_to_include G filter_types (Some seeds) k)
  ∧ (∀ v, v ∈ nodes_to_include G None (Some seeds) k →
       ∃ s, s ∈ seeds ∧ within_hops G s (2 * Z.to_nat k) v).
Proof.
  intros Hseeds. split.
  - intros s n v Hs Hn Hle Hwalk.
    apply elem_of_selection; [done|]. left.
    destruct Hwalk as [Hwalk|Hwalk].
    + exists s, v, n, 0%nat. repeat split; try done; try lia. apply walk_0.
    + exists s, s, 0%nat, n. repeat split; try done; try lia. apply walk_0.
  - intros v Hv.
    apply elem_of_selection in Hv; [|done].
    destruct Hv as [(s & u & a & b & Hs & Hn & Ha & Hb & Hfw & Hbw)|[? _]];
      [|done].
    exists s. split; [done|].
    apply (within_hops_le G s (0 + a + b)); [lia|].
    eapply (within_hops_walk G (to_predecessor G)); [|  |exact Hbw].
    { intros ?? [_ ?]. by right. }
    eapply (within_hops_walk G (to_successor G)); [|  |exact Hfw].
    { intros ?? [_ ?]. by left. }
    by apply hops_seed.
Qed.

Lemma selection_distance_bounds_witness :
  ["N1"] ≠ []
  ∧ (∀ s n v, s ∈ ["N1"] → has_node (graph_of script_siblings) s = true →
       (n ≤ Z.to_nat 2)%nat →
       walk (to_successor (graph_of script_siblings)) n s v
       ∨ walk (to_predecessor (graph_of script_siblings)) n s v →
       v ∈ nodes_to_include (graph_of script_siblings) None (Some ["N1"]) 2)
  ∧ (∀ v, v ∈ nodes_to_include (graph_of script_siblings) None (Some ["N1"]) 2 →
       ∃ s, s ∈ ["N1"] ∧ within_hops (graph_of script_siblings) s (2 * Z.to_nat 2) v).
Proof.
  assert (["N1"] ≠ []) as H by discriminate.
  split; [exact H|].
  exact (selection_distance_bounds (graph_of script_siblings) None ["N1"] 2 H).
Defined.

(** X3. Seeds that are not nodes of the graph are ignored without an error:
    when none of the given seeds is a node and no type filter is given, the
    selection is the empty graph, whatever the radius and the relation
    filter.  (An empty seed list, by contrast, counts as no seed filter.) *)
Theorem unknown_seeds_select_the_empty_graph G filter_types seeds
    filter_relationships k :
  seeds ≠ [] → truthy filter_types = false →
  (∀ s, s ∈ seeds → has_node G s = false) →
  create_pyvis_graph G filter_types (Some seeds) filter_relationships k
  = Some empty_graph.
Proof.
  intros Hseeds Ht Hunknown. unfold create_pyvis_graph.
  rewrite (truthy_Some seeds Hseeds), orb_true_r. simpl.
  assert (nodes_to_include G filter_types (Some seeds) k = ∅) as ->.
  { apply set_eq. intros v. rewrite elem_of_selection by done. split.
    - intros [(s & _ & _ & _ & Hs & Hn & _)|[? _]]; [|congruence].
      rewrite (Hunknown s Hs) in Hn. done.
    - by intros ?%not_elem_of_empty. }
  rewrite elements_empty. simpl. by rewrite copy_edges_no_nodes.
Qed.

Lemma unknown_seeds_witness :
  create_pyvis_graph (graph_of script_siblings) None (Some ["N7"; "CONCEPT-9"])
    (Some ["CONTAINS"]) 2 = Some empty_graph.
Proof.
  apply unknown_seeds_select_the_empty_graph; [discriminate|reflexivity|].
  intros s Hs.
  apply (proj1 (Forall_forall (λ s, has_node (graph_of script_siblings) s = false)
                  ["N7"; "CONCEPT-9"])); [|exact Hs].
  repeat constructor; vm_compute; reflexivity.
Defined.

(** X4. Filters add up: the nodes selected under several types and several
    seeds are the union of the nodes selected under each part alone, so a
    type filter never removes a node that the seeds select and the order of
    the seeds does not matter. *)
Theorem selection_is_the_union_of_its_parts G types1 types2 seeds1 seeds2 k :
  types1 ≠ [] → types2 ≠ [] → seeds1 ≠ [] → seeds2 ≠ [] →
  nodes_to_include G (Some (types1 ++ types2)) (Some (seeds1 ++ seeds2)) k
  = nodes_to_include G (Some types1) None k
    ∪ nodes_to_include G (Some types2) None k
    ∪ nodes_to_include G None (Some seeds1) k
    ∪ nodes_to_include G None (Some seeds2) k.
Proof.
  intros Ht1 Ht2 Hs1 Hs2. apply set_eq. intros v.
  rewrite !elem_of_union, !elem_of_nodes_to_include.
  rewrite (truthy_Some_app types1 types2 Ht1), (truthy_Some_app seeds1 seeds2 Hs1).
  rewrite (truthy_Some types1 Ht1), (truthy_Some types2 Ht2).
  rewrite (truthy_Some seeds1 Hs1), (truthy_Some seeds2 Hs2).
  simpl. split.
  - intros [(_ & s & [Hs|Hs]%elem_of_app & Hn & Hv)|[(_ & d & Hd & Hin)|(? & _)]];
      [| | |done].
    + left. right. left. split; [done|]. by exists s.
    + right. left. split; [done|]. by exists s.
    + apply attr_in_true in Hin as (t & Ht & [Hin|Hin]%elem_of_app).
      * do 3 left. right. left. split; [done|]. exists d. split; [done|].
        apply attr_in_true. by exists t.
      * do 2 left. right. right. left. split; [done|]. exists d. split; [done|].
        apply attr_in_true. by exists t.
  - intros [[[H|H]|H]|H].
    + destruct H as [(? & _)|[(_ & d & Hd & Hin)|(_ & ? & _)]]; [done| |done].
      right. left. split; [done|]. exists d. split; [done|].
      apply attr_in_true in Hin as (t & ? & ?). apply attr_in_true.
      exists t. split; [done|]. apply elem_of_app. by left.
    + destruct H as [(? & _)|[(_ & d & Hd & Hin)|(_ & ? & _)]]; [done| |done].
      right. left. split; [done|]. exists d. split; [done|].
      apply attr_in_true in Hin as (t & ? & ?). apply attr_in_true.
      exists t. split; [done|]. apply elem_of_app. by right.
    + destruct H as [(_ & s & Hs & ?)|[(? & _)|(? & _)]]; [|done..].
      left. split; [done|]. exists s. split; [|done]. apply elem_of_app. by left.
    + destruct H as [(_ & s & Hs & ?)|[(? & _)|(? & _)]]; [|done..].
      left. split; [done|]. exists s. split; [|done]. apply elem_of_app. by right.
Qed.

Lemma selection_union_witness :
  nodes_to_include (graph_of script_siblings)
    (Some (["Concept"] ++ ["LearningPath"])) (Some (["N1"] ++ ["N2"])) 0
  = nodes_to_include (graph_of script_siblings) (Some ["Concept"]) None 0
    ∪ nodes_to_include (graph_of script_siblings) (Some ["LearningPath"]) None 0
    ∪ nodes_to_include (graph_of script_siblings) None (Some ["N1"]) 0
    ∪ nodes_to_include (graph_of script_siblings) None (Some ["N2"]) 0.
Proof.
  apply selection_is_the_union_of_its_parts; discriminate.
Defined.

(** ** The nodes and edges of [build_networkx_graph], exactly *)

Lemma node_pass_lookup {A : Type} (attrs_of : string → A → gmap string attr)
    (m : gmap string A) G n :
  g_node (map_fold (λ k d G, add_node G k (attrs_of k d)) G m) !! n =
    match m !! n with
    | Some d => Some (attrs_of n d ∪ default ∅ (g_node G !! n))
    | None => g_node G !! n
    end.
Proof.
  revert n.
  apply (map_fold_weak_ind (λ (r : DiGraph) (m : gmap string A), ∀ n,
    g_node r !! n = match m !! n with
                    | Some d => Some (attrs_of n d ∪ default ∅ (g_node G !! n))
                    | None => g_node G !! n
                    end)).
  - intros n. by rewrite lookup_empty.
  - intros i x m' r Hi IH n. simpl. destruct (decide (n = i)) as [->|Hne].
    + rewrite !lookup_insert_eq. by rewrite (IH i), Hi.
    + rewrite !lookup_insert_ne by done. apply IH.
Qed.

Lemma parsed_kinds_disjoint s n :
  (is_Some (knowledge_nodes (parsed s) !! n) → concepts (parsed s) !! n = None
     ∧ learning_paths (parsed s) !! n = None)
  ∧ (is_Some (concepts (parsed s) !! n) → learning_paths (parsed s) !! n = None).
Proof.
  pattern (parsed s). apply parsed_ind. clear s. intros s Hs. split.
  - intros Hn%(parsed_knowledge_node s _ _ Hs). split.
    + apply (parsed_not_concept s _ _ Hs). congruence.
    + apply (parsed_not_path s _ _ Hs). congruence.
  - intros [c Hc]. apply (parsed_concept s _ _ _ Hs) in Hc as [Hc _].
    apply (parsed_not_path s _ _ Hs). congruence.
Qed.

Lemma node_graph_lookup gd n :
  g_node (node_graph gd) !! n =
    match learning_paths gd !! n with
    | Some d =>
        Some (node_attrs "LearningPath" (p_name d) (path_dict d)
              ∪ default ∅ (g_node (add_concepts gd
                                     (add_knowledge_nodes gd empty_graph)) !! n))
    | None =>
        match concepts gd !! n with
        | Some d =>
            Some (node_attrs "Concept" (c_name d) (concept_dict d)
                  ∪ default ∅ (g_node (add_knowledge_nodes gd empty_graph) !! n))
        | None =>
            match knowledge_nodes gd !! n with
            | Some d =>
                Some (node_attrs "KnowledgeNode" (kn_title d) (knowledge_node_dict d)
                      ∪ ∅)
            | None => None
            end
        end
    end.
Proof.
  unfold node_graph.
  assert (∀ G, g_node (add_learning_paths gd G) !! n =
               match learning_paths gd !! n with
               | Some d => Some (node_attrs "LearningPath" (p_name d) (path_dict d)
                                 ∪ default ∅ (g_node G !! n))
               | None => g_node G !! n
               end) as Hp
    by (intros G; exact (node_pass_lookup
          (λ _ d, node_attrs "LearningPath" (p_name d) (path_dict d)) _ G n)).
  assert (∀ G, g_node (add_concepts gd G) !! n =
               match concepts gd !! n with
               | Some d => Some (node_attrs "Concept" (c_name d) (concept_dict d)
                                 ∪ default ∅ (g_node G !! n))
               | None => g_node G !! n
               end) as Hc
    by (intros G; exact (node_pass_lookup
          (λ _ d, node_attrs "Concept" (c_name d) (concept_dict d)) _ G n)).
  assert (∀ G, g_node (add_knowledge_nodes gd G) !! n =
               match knowledge_nodes gd !! n with
               | Some d => Some (node_attrs "KnowledgeNode" (kn_title d)
                                   (knowledge_node_dict d)
                                 ∪ default ∅ (g_node G !! n))
               | None => g_node G !! n
               end) as Hk
    by (intros G; exact (node_pass_lookup
          (λ _ d, node_attrs "KnowledgeNode" (kn_title d) (knowledge_node_dict d))
          _ G n)).
  rewrite Hp. destruct (learning_paths gd !! n); [done|].
  rewrite Hc. destruct (concepts gd !! n); [done|].
  rewrite Hk. by destruct (knowledge_nodes gd !! n).
Qed.

Lemma graph_of_node s n :
  g_node (graph_of s) !! n =
    match knowledge_nodes (parsed s) !! n, concepts (parsed s) !! n,
          learning_paths (parsed s) !! n with
    | Some d, _, _ =>
        Some (node_attrs "KnowledgeNode" (kn_title d) (knowledge_node_dict d))
    | None, Some d, _ => Some (node_attrs "Concept" (c_name d) (concept_dict d))
    | None, None, Some d =>
        Some (node_attrs "LearningPath" (p_name d) (path_dict d))
    | None, None, None => None
    end.
Proof.
  unfold graph_of. destruct (build_spec (parsed s)) as [-> _].
  rewrite node_graph_lookup.
  destruct (parsed_kinds_disjoint s n) as [Hk Hc].
  destruct (knowledge_nodes (parsed s) !! n) as [d|] eqn:Hd.
  - destruct Hk as [-> ->]; [done|]. by rewrite (right_id_L ∅ (∪)).
  - destruct (concepts (parsed s) !! n) as [c|] eqn:Hcn.
    + rewrite Hc by done.
      assert (g_node (add_knowledge_nodes (parsed s) empty_graph) !! n = None) as ->.
      { pose proof (node_pass_lookup
          (λ _ d, node_attrs "KnowledgeNode" (kn_title d) (knowledge_node_dict d))
          (knowledge_nodes (parsed s)) empty_graph n) as H.
        rewrite Hd in H. exact H. }
      simpl. by rewrite (right_id_L ∅ (∪)).
    + destruct (learning_paths (parsed s) !! n) as [p|] eqn:Hp; [|done].
      assert (g_node (add_concepts (parsed s)
                        (add_knowledge_nodes (parsed s) empty_graph)) !! n = None)
        as ->.
      { pose proof (node_pass_lookup
          (λ _ d, node_attrs "Concept" (c_name d) (concept_dict d))
          (concepts (parsed s)) (add_knowledge_nodes (parsed s) empty_graph) n) as H.
        rewrite Hcn in H.
        pose proof (node_pass_lookup
          (λ _ d, node_attrs "KnowledgeNode" (kn_title d) (knowledge_node_dict d))
          (knowledge_nodes (parsed s)) empty_graph n) as H'.
        rewrite Hd in H'. etrans; [exact H|exact H']. }
      simpl. by rewrite (right_id_L ∅ (∪)).
Qed.

(** X5. The node dictionaries of the graph of a script: a node is a declared
    knowledge node, concept or learning path, and its dictionary is the
    entity's dictionary with the label (the title of a knowledge node, the
    name of a concept or path) and the type tag of its kind; an identifier
    declared by no creation statement is not a node. *)
Theorem node_dictionaries_of_a_script s n :
  g_node (graph_of s) !! n =
    match knowledge_nodes (parsed s) !! n, concepts (parsed s) !! n,
          learning_paths (parsed s) !! n with
    | Some d, _, _ =>
        Some (node_attrs "KnowledgeNode" (kn_title d) (knowledge_node_dict d))
    | None, Some d, _ => Some (node_attrs "Concept" (c_name d) (concept_dict d))
    | None, None, Some d =>
        Some (node_attrs "LearningPath" (p_name d) (path_dict d))
    | None, None, None => None
    end.
Proof. apply graph_of_node. Qed.

Lemma relationship_attrs_absorb r r' :
  relationship_attrs r ∪ relationship_attrs r' = relationship_attrs r.
Proof.
  apply map_eq. intros k. unfold relationship_attrs.
  rewrite lookup_union.
  destruct (decide (k = "relation")) as [->|?]; [by rewrite !lookup_insert_eq|].
  rewrite !(lookup_insert_ne _ "relation") by done.
  destruct (decide (k = "strength")) as [->|?]; [by rewrite !lookup_insert_eq|].
  rewrite !(lookup_insert_ne _ "strength") by done.
  destruct (decide (k = "justification")) as [->|?]; [by rewrite !lookup_insert_eq|].
  rewrite !(lookup_insert_ne _ "justification") by done.
  by rewrite lookup_empty.
Qed.

(** After the relationship pass every edge carries the dictionary of the last
    relationship that joins its endpoints. *)
Lemma fold_relationships_exact rs G u v :
  (∀ uv d, g_adj G !! uv = Some d → ∃ r, d = relationship_attrs r) →
  (∀ uv d, g_adj (fold_left add_relationship rs G) !! uv = Some d →
           ∃ r, d = relationship_attrs r)
  ∧ ∀ rs1 r rs2, rs = rs1 ++ r :: rs2 → joins r u v →
      Forall (λ r', ¬ joins r' u v) rs2 →
      has_node G u = true → has_node G v = true →
      g_adj (fold_left add_relationship rs G) !! (u, v) = Some (relationship_attrs r).
Proof.
  intros HG.
  assert (∀ rs G, (∀ uv d, g_adj G !! uv = Some d → ∃ r, d = relationship_attrs r) →
            ∀ uv d, g_adj (fold_left add_relationship rs G) !! uv = Some d →
                    ∃ r, d = relationship_attrs r) as Hshape.
  { clear. intros rs. induction rs as [|r rs IH]; intros G HG; [done|].
    simpl. apply IH. intros [a b] d.
    destruct (decide (joins r a b)) as [[<- <-]|Hne].
    - unfold add_relationship.
      destruct (has_node G (r_source r) && has_node G (r_target r)) eqn:Hn;
        [|apply HG].
      apply andb_true_iff in Hn as [Hn1 Hn2]. simpl.
      rewrite lookup_insert_eq. intros [= <-].
      destruct (g_adj G !! (r_source r, r_target r)) as [d0|] eqn:Hd0; simpl.
      + destruct (HG _ _ Hd0) as [r' ->]. exists r.
        apply relationship_attrs_absorb.
      + exists r. apply (right_id_L ∅ (∪)).
    - rewrite add_relationship_other by done. apply HG. }
  split; [by apply Hshape|].
  intros rs1 r rs2 -> [<- <-] Hrs2 Hu Hv.
  rewrite fold_left_app. simpl.
  rewrite fold_relationships_other by done.
  rewrite add_relationship_joined
    by (by rewrite (has_node_ext G) by apply fold_relationships_nodes).
  destruct (g_adj (fold_left add_relationship rs1 G) !! (r_source r, r_target r))
    as [d0|] eqn:Hd0; simpl.
  - destruct (Hshape rs1 G HG _ _ Hd0) as [r' ->].
    by rewrite relationship_attrs_absorb.
  - by rewrite (right_id_L ∅ (∪)).
Qed.

Lemma relationship_graph_lookup gd u v :
  g_adj (relationship_graph gd) !! (u, v) =
    if decide (is_entity gd u ∧ is_entity gd v)
    then relationship_attrs <$> last (filter (λ r, joins r u v) (relationships gd))
    else None.
Proof.
  destruct (node_graph_spec gd) as (Hempty & _ & Hnodes).
  unfold relationship_graph, add_relationships.
  destruct (decide (is_entity gd u ∧ is_entity gd v)) as [[Hu Hv]|Hno].
  - destruct (last (filter (λ r, joins r u v) (relationships gd))) as [r|] eqn:Hlast.
    + assert (r ∈ relationships gd ∧ joins r u v) as [Hr Hj].
      { apply last_Some_elem_of in Hlast. by apply list_elem_of_filter in Hlast as [? ?]. }
      simpl.
      apply last_Some in Hlast as [front Hfront].
      assert (∃ rs1 rs2, relationships gd = rs1 ++ r :: rs2
                         ∧ Forall (λ r', ¬ joins r' u v) rs2) as (rs1 & rs2 & Hrs & Hrs2).
      { clear -Hfront. revert front Hfront.
        induction (relationships gd) as [|a l IH]; intros front Hfront.
        - by destruct front.
        - rewrite filter_cons in Hfront. destruct (decide (joins a u v)) as [Ha|Ha].
          + destruct front as [|b front]; simpl in Hfront;
              injection Hfront as -> Hrest.
            * exists [], l. split; [done|].
              apply Forall_forall. intros z Hz Hjz.
              assert (z ∈ filter (λ r, joins r u v) l) as Hin
                by (by apply list_elem_of_filter).
              rewrite Hrest in Hin. by apply elem_of_nil in Hin.
            * destruct (IH front Hrest) as (rs1 & rs2 & -> & ?).
              by exists (b :: rs1), rs2.
          + destruct (IH front Hfront) as (rs1 & rs2 & -> & ?).
            by exists (a :: rs1), rs2. }
      apply (proj2 (fold_relationships_exact (relationships gd) (node_graph gd) u v
                      ltac:(by intros ??; rewrite Hempty, lookup_empty)) rs1 r rs2);
        try done; by apply has_node_true, Hnodes.
    + simpl. rewrite fold_relationships_other; [by rewrite Hempty, lookup_empty|].
      apply Forall_forall. intros r Hr Hj.
      assert (r ∈ filter (λ r, joins r u v) (relationships gd)) as Hin
        by (by apply list_elem_of_filter).
      apply last_None in Hlast. rewrite Hlast in Hin. by apply elem_of_nil in Hin.
  - destruct (g_adj (fold_left add_relationship (relationships gd) (node_graph gd))
                !! (u, v)) as [d|] eqn:Hd; [|done].
    apply relationship_graph_edge in Hd as (_ & r & _ & _ & ? & ?). by destruct Hno.
Qed.

Lemma last_relationship_filter rs u v :
  last_relationship rs u v = last (filter (λ r, joins r u v) rs).
Proof. reflexivity. Qed.

Lemma last_relationship_Some rs u v r :
  last_relationship rs u v = Some r → r ∈ rs ∧ joins r u v.
Proof.
  rewrite last_relationship_filter. intros H%last_Some_elem_of.
  by apply list_elem_of_filter in H as [? ?].
Qed.

Lemma has_node_graph_of s n : has_node (graph_of s) n = true ↔ is_entity (parsed s) n.
Proof. rewrite has_node_true. apply build_nodes. Qed.

Lemma graph_of_edge s u v :
  g_adj (graph_of s) !! (u, v) =
    if has_node (graph_of s) u && has_node (graph_of s) v then
      match member_rank (learning_paths (parsed s) !! u ≫= p_conceptSequence) v with
      | Some i => Some (member_attrs "INCLUDES" i)
      | None =>
          match member_rank (concepts (parsed s) !! u ≫= c_sequence) v with
          | Some i => Some (member_attrs "CONTAINS" i)
          | None => relationship_attrs <$> last_relationship (relationships (parsed s)) u v
          end
      end
    else None.
Proof.
  unfold graph_of. pattern (parsed s). apply parsed_ind. clear s. intros s Hs.
  fold (graph_of s).
  assert (∀ u v, initial u ≠ Some "N"%char → initial u ≠ Some "C"%char ∨
                 initial v ≠ Some "C"%char →
                 g_adj (relationship_graph (parsed s)) !! (u, v) = None) as Hnone.
  { intros a b Ha Hb.
    destruct (g_adj (relationship_graph (parsed s)) !! (a, b)) as [d|] eqn:Hd; [|done].
    apply relationship_graph_edge in Hd as (_ & r & Hr & [<- <-] & _).
    destruct (parsed_relationship_initials s _ r Hs Hr) as [[? ?]|[? ?]];
      [done|]. by destruct Hb. }
  unfold graph_of at 1. destruct (build_spec (parsed s)) as [_ ->].
  fold (graph_of s). unfold member_edge, member_rank.
  destruct (learning_paths (parsed s) !! u) as [p|] eqn:Hp; simpl.
  - destruct (parsed_path s _ _ _ Hs Hp) as [Hu _].
    rewrite (parsed_not_concept s _ u Hs) by congruence. simpl.
    rewrite Hnone by (try left; congruence).
    assert (has_node (graph_of s) u = true) as ->.
    { apply has_node_graph_of. right. right. by eexists. }
    simpl. destruct (p_conceptSequence p ≫= λ l, last_index l v) as [i|]; simpl.
    + destruct (has_node (graph_of s) v); [|done]. by rewrite (right_id_L ∅ (∪)).
    + rewrite last_relationship_filter.
      destruct (last _) as [r|] eqn:Hlast; [|by destruct (has_node _ v)].
      apply last_Some_elem_of, list_elem_of_filter in Hlast as [[<- <-] Hr].
      destruct (parsed_relationship_initials s _ r Hs Hr) as [[? ?]|[? ?]]; congruence.
  - destruct (concepts (parsed s) !! u) as [c|] eqn:Hc; simpl.
    + destruct (parsed_concept s _ _ _ Hs Hc) as [Hu _].
      assert (has_node (graph_of s) u = true) as ->.
      { apply has_node_graph_of. right. left. by eexists. }
      simpl. destruct (c_sequence c) as [l|] eqn:Hl; simpl.
      * destruct (last_index l v) as [i|] eqn:Hi.
        -- assert (v ∈ l) as Hv.
           { apply last_index_Some in Hi as [Hi _]. by eapply list_elem_of_lookup_2. }
           pose proof (parsed_sequence_initials s _ _ _ _ _ Hs Hc Hl Hv) as Hinit.
           rewrite Hnone by (try right; congruence).
           destruct (has_node (graph_of s) v); [|done]. simpl.
           by rewrite (right_id_L ∅ (∪)).
        -- rewrite relationship_graph_lookup, last_relationship_filter.
           destruct (decide _) as [[_ Hv]|Hno].
           ++ apply has_node_graph_of in Hv. by rewrite Hv.
           ++ destruct (has_node (graph_of s) v) eqn:Hv; [|done].
              destruct Hno. split; [right; left; by eexists|].
              by apply has_node_graph_of.
      * rewrite relationship_graph_lookup, last_relationship_filter.
        destruct (decide _) as [[_ Hv]|Hno].
        -- apply has_node_graph_of in Hv. by rewrite Hv.
        -- destruct (has_node (graph_of s) v) eqn:Hv; [|done].
           destruct Hno. split; [right; left; by eexists|].
           by apply has_node_graph_of.
    + rewrite relationship_graph_lookup, last_relationship_filter.
      destruct (decide _) as [[Hu Hv]|Hno].
      * apply has_node_graph_of in Hu, Hv. by rewrite Hu, Hv.
      * destruct (has_node (graph_of s) u) eqn:Hu; [|done].
        destruct (has_node (graph_of s) v) eqn:Hv; [|done].
        destruct Hno. split; by apply has_node_graph_of.
Qed.

(** X6. The edges of the graph of a script: there is an edge from [u] to [v]
    only between two nodes, and its dictionary is exactly one of three:
    relation INCLUDES with the position of [v] in the concept sequence of the
    path [u], relation CONTAINS with the position of [v] in the sequence of
    the concept [u], or the relation, strength and justification of the last
    relationship declared from [u] to [v].  So every edge has a relation, and
    it has a strength and a justification exactly when it has no sequence;
    and every relationship between two nodes and every member that is a node
    has its edge. *)
Theorem edge_dictionaries_of_a_script s u v :
  g_adj (graph_of s) !! (u, v) =
    if has_node (graph_of s) u && has_node (graph_of s) v then
      match member_rank (learning_paths (parsed s) !! u ≫= p_conceptSequence) v with
      | Some i => Some (member_attrs "INCLUDES" i)
      | None =>
          match member_rank (concepts (parsed s) !! u ≫= c_sequence) v with
          | Some i => Some (member_attrs "CONTAINS" i)
          | None => relationship_attrs <$> last_relationship (relationships (parsed s)) u v
          end
      end
    else None.
Proof. apply graph_of_edge. Qed.

(** ** The views *)

Lemma walk_0_inv step u v : walk step 0 u v ↔ u = v.
Proof. split; [by inversion 1|intros ->; apply walk_0]. Qed.

Lemma walk_1_inv step u v : walk step 1 u v ↔ step u v.
Proof.
  split.
  - inversion 1 as [|? ? w ? Hw ?]; subst. by inversion Hw; subst.
  - intros ?. eapply walk_S; [apply walk_0|done].
Qed.

Lemma walk_le_1 step n u v :
  (n ≤ 1)%nat → walk step n u v ↔ (n = 0%nat ∧ u = v) ∨ (n = 1%nat ∧ step u v).
Proof.
  intros Hn. destruct n as [|[|n]]; [| |lia].
  - rewrite walk_0_inv. split; [by left|]. by intros [[_ ?]|[? _]].
  - rewrite walk_1_inv. split; [by right|]. by intros [[? _]|[_ ?]].
Qed.

(** At radius one, a seed brings its successors, its predecessors and the
    predecessors of its successors. *)
Lemma elem_of_selection_1 G seeds v :
  wf_graph G → seeds ≠ [] →
  v ∈ nodes_to_include G None (Some seeds) 1 ↔
  ∃ s, s ∈ seeds ∧ has_node G s = true
       ∧ (v = s ∨ is_edge G s v ∨ is_edge G v s ∨ ∃ u, is_edge G s u ∧ is_edge G v u).
Proof.
  intros Hwf Hseeds. rewrite elem_of_selection by done.
  change (Z.to_nat 1) with 1%nat. split.
  - intros [(s & u & a & b & Hs & Hn & Ha & Hb & Hfw & Hbw)|[? _]]; [|done].
    exists s. split; [done|]. split; [done|].
    apply (walk_le_1 _ _ _ _ Ha) in Hfw. apply (walk_le_1 _ _ _ _ Hb) in Hbw.
    destruct Hfw as [[_ <-]|[_ [_ Hsu]]], Hbw as [[_ <-]|[_ [_ Hvu]]].
    + by left.
    + right. right. by left.
    + right. by left.
    + right. right. right. by exists u.
  - intros (s & Hs & Hn & Hv). left.
    destruct Hv as [->|[Hv|[Hv|(u & Hsu & Hvu)]]].
    + exists s, s, 0%nat, 0%nat. repeat split; try done; try lia; apply walk_0.
    + exists s, v, 1%nat, 0%nat. repeat split; try done; try lia; [|apply walk_0].
      by apply walk_1_inv.
    + exists s, s, 0%nat, 1%nat. repeat split; try done; try lia; [apply walk_0|].
      by apply walk_1_inv.
    + exists s, u, 1%nat, 1%nat. repeat split; try done; try lia.
      * by apply walk_1_inv.
      * apply walk_1_inv. split; [|done]. apply has_node_true. by apply (Hwf v u).
Qed.

Lemma keeps_edge_no_filter nodes u v d :
  keeps_edge nodes None u v d = bool_decide (u ∈ nodes) && bool_decide (v ∈ nodes).
Proof. unfold keeps_edge. simpl. by rewrite andb_true_r. Qed.

(** The subgraph selected without a relation filter is the induced one. *)
Lemma selection_induced G filter_types filter_node_ids k :
  wf_graph G →
  ∃ sg,
    create_pyvis_graph G filter_types filter_node_ids None k = Some sg
    ∧ (∀ n, is_Some (g_node sg !! n) ↔
            n ∈ nodes_to_include G filter_types filter_node_ids k)
    ∧ (∀ n d, g_node sg !! n = Some d → g_node G !! n = Some d)
    ∧ ∀ u v, g_adj sg !! (u, v) =
        if has_node sg u && has_node sg v then g_adj G !! (u, v) else None.
Proof.
  intros Hwf.
  destruct (create_pyvis_graph_spec G filter_types filter_node_ids None k Hwf)
    as (sg & Hsg & Hnodes & Hdict & Hadj).
  exists sg. repeat split; try done; try apply Hnodes.
  intros u v. rewrite Hadj.
  destruct (g_adj G !! (u, v)) as [d|]; simpl; [|by destruct (_ && _)].
  rewrite keeps_edge_no_filter. unfold has_node.
  assert (∀ n, bool_decide (n ∈ nodes_to_include G filter_types filter_node_ids k)
               = bool_decide (is_Some (g_node sg !! n))) as Hb
    by (intros n; apply bool_decide_ext; symmetry; apply Hnodes).
  rewrite !Hb. by destruct (_ && _).
Qed.

(** ** The attributes that the builder sets *)

Lemma node_attrs_type type label d :
  node_attrs type label d !! "type" = Some (AStr type).
Proof. unfold node_attrs. by rewrite lookup_insert_eq. Qed.

Lemma node_attrs_label type label d :
  node_attrs type label d !! "label" = Some (AStr label).
Proof.
  unfold node_attrs. rewrite lookup_insert_ne by done. by rewrite lookup_insert_eq.
Qed.

Lemma member_attrs_lookup relation i :
  member_attrs relation i !! "relation" = Some (AStr relation)
  ∧ member_attrs relation i !! "sequence" = Some (AInt (Z.of_nat i + 1)).
Proof.
  unfold member_attrs. split; [by rewrite lookup_insert_eq|].
  rewrite lookup_insert_ne by done. by rewrite lookup_insert_eq.
Qed.

Lemma relationship_attrs_relation r :
  relationship_attrs r !! "relation" = Some (AStr (r_type r)).
Proof. unfold relationship_attrs. by rewrite lookup_insert_eq. Qed.


Lemma filterM_Some {A : Type} (f : A → option bool) (l : list A) :
  (∀ x, x ∈ l → is_Some (f x)) →
  ∃ k, filterM f l = Some k ∧ ∀ x, x ∈ k ↔ x ∈ l ∧ f x = Some true.
Proof.
  induction l as [|a l IH]; intros Hf.
  - exists []. split; [done|]. intros x. split; [by intros ?%elem_of_nil|].
    by intros [?%elem_of_nil _].
  - destruct IH as (k & Hk & Hin); [by intros x ?; apply Hf; right|].
    destruct (Hf a) as [b Hb]; [by left|].
    exists (if b then a :: k else k). simpl. rewrite Hb, Hk. split; [done|].
    intros x. destruct b.
    + rewrite !elem_of_cons, Hin. split.
      * intros [->|[? ?]]; [by split; [left|]|by split; [right|]].
      * intros [[->|?] ?]; [by left|by right].
    + rewrite elem_of_cons, Hin. split.
      * intros [? ?]. by split; [right|].
      * intros [[->|?] ?]; [congruence|done].
Qed.

Lemma sort_by_key_int {A : Type} (l : list (A * attr)) :
  (∀ p, p ∈ l → ∃ n, p.2 = AInt n) →
  ∃ k, sort_by_key l = Some k ∧ k ≡ₚ l.*1.
Proof.
  intros Hint.
  assert (∃ keyed, mapM (λ p : A * attr, pair p.1 <$> int_key p.2) l = Some keyed
                   ∧ keyed.*1 = l.*1) as (keyed & Hkeyed & Hfst).
  { induction l as [|[x a] l IH]; [by exists []|].
    destruct IH as (keyed & Hkeyed & Hfst); [by intros p ?; apply Hint; right|].
    destruct (Hint (x, a)) as [n Hn]; [by left|]. simpl in Hn. subst a.
    exists ((x, n) :: keyed). split; [|by rewrite !fmap_cons, Hfst].
    apply mapM_Some. constructor; [done|]. by apply mapM_Some. }
  unfold sort_by_key. rewrite Hkeyed. eexists. split; [done|].
  by rewrite sorted_perm, Hfst.
Qed.

Lemma graph_of_node_type s type n :
  node_type_is (graph_of s) type n =
    match knowledge_nodes (parsed s) !! n, concepts (parsed s) !! n,
          learning_paths (parsed s) !! n with
    | Some _, _, _ => Some (bool_decide (type = "KnowledgeNode"))
    | None, Some _, _ => Some (bool_decide (type = "Concept"))
    | None, None, Some _ => Some (bool_decide (type = "LearningPath"))
    | None, None, None => None
    end.
Proof.
  unfold node_type_is. rewrite graph_of_node. unfold node_attrs.
  destruct (knowledge_nodes (parsed s) !! n), (concepts (parsed s) !! n),
    (learning_paths (parsed s) !! n); simpl; try done;
    rewrite lookup_insert_eq; f_equal; apply bool_decide_ext; split; congruence.
Qed.

Lemma graph_of_is_concept s n :
  node_type_is (graph_of s) "Concept" n = Some true ↔ is_Some (concepts (parsed s) !! n).
Proof.
  rewrite graph_of_node_type. destruct (parsed_kinds_disjoint s n) as [Hk _].
  destruct (knowledge_nodes (parsed s) !! n) as [d|].
  - destruct Hk as [-> _]; [done|]. split; [done|]. by intros [? ?].
  - destruct (concepts (parsed s) !! n); [done|].
    split; [|by intros [? ?]]. by destruct (learning_paths (parsed s) !! n).
Qed.

Lemma graph_of_sequence_key s u v d :
  g_adj (graph_of s) !! (u, v) = Some d →
  ∃ n, default (AInt 0) (d !! "sequence") = AInt n.
Proof.
  rewrite graph_of_edge. destruct (_ && _); [|done].
  destruct (member_rank _ v) as [i|].
  { intros [= <-]. eexists. unfold member_attrs.
    rewrite lookup_insert_ne by done. by rewrite lookup_insert_eq. }
  destruct (member_rank _ v) as [i|].
  { intros [= <-]. eexists. unfold member_attrs.
    rewrite lookup_insert_ne by done. by rewrite lookup_insert_eq. }
  destruct (last_relationship _ u v) as [r|]; [|done].
  intros [= <-]. exists 0%Z. unfold relationship_attrs.
  by rewrite !lookup_insert_ne, lookup_empty by done.
Qed.

(** The seeds of the path view of a script graph. *)
Lemma path_view_seeds s path_id :
  has_node (graph_of s) path_id = true →
  ∃ path_concepts sg,
    create_path_view (graph_of s) path_id =
      Some <$> create_pyvis_graph (graph_of s) None
                 (Some ([path_id] ++ path_concepts)) None 1
    ∧ create_pyvis_graph (graph_of s) None
        (Some ([path_id] ++ path_concepts)) None 1 = Some sg
    ∧ ∀ c, c ∈ path_concepts ↔
           is_edge (graph_of s) path_id c ∧ is_Some (concepts (parsed s) !! c).
Proof.
  intros Hn. unfold create_path_view. rewrite Hn. simpl.
  pose proof (build_wf (parsed s)) as Hwf. fold (graph_of s) in Hwf.
  destruct (filterM_Some (node_type_is (graph_of s) "Concept")
              (elements (successors (graph_of s) path_id))) as (k & -> & Hk).
  { intros x Hx%elem_of_elements%elem_of_successors.
    destruct (Hwf _ _ Hx) as [_ [d Hd]]. unfold node_type_is. rewrite Hd. by eexists. }
  simpl.
  assert (∀ c, c ∈ k ↔ is_edge (graph_of s) path_id c
                       ∧ is_Some (concepts (parsed s) !! c)) as Hk'.
  { intros c. by rewrite Hk, elem_of_elements, elem_of_successors,
      graph_of_is_concept. }
  destruct (mapM (sequence_key (graph_of s) path_id) k) as [keys|] eqn:Hkeys;
    last first.
  { apply mapM_None, Exists_exists in Hkeys as (c & Hc & Hnone).
    apply Hk' in Hc as [[d Hd] _]. unfold sequence_key in Hnone.
    by rewrite Hd in Hnone. }
  simpl.
  pose proof (length_mapM _ _ _ Hkeys) as Hlen.
  apply mapM_Some_1 in Hkeys.
  destruct (sort_by_key_int (zip k keys)) as (k' & -> & Hperm).
  { intros [c a] Hp. apply list_elem_of_lookup in Hp as [i Hi].
    apply lookup_zip_with_Some in Hi as (c' & a' & [= <- <-] & Hc & Ha).
    pose proof (Forall2_lookup_lr _ _ _ _ _ _ Hkeys Hc Ha) as Hkey.
    unfold sequence_key in Hkey.
    destruct (g_adj (graph_of s) !! (path_id, c)) as [d|] eqn:Hd; [|done].
    simpl in Hkey. injection Hkey as <-. by eapply graph_of_sequence_key. }
  rewrite fst_zip in Hperm by lia. simpl.
  destruct (selection_induced (graph_of s) None (Some ([path_id] ++ k')) 1 Hwf)
    as (sg & Hsg & _).
  exists k', sg. split; [done|]. split; [done|].
  intros c. by rewrite Hperm.
Qed.

(** X8. The path view of a declared learning path never raises and shows the
    path with its concepts and their units: the seeds are the path and the
    declared concepts it includes; every seed brings its successors, its
    predecessors and the predecessors of its successors; every edge of the
    graph between two shown nodes is shown.  In particular each declared
    concept of the sequence of the path is shown with the edge from the
    path, and each declared unit of such a concept with the edge from the
    concept. *)
Theorem path_view_shows_concepts_and_units s path_id p :
  learning_paths (parsed s) !! path_id = Some p →
  ∃ sg,
    create_path_view (graph_of s) path_id = Some (Some sg)
    ∧ (∀ v, has_node sg v = true ↔
         ∃ seed,
           (seed = path_id
            ∨ (is_edge (graph_of s) path_id seed
               ∧ is_Some (concepts (parsed s) !! seed)))
           ∧ (v = seed ∨ is_edge (graph_of s) seed v ∨ is_edge (graph_of s) v seed
              ∨ ∃ u, is_edge (graph_of s) seed u ∧ is_edge (graph_of s) v u))
    ∧ (∀ u v, g_adj sg !! (u, v) =
         if has_node sg u && has_node sg v then g_adj (graph_of s) !! (u, v)
         else None)
    ∧ has_node sg path_id = true
    ∧ ∀ l c cd, p_conceptSequence p = Some l → c ∈ l →
        concepts (parsed s) !! c = Some cd →
        has_node sg c = true ∧ is_edge sg path_id c
        ∧ ∀ l' v, c_sequence cd = Some l' → v ∈ l' →
            is_Some (knowledge_nodes (parsed s) !! v) →
            has_node sg v = true ∧ is_edge sg c v.
Proof.
  intros Hp.
  pose proof (build_wf (parsed s)) as Hwf. fold (graph_of s) in Hwf.
  assert (has_node (graph_of s) path_id = true) as Hn.
  { apply has_node_graph_of. right. right. by eexists. }
  destruct (path_view_seeds s path_id Hn) as (k & sg & Hview & Hsg & Hk).
  destruct (selection_induced (graph_of s) None (Some ([path_id] ++ k)) 1 Hwf)
    as (sg' & Hsg' & Hnodes & _ & Hadj).
  rewrite Hsg in Hsg'. injection Hsg' as <-.
  assert (∀ v, has_node sg v = true ↔
    ∃ seed,
      (seed = path_id
       ∨ (is_edge (graph_of s) path_id seed ∧ is_Some (concepts (parsed s) !! seed)))
      ∧ (v = seed ∨ is_edge (graph_of s) seed v ∨ is_edge (graph_of s) v seed
         ∨ ∃ u, is_edge (graph_of s) seed u ∧ is_edge (graph_of s) v u)) as Hshown.
  { intros v. rewrite has_node_true, Hnodes, elem_of_selection_1 by done. split.
    - intros (seed & Hseed & _ & Hv). exists seed. split; [|done].
      apply elem_of_cons in Hseed as [->|Hseed]; [by left|]. right. by apply Hk.
    - intros (seed & Hseed & Hv). exists seed. split; [|split; [|done]].
      + destruct Hseed as [->|Hseed]; [by left|]. right. by apply Hk.
      + destruct Hseed as [->|[Hedge _]]; [done|].
        apply has_node_true. by apply (Hwf path_id seed). }
  assert (∀ u v, has_node sg u = true → has_node sg v = true →
                 is_edge (graph_of s) u v → is_edge sg u v) as Hedge.
  { intros u v Hu Hv Huv. unfold is_edge. by rewrite Hadj, Hu, Hv. }
  assert (∀ o seq v i, member_rank seq v = Some i →
            (learning_paths (parsed s) !! o ≫= p_conceptSequence = seq
             ∨ (learning_paths (parsed s) !! o = None
                ∧ concepts (parsed s) !! o ≫= c_sequence = seq)) →
            has_node (graph_of s) o = true → has_node (graph_of s) v = true →
            is_edge (graph_of s) o v) as Hmember.
  { intros o seq v i Hi Hseq Ho Hv. unfold is_edge.
    rewrite graph_of_edge, Ho, Hv. simpl.
    destruct Hseq as [->|[-> ->]]; [by rewrite Hi|]. simpl.
    by rewrite Hi. }
  exists sg. rewrite Hview, Hsg. split; [done|]. split; [done|].
  split; [done|]. split.
  { apply Hshown. exists path_id. split; [by left|by left]. }
  intros l c cd Hl Hc Hcd.
  assert (has_node (graph_of s) c = true) as Hcn.
  { apply has_node_graph_of. right. left. by eexists. }
  assert (is_edge (graph_of s) path_id c) as Hpc.
  { destruct (last_index_is_Some l c Hc) as [i Hi].
    apply (Hmember path_id (Some l) c i); [done| |done..].
    left. by rewrite Hp. }
  assert (has_node sg c = true) as Hshown_c.
  { apply Hshown. exists c. split; [right; by split; [|eexists]|by left]. }
  split; [done|]. split.
  { apply Hedge; [|done..]. apply Hshown. exists path_id. split; by left. }
  intros l' v Hl' Hv Hkn.
  assert (has_node (graph_of s) v = true) as Hvn.
  { apply has_node_graph_of. by left. }
  assert (is_edge (graph_of s) c v) as Hcv.
  { destruct (last_index_is_Some l' v Hv) as [i Hi].
    apply (Hmember c (Some l') v i); [done| |done..].
    right. split.
    - pose proof (parsed_concept_Some s c (mk_is_Some _ _ Hcd)) as Hs.
      apply (parsed_not_path s _ c Hs).
      destruct (parsed_concept s _ _ _ Hs Hcd) as [-> _]. congruence.
    - by rewrite Hcd. }
  assert (has_node sg v = true) as Hshown_v.
  { apply Hshown. exists c. split; [right; by split; [|eexists]|]. right. by left. }
  split; [done|]. by apply Hedge.
Qed.

Lemma path_view_witness :
  ∃ sg,
    create_path_view (graph_of script_path_with_units) "PATH-1" = Some (Some sg)
    ∧ has_node sg "CONCEPT-1" = true ∧ has_node sg "N1" = true
    ∧ is_edge sg "CONCEPT-1" "N1".
Proof.
  assert (∃ p, learning_paths (parsed script_path_with_units) !! "PATH-1" = Some p
               ∧ p_conceptSequence p = Some ["CONCEPT-1"]) as (p & Hp & Hl)
    by (vm_compute; eexists; split; reflexivity).
  assert (∃ cd, concepts (parsed script_path_with_units) !! "CONCEPT-1" = Some cd
                ∧ c_sequence cd = Some ["N1"]) as (cd & Hcd & Hl')
    by (vm_compute; eexists; split; reflexivity).
  assert (is_Some (knowledge_nodes (parsed script_path_with_units) !! "N1")) as Hkn
    by (vm_compute; eexists; reflexivity).
  destruct (path_view_shows_concepts_and_units script_path_with_units "PATH-1" p Hp)
    as (sg & Hview & _ & _ & _ & Hmembers).
  destruct (Hmembers ["CONCEPT-1"] "CONCEPT-1" cd Hl (list_elem_of_here _ _) Hcd)
    as (Hc & _ & Hunits).
  destruct (Hunits ["N1"] "N1" Hl' (list_elem_of_here _ _) Hkn) as [Hv Hcv].
  exists sg. split; [exact Hview|]. split; [exact Hc|]. split; [exact Hv|exact Hcv].
Defined.

Lemma graph_of_typed s n types :
  (∃ d, g_node (graph_of s) !! n = Some d ∧ attr_in d "type" types = true) ↔
  (is_Some (knowledge_nodes (parsed s) !! n) ∧ "KnowledgeNode" ∈ types)
  ∨ (is_Some (concepts (parsed s) !! n) ∧ "Concept" ∈ types)
  ∨ (is_Some (learning_paths (parsed s) !! n) ∧ "LearningPath" ∈ types).
Proof.
  rewrite graph_of_node. destruct (parsed_kinds_disjoint s n) as [Hk Hc].
  assert (∀ type label d,
            attr_in (node_attrs type label d) "type" types = true ↔ type ∈ types)
    as Hattr.
  { intros type label d. rewrite attr_in_true. unfold node_attrs.
    rewrite lookup_insert_eq. split; [by intros (? & [= <-] & ?)|].
    intros ?. by eexists. }
  destruct (knowledge_nodes (parsed s) !! n) as [d|].
  - destruct Hk as [-> ->]; [done|]. split.
    + intros (? & [= <-] & ?%Hattr). left. by split.
    + intros [[_ ?]|[[[? ?] _]|[[? ?] _]]]; [|done..]. eexists. split; [done|].
      by apply Hattr.
  - destruct (concepts (parsed s) !! n) as [c|].
    + rewrite Hc by done. split.
      * intros (? & [= <-] & ?%Hattr). right. left. by split.
      * intros [[[? ?] _]|[[_ ?]|[[? ?] _]]]; [done| |done]. eexists. split; [done|].
        by apply Hattr.
    + destruct (learning_paths (parsed s) !! n) as [p|].
      * split.
        -- intros (? & [= <-] & ?%Hattr). right. right. by split.
        -- intros [[[? ?] _]|[[[? ?] _]|[_ ?]]]; [done..|]. eexists. split; [done|].
           by apply Hattr.
      * split; [by intros (? & ? & _)|].
        by intros [[[? ?] _]|[[[? ?] _]|[[? ?] _]]].
Qed.

Lemma elem_of_typed_selection s types n :
  types ≠ [] →
  n ∈ nodes_to_include (graph_of s) (Some types) None 0 ↔
  (is_Some (knowledge_nodes (parsed s) !! n) ∧ "KnowledgeNode" ∈ types)
  ∨ (is_Some (concepts (parsed s) !! n) ∧ "Concept" ∈ types)
  ∨ (is_Some (learning_paths (parsed s) !! n) ∧ "LearningPath" ∈ types).
Proof.
  intros Htypes. rewrite elem_of_nodes_to_include, (truthy_Some types Htypes).
  simpl. rewrite <- graph_of_typed. split.
  - by intros [[? _]|[[_ ?]|(_ & ? & _)]].
  - intros ?. right. by left.
Qed.

Lemma graph_eq (G G' : DiGraph) :
  (∀ n, g_node G !! n = g_node G' !! n) →
  (∀ u v, g_adj G !! (u, v) = g_adj G' !! (u, v)) → G = G'.
Proof.
  intros Hn Ha. destruct G as [n a], G' as [n' a']. simpl in *. f_equal.
  - by apply map_eq.
  - apply map_eq. by intros [u v].
Qed.

(** X9. The relationships view of the graph of a script never raises.  It
    shows exactly the declared knowledge nodes, and between two of them the
    edge of the last relationship declared from the one to the other,
    provided no relation kinds are chosen or the kind of that last
    relationship is among the chosen ones: an earlier relationship of a
    chosen kind between the same two nodes is not shown. *)
Theorem relationships_view_shows_last_relationships s relationship_types :
  ∃ sg,
    create_relationships_view (graph_of s) relationship_types = Some sg
    ∧ (∀ n, g_node sg !! n =
            (λ d, node_attrs "KnowledgeNode" (kn_title d) (knowledge_node_dict d))
              <$> knowledge_nodes (parsed s) !! n)
    ∧ ∀ u v, g_adj sg !! (u, v) =
        if has_node sg u && has_node sg v then
          r ← last_relationship (relationships (parsed s)) u v;
          if negb (truthy relationship_types)
             || bool_decide (r_type r ∈ filter_list relationship_types)
          then Some (relationship_attrs r) else None
        else None.
Proof.
  pose proof (build_wf (parsed s)) as Hwf. fold (graph_of s) in Hwf.
  destruct (create_pyvis_graph_spec (graph_of s) (Some ["KnowledgeNode"]) None
              relationship_types 0 Hwf) as (sg & Hsg & Hnodes & Hdict & Hadj).
  assert (∀ n, n ∈ nodes_to_include (graph_of s) (Some ["KnowledgeNode"]) None 0 ↔
               is_Some (knowledge_nodes (parsed s) !! n)) as Hsel.
  { intros n. rewrite elem_of_typed_selection by done. split.
    - intros [[? _]|[[_ Hin]|[_ Hin]]]; [done|..];
        apply list_elem_of_singleton in Hin; discriminate.
    - intros ?. left. split; [done|]. apply list_elem_of_here. }
  assert (∀ n, has_node sg n = true ↔ is_Some (knowledge_nodes (parsed s) !! n))
    as Hshown by (intros n; by rewrite has_node_true, Hnodes, Hsel).
  exists sg. split; [exact Hsg|]. split.
  { intros n. destruct (knowledge_nodes (parsed s) !! n) as [d|] eqn:Hd; simpl.
    - assert (has_node sg n = true) as Hn by (apply Hshown; by rewrite Hd).
      apply has_node_true in Hn as [d' Hd'].
      rewrite Hd'. f_equal. apply Hdict in Hd'. rewrite graph_of_node, Hd in Hd'.
      congruence.
    - destruct (g_node sg !! n) as [d'|] eqn:Hd'; [|done].
      assert (has_node sg n = true) as Hn by (apply has_node_true; by eexists).
      apply Hshown in Hn. rewrite Hd in Hn. by destruct Hn. }
  intros u v. rewrite Hadj. unfold keeps_edge.
  assert (∀ n, bool_decide (n ∈ nodes_to_include (graph_of s)
                                  (Some ["KnowledgeNode"]) None 0) = has_node sg n)
    as Hb by (intros n; apply bool_decide_ext; symmetry; apply Hnodes).
  rewrite !Hb.
  destruct (has_node sg u) eqn:Hu; simpl;
    [|by destruct (g_adj (graph_of s) !! (u, v))].
  destruct (has_node sg v) eqn:Hv; simpl;
    [|by destruct (g_adj (graph_of s) !! (u, v))].
  apply Hshown in Hu, Hv.
  destruct (parsed_kinds_disjoint s u) as [Hku _]. destruct (Hku Hu) as [Hcu Hpu].
  rewrite graph_of_edge.
  assert (has_node (graph_of s) u = true) as -> by (apply has_node_graph_of; by left).
  assert (has_node (graph_of s) v = true) as -> by (apply has_node_graph_of; by left).
  rewrite Hcu, Hpu. simpl.
  destruct (last_relationship (relationships (parsed s)) u v) as [r|]; [|done].
  simpl.
  assert (attr_in (relationship_attrs r) "relation" (filter_list relationship_types)
          = bool_decide (r_type r ∈ filter_list relationship_types)) as ->; [|done].
  unfold attr_in, relationship_attrs. by rewrite lookup_insert_eq.
Qed.

(** X10. The overview of the graph of a script: with the knowledge nodes
    shown, the selection is the whole graph, unchanged; without them, it is
    the graph induced by the declared concepts and learning paths. *)
Theorem overview_with_all_types_is_the_whole_graph s :
  curriculum_overview (graph_of s) true = Some (graph_of s)
  ∧ ∃ sg,
      curriculum_overview (graph_of s) false = Some sg
      ∧ (∀ n, has_node sg n = true ↔
              is_Some (concepts (parsed s) !! n)
              ∨ is_Some (learning_paths (parsed s) !! n))
      ∧ (∀ n d, g_node sg !! n = Some d → g_node (graph_of s) !! n = Some d)
      ∧ ∀ u v, g_adj sg !! (u, v) =
          if has_node sg u && has_node sg v then g_adj (graph_of s) !! (u, v)
          else None.
Proof.
  pose proof (build_wf (parsed s)) as Hwf. fold (graph_of s) in Hwf.
  unfold curriculum_overview. split.
  - destruct (selection_induced (graph_of s) (Some (overview_types true)) None 0 Hwf)
      as (sg & -> & Hnodes & Hdict & Hadj).
    f_equal.
    assert (∀ n, is_Some (g_node sg !! n) ↔ is_Some (g_node (graph_of s) !! n))
      as Hsame.
    { intros n. rewrite Hnodes, elem_of_typed_selection by done.
      rewrite (build_nodes (parsed s) n). unfold is_entity, overview_types.
      split.
      - intros [[? _]|[[? _]|[? _]]]; tauto.
      - intros [?|[?|?]]; [left|right; left|right; right];
          (split; [done|]); repeat constructor. }
    apply graph_eq.
    + intros n. destruct (g_node sg !! n) as [d|] eqn:Hd.
      * symmetry. by apply Hdict.
      * destruct (g_node (graph_of s) !! n) as [d|] eqn:Hd'; [|done].
        assert (is_Some (g_node sg !! n)) as [? ?] by (apply Hsame; by eexists).
        congruence.
    + intros u v. rewrite Hadj.
      destruct (g_adj (graph_of s) !! (u, v)) as [d|] eqn:Hd;
        [|by destruct (_ && _)].
      destruct (Hwf u v) as [Hu Hv]; [by eexists|].
      apply Hsame, has_node_true in Hu, Hv.
      by rewrite Hu, Hv.
  - destruct (selection_induced (graph_of s) (Some (overview_types false)) None 0 Hwf)
      as (sg & -> & Hnodes & Hdict & Hadj).
    exists sg. split; [done|]. split; [|by split].
    intros n. rewrite has_node_true, Hnodes, elem_of_typed_selection by done.
    unfold overview_types. split.
    + intros [[_ Hin]|[[? _]|[? _]]]; [|tauto..].
      apply elem_of_cons in Hin as [?|Hin]; [done|].
      apply list_elem_of_singleton in Hin. done.
    + intros [?|?]; [right; left|right; right]; (split; [done|]);
        repeat constructor.
Qed.

(** ** Further facts about the parser *)

Lemma foldM_app {A S : Type} (f : S → A → option S) l1 l2 st :
  foldM f (l1 ++ l2) st = foldM f l1 st ≫= foldM f l2.
Proof.
  revert st. induction l1 as [|x l1 IH]; intros st; [done|].
  rewrite <- app_comm_cons, !foldM_cons.
  destruct (f st x) as [st1|]; [|done]. apply IH.
Qed.

(** A loop that stores one value per match, under the first group of the
    match and whatever the dictionary holds, leaves under every key the value
    of the last match with that key. *)
Lemma foldM_last_created {V : Type}
    (step : gmap string V → list string → option (gmap string V)) ms m k :
  (∀ st g st', step st g = Some st' →
     ∃ k v, head g = Some k ∧ st' = <[k:=v]> st ∧ step ∅ g = Some (<[k:=v]> ∅)) →
  foldM step ms ∅ = Some m →
  m !! k = last_created step ms k.
Proof.
  intros Hstep. revert m. induction ms as [|g ms IH] using rev_ind; intros m.
  - intros [= <-]. by rewrite lookup_empty.
  - rewrite foldM_app.
    destruct (foldM step ms ∅) as [m'|] eqn:Hm'; [|done]. simpl.
    destruct (step m' g) as [m1|] eqn:Hg; [|done]. simpl. intros [= <-].
    destruct (Hstep _ _ _ Hg) as (k' & v & Hhead & -> & Hempty).
    unfold last_created. rewrite filter_app, filter_cons, filter_nil.
    destruct (decide (head g = Some k)) as [Hk|Hk].
    + rewrite last_snoc. simpl. rewrite Hempty. simpl.
      assert (k' = k) as -> by congruence. by rewrite !lookup_insert_eq.
    + rewrite app_nil_r. rewrite lookup_insert_ne by congruence.
      by apply IH.
Qed.

Lemma knowledge_node_step_fresh st g st' :
  knowledge_node_step st g = Some st' →
  ∃ k v, head g = Some k ∧ st' = <[k:=v]> st
         ∧ knowledge_node_step ∅ g = Some (<[k:=v]> ∅).
Proof.
  unfold knowledge_node_step.
  destruct g as [|? [|? [|? [|? [|? [|? [|? [|? ?]]]]]]]]; try done.
  destruct (py_int _); [|done]. simpl. intros [= <-]. by eexists _, _.
Qed.

Lemma concept_step_fresh st g st' :
  concept_step st g = Some st' →
  ∃ k v, head g = Some k ∧ st' = <[k:=v]> st
         ∧ concept_step ∅ g = Some (<[k:=v]> ∅).
Proof.
  unfold concept_step.
  destruct g as [|? [|? [|? [|? [|? ?]]]]]; try done.
  destruct (py_int _); [|done]. simpl. intros [= <-]. by eexists _, _.
Qed.

Lemma path_step_fresh st g st' :
  path_step st g = Some st' →
  ∃ k v, head g = Some k ∧ st' = <[k:=v]> st
         ∧ path_step ∅ g = Some (<[k:=v]> ∅).
Proof.
  unfold path_step.
  destruct g as [|? [|? [|? [|? [|? [|? [|? ?]]]]]]]; try done.
  destruct (py_int _); [|done]. simpl. intros [= <-]. by eexists _, _.
Qed.

Lemma add_new_cons acc x l :
  add_new acc (x :: l) =
    add_new (if bool_decide (x ∈ acc) then acc else acc ++ [x]) l.
Proof. done. Qed.

Lemma add_new_first_occurrences acc l :
  add_new acc l = acc ++ filter (λ y, y ∉ acc) (first_occurrences l).
Proof.
  revert acc. induction l as [|x l IH]; intros acc.
  - by rewrite app_nil_r.
  - rewrite add_new_cons, IH. simpl. rewrite filter_cons, list_filter_filter.
    destruct (decide (x ∈ acc)) as [Hx|Hx].
    + rewrite bool_decide_eq_true_2 by done. rewrite decide_False by tauto.
      f_equal. apply list_filter_iff. intros y. split; [|tauto].
      intros Hy. split; [done|]. by intros ->.
    + rewrite bool_decide_eq_false_2 by done. rewrite decide_True by done.
      rewrite <- app_assoc. simpl. do 2 f_equal.
      apply list_filter_iff. intros y. rewrite elem_of_app, list_elem_of_singleton.
      tauto.
Qed.

Lemma first_occurrences_spec l :
  NoDup (first_occurrences l) ∧ ∀ x, x ∈ first_occurrences l ↔ x ∈ l.
Proof.
  induction l as [|a l [IHnd IHin]]; simpl.
  - split; [constructor|done].
  - split.
    + constructor; [|by apply NoDup_filter].
      rewrite list_elem_of_filter. tauto.
    + intros x. rewrite !elem_of_cons, list_elem_of_filter, IHin.
      destruct (decide (x = a)); tauto.
Qed.

Section member_list_facts.
Context {A B : Type} (members : A → list string) (field : A → B)
  (append_member : string → A → A) (set_order : list string → A → A).
Hypothesis members_append : ∀ x o, members (append_member x o) = members o ++ [x].
Hypothesis members_set : ∀ l o, members (set_order l o) = members o.
Hypothesis field_append : ∀ x o, field (append_member x o) = field o.
Hypothesis field_set : ∀ l o, field (set_order l o) = field o.

(** The first loop appends to the member list of an owner the members
    declared for it that the list does not have yet, in statement order,
    and changes nothing else. *)
Lemma member_loop_list ms om0 os0 om os k :
  foldM (member_step members append_member) ms (om0, os0) = Some (om, os) →
  match os0 !! k with
  | None => os !! k = None
  | Some o0 =>
      ∃ o, os !! k = Some o
           ∧ members o = add_new (members o0) (declared_members ms k).*1
           ∧ field o = field o0
  end.
Proof.
  revert om0 os0. induction ms as [|g ms IH]; intros om0 os0.
  - intros [= <- <-]. destruct (os0 !! k); eauto.
  - rewrite foldM_cons.
    destruct (member_step members append_member (om0, os0) g) as [st1|] eqn:Hstep;
      [|done].
    change (Some st1 ≫= foldM (member_step members append_member) ms)
      with (foldM (member_step members append_member) ms st1).
    apply member_step_Some in Hstep as (owner & member & sequence & n & -> & Hn & ->).
    intros H%IH. rewrite (declared_members_cons _ _ _ n) by done.
    destruct (decide (owner = k)) as [->|Hne].
    + destruct (os0 !! k) as [o0|] eqn:Hk; [|by rewrite Hk in H].
      rewrite fmap_cons, add_new_cons. simpl.
      destruct (bool_decide (member ∈ members o0)).
      * by rewrite Hk in H.
      * rewrite lookup_insert_eq in H. destruct H as (o & ? & Hm & Hf).
        exists o. by rewrite <- members_append, <- (field_append member o0).
    + destruct (os0 !! owner) as [o1|]; [|done].
      destruct (bool_decide (member ∈ members o1)); [done|].
      by rewrite lookup_insert_ne in H.
Qed.

Lemma member_loops_list ms os0 om os k :
  foldM (member_step members append_member) ms (∅, os0) = Some (om, os) →
  match os0 !! k with
  | None => sort_members set_order om os !! k = None
  | Some o0 =>
      ∃ o, sort_members set_order om os !! k = Some o
           ∧ members o = add_new (members o0) (declared_members ms k).*1
           ∧ field o = field o0
  end.
Proof.
  intros Hloop. pose proof (member_loop_list _ _ _ _ _ k Hloop) as H.
  rewrite sort_members_lookup.
  destruct (os0 !! k) as [o0|].
  - destruct H as (o & -> & Hm & Hf). destruct (om !! k) as [l|]; simpl.
    + eexists. split; [done|]. by rewrite members_set, field_set.
    + by exists o.
  - rewrite H. by destruct (om !! k).
Qed.
End member_list_facts.

Lemma add_new_nil l : add_new [] l = first_occurrences l.
Proof.
  rewrite add_new_first_occurrences. simpl.
  induction (first_occurrences l) as [|x k IH]; [done|].
  rewrite filter_cons, decide_True by apply not_elem_of_nil. by rewrite IH.
Qed.

Lemma fresh_concept_id c : c_sequence c = None → c_nodes c = [] → fresh_concept c = c.
Proof. destruct c. simpl. by intros -> ->. Qed.

Lemma fresh_path_id p :
  p_conceptSequence p = None → p_concepts p = [] → fresh_path p = p.
Proof. destruct p. simpl. by intros -> ->. Qed.

(** The stages of the parser on a script. *)
Lemma parsed_stages s :
  parse_cypher_file s = Some (parsed s) →
  ∃ cs0 lp0 cn cs1 pc lp1,
    foldM knowledge_node_step (finditer knowledge_node_pattern s) ∅
      = Some (knowledge_nodes (parsed s))
    ∧ foldM concept_step (finditer concept_pattern s) ∅ = Some cs0
    ∧ foldM path_step (finditer path_pattern s) ∅ = Some lp0
    ∧ foldM concept_node_step (finditer concept_node_pattern s) (∅, cs0)
      = Some (cn, cs1)
    ∧ foldM path_concept_step (finditer path_concept_pattern s) (∅, lp0)
      = Some (pc, lp1)
    ∧ concepts (parsed s) = sort_concept_nodes cn cs1
    ∧ learning_paths (parsed s) = sort_path_concepts pc lp1.
Proof.
  intros Hs. destruct (parse_cypher_file_Some s _ Hs)
    as (kn & cs0 & lp0 & rels0 & cn & cs1 & pc & lp1 & rels
        & Hkn & Hcs0 & Hlp0 & _ & Hcn & Hpc & _ & Hgd).
  exists cs0, lp0, cn, cs1, pc, lp1. rewrite Hgd. simpl. by repeat split.
Qed.

(** A concept of the model: its fields and its fresh form come from the
    creation loop, its member list from the CONTAINS statements. *)
Lemma parsed_concept_members s k :
  parse_cypher_file s = Some (parsed s) →
  ∃ cs0,
    foldM concept_step (finditer concept_pattern s) ∅ = Some cs0
    ∧ match cs0 !! k with
      | None => concepts (parsed s) !! k = None
      | Some c0 =>
          ∃ c, concepts (parsed s) !! k = Some c
               ∧ c_nodes c = first_occurrences (contains_members s k).*1
               ∧ fresh_concept c = c0
      end.
Proof.
  intros Hs.
  destruct (parsed_stages s Hs) as (cs0 & _ & cn & cs1 & _ & _ & _ & Hcs0 & _ & Hcn & _
                                 & -> & _).
  exists cs0. split; [done|].
  pose proof (member_loops_list c_nodes fresh_concept append_node set_sequence
    ltac:(done) ltac:(done) ltac:(done) ltac:(done) _ _ _ _ k Hcn) as H.
  destruct (cs0 !! k) as [c0|] eqn:Hk; [|done].
  destruct (concepts_fresh s _ _ _ Hcs0 Hk) as (_ & Hseq & Hnodes).
  destruct H as (c & Hc & Hm & Hf). exists c. split; [done|].
  rewrite Hm, Hnodes, add_new_nil, Hf. split; [done|]. by apply fresh_concept_id.
Qed.

Lemma parsed_path_members s k :
  parse_cypher_file s = Some (parsed s) →
  ∃ lp0,
    foldM path_step (finditer path_pattern s) ∅ = Some lp0
    ∧ match lp0 !! k with
      | None => learning_paths (parsed s) !! k = None
      | Some p0 =>
          ∃ p, learning_paths (parsed s) !! k = Some p
               ∧ p_concepts p = first_occurrences (includes_members s k).*1
               ∧ fresh_path p = p0
      end.
Proof.
  intros Hs.
  destruct (parsed_stages s Hs) as (_ & lp0 & _ & _ & pc & lp1 & _ & _ & Hlp0 & _ & Hpc
                                 & _ & ->).
  exists lp0. split; [done|].
  pose proof (member_loops_list p_concepts fresh_path append_concept
    set_conceptSequence
    ltac:(done) ltac:(done) ltac:(done) ltac:(done) _ _ _ _ k Hpc) as H.
  destruct (lp0 !! k) as [p0|] eqn:Hk; [|done].
  destruct (paths_fresh s _ _ _ Hlp0 Hk) as (_ & Hseq & Hconcepts).
  destruct H as (p & Hp & Hm & Hf). exists p. split; [done|].
  rewrite Hm, Hconcepts, add_new_nil, Hf. split; [done|]. by apply fresh_path_id.
Qed.

(** X11. On a script whose parse returns, when several creation
    statements carry the same identifier, the last one wins: a knowledge
    node of the model is what its last creation
    statement says, and so are the fields of a concept and of a learning
    path that its creation statement sets (their members come from the
    CONTAINS and INCLUDES statements); an identifier without creation
    statement of a kind is not an entity of that kind. *)
Theorem last_creation_statement_wins s k :
  is_Some (parse_cypher_file s) →
  knowledge_nodes (parsed s) !! k
    = last_created knowledge_node_step (finditer knowledge_node_pattern s) k
  ∧ fresh_concept <$> concepts (parsed s) !! k
    = last_created concept_step (finditer concept_pattern s) k
  ∧ fresh_path <$> learning_paths (parsed s) !! k
    = last_created path_step (finditer path_pattern s) k.
Proof.
  intros Hs%parsed_Some. split; [|split].
  - destruct (parsed_stages s Hs) as (_ & _ & _ & _ & _ & _ & Hkn & _).
    apply (foldM_last_created _ _ _ _ knowledge_node_step_fresh Hkn).
  - destruct (parsed_concept_members s k Hs) as (cs0 & Hcs0 & H).
    rewrite <- (foldM_last_created _ _ _ k concept_step_fresh Hcs0).
    destruct (cs0 !! k) as [c0|]; [|by rewrite H].
    destruct H as (c & -> & _ & <-). done.
  - destruct (parsed_path_members s k Hs) as (lp0 & Hlp0 & H).
    rewrite <- (foldM_last_created _ _ _ k path_step_fresh Hlp0).
    destruct (lp0 !! k) as [p0|]; [|by rewrite H].
    destruct H as (p & -> & _ & <-). done.
Qed.

Lemma last_creation_statement_wins_witness :
  knowledge_nodes (parsed script_sequence) !! "N1"
    = last_created knowledge_node_step
        (finditer knowledge_node_pattern script_sequence) "N1"
  ∧ fresh_concept <$> concepts (parsed script_sequence) !! "N1"
    = last_created concept_step (finditer concept_pattern script_sequence) "N1"
  ∧ fresh_path <$> learning_paths (parsed script_sequence) !! "N1"
    = last_created path_step (finditer path_pattern script_sequence) "N1".
Proof.
  apply last_creation_statement_wins. vm_compute. eexists. reflexivity.
Defined.

(** X12. The member list of a concept ([nodes]) holds the units that the
    CONTAINS statements declare for it, each once, in the order of their first
    statement, whatever their sequence numbers; it has the same elements as
    the sequence of the concept, which may repeat a unit.  The same holds for
    the [concepts] list of a learning path and its INCLUDES statements. *)
Theorem member_lists_keep_first_occurrences s k :
  (∀ c, concepts (parsed s) !! k = Some c →
     c_nodes c = first_occurrences (contains_members s k).*1
     ∧ NoDup (c_nodes c)
     ∧ ∀ x, x ∈ c_nodes c ↔ ∃ l, c_sequence c = Some l ∧ x ∈ l)
  ∧ (∀ p, learning_paths (parsed s) !! k = Some p →
     p_concepts p = first_occurrences (includes_members s k).*1
     ∧ NoDup (p_concepts p)
     ∧ ∀ x, x ∈ p_concepts p ↔ ∃ l, p_conceptSequence p = Some l ∧ x ∈ l).
Proof.
  split.
  - intros c Hc. pose proof (parsed_concept_Some s k (mk_is_Some _ _ Hc)) as Hs.
    destruct (parsed_concept_members s k Hs) as (cs0 & _ & H).
    destruct (cs0 !! k) as [c0|]; [|congruence].
    destruct H as (c' & Hc' & Hm & _).
    assert (c' = c) as -> by congruence.
    destruct (first_occurrences_spec (contains_members s k).*1) as [Hnd Hin].
    rewrite Hm. split; [done|]. split; [done|]. intros x. rewrite Hin.
    destruct (parsed_concept s _ _ _ Hs Hc) as (_ & Hnil & Hcons).
    destruct (decide (contains_members s k = [])) as [Hmembers|Hmembers].
    + destruct Hnil as [-> _]; [done|]. rewrite Hmembers.
      split; [by intros ?%elem_of_nil|]. by intros (? & ? & _).
    + rewrite Hcons by done. split.
      * intros Hx. eexists. split; [done|]. by rewrite sorted_perm.
      * intros (l & [= <-] & Hx). by rewrite sorted_perm in Hx.
  - intros p Hp. pose proof (parsed_path_Some s k (mk_is_Some _ _ Hp)) as Hs.
    destruct (parsed_path_members s k Hs) as (lp0 & _ & H).
    destruct (lp0 !! k) as [p0|]; [|congruence].
    destruct H as (p' & Hp' & Hm & _).
    assert (p' = p) as -> by congruence.
    destruct (first_occurrences_spec (includes_members s k).*1) as [Hnd Hin].
    rewrite Hm. split; [done|]. split; [done|]. intros x. rewrite Hin.
    destruct (parsed_path s _ _ _ Hs Hp) as (_ & Hnil & Hcons).
    destruct (decide (includes_members s k = [])) as [Hmembers|Hmembers].
    + destruct Hnil as [-> _]; [done|]. rewrite Hmembers.
      split; [by intros ?%elem_of_nil|]. by intros (? & ? & _).
    + rewrite Hcons by done. split.
      * intros Hx. eexists. split; [done|]. by rewrite sorted_perm.
      * intros (l & [= <-] & Hx). by rewrite sorted_perm in Hx.
Qed.

Lemma last_created_match {V : Type}
    (step : gmap string V → list string → option (gmap string V)) ms k v :
  last_created step ms k = Some v →
  ∃ g m, g ∈ ms ∧ head g = Some k ∧ step ∅ g = Some m ∧ m !! k = Some v.
Proof.
  unfold last_created.
  destruct (last (filter (λ g, head g = Some k) ms)) as [g|] eqn:Hlast; [|done].
  apply last_Some_elem_of, list_elem_of_filter in Hlast as [Hhead Hg]. simpl.
  destruct (step ∅ g) as [m|] eqn:Hm; [|done]. simpl. intros Hv.
  by exists g, m.
Qed.

Lemma knowledge_node_created s k d :
  knowledge_nodes (parsed s) !! k = Some d → is_id "N" k ∧ kn_id d = k.
Proof.
  intros Hk. pose proof (parsed_knowledge_node_Some s k (mk_is_Some _ _ Hk)) as Hs.
  revert Hk.
  destruct (parsed_stages s Hs) as (_ & _ & _ & _ & _ & _ & Hkn & _).
  rewrite (foldM_last_created _ _ _ k knowledge_node_step_fresh Hkn).
  intros (g & m & Hg & Hhead & Hm & Hd)%last_created_match.
  groups_of_match Hg groups_knowledge_node. simpl in Hhead.
  injection Hhead as ->. split; [done|].
  unfold knowledge_node_step in Hm. destruct (py_int x3); [|done].
  simpl in Hm. injection Hm as <-. rewrite lookup_insert_eq in Hd.
  by injection Hd as <-.
Qed.

Lemma concept_created s k c :
  concepts (parsed s) !! k = Some c → is_id "CONCEPT-" k ∧ c_id c = k.
Proof.
  intros Hc. pose proof (parsed_concept_Some s k (mk_is_Some _ _ Hc)) as Hs.
  destruct (parsed_concept_members s k Hs) as (cs0 & Hcs0 & H).
  pose proof (foldM_last_created _ _ _ k concept_step_fresh Hcs0) as Hlast.
  destruct (cs0 !! k) as [c0|]; [|congruence].
  destruct H as (c' & Hc' & _ & Hf). assert (c' = c) as -> by congruence.
  symmetry in Hlast.
  apply last_created_match in Hlast as (g & m & Hg & Hhead & Hm & Hd).
  groups_of_match Hg groups_concept. simpl in Hhead.
  injection Hhead as ->. split; [done|].
  unfold concept_step in Hm. destruct (py_int x2); [|done].
  simpl in Hm. injection Hm as <-. rewrite lookup_insert_eq in Hd.
  injection Hd as Hd. rewrite <- Hf in Hd. by injection Hd.
Qed.

Lemma path_created s k p :
  learning_paths (parsed s) !! k = Some p → is_id "PATH-" k ∧ p_id p = k.
Proof.
  intros Hp. pose proof (parsed_path_Some s k (mk_is_Some _ _ Hp)) as Hs.
  destruct (parsed_path_members s k Hs) as (lp0 & Hlp0 & H).
  pose proof (foldM_last_created _ _ _ k path_step_fresh Hlp0) as Hlast.
  destruct (lp0 !! k) as [p0|]; [|congruence].
  destruct H as (p' & Hp' & _ & Hf). assert (p' = p) as -> by congruence.
  symmetry in Hlast.
  apply last_created_match in Hlast as (g & m & Hg & Hhead & Hm & Hd).
  groups_of_match Hg groups_path. simpl in Hhead.
  injection Hhead as ->. split; [done|].
  unfold path_step in Hm. destruct (py_int x4); [|done].
  simpl in Hm. injection Hm as <-. rewrite lookup_insert_eq in Hd.
  injection Hd as Hd. rewrite <- Hf in Hd. by injection Hd.
Qed.

Lemma contains_members_id s k x :
  x ∈ (contains_members s k).*1 → is_id "N" x.
Proof.
  intros ([x' n] & -> & Hx)%list_elem_of_fmap.
  apply declared_members_elem in Hx as (sequence & Hg & _).
  apply finditer_captured in Hg. rewrite groups_concept_node in Hg.
  apply Forall2_cons_1 in Hg as [_ Hg]. by apply Forall2_cons_1 in Hg as [Hx _].
Qed.

Lemma includes_members_id s k x :
  x ∈ (includes_members s k).*1 → is_id "CONCEPT-" x.
Proof.
  intros ([x' n] & -> & Hx)%list_elem_of_fmap.
  apply declared_members_elem in Hx as (sequence & Hg & _).
  apply finditer_captured in Hg. rewrite groups_path_concept in Hg.
  apply Forall2_cons_1 in Hg as [_ Hg]. by apply Forall2_cons_1 in Hg as [Hx _].
Qed.

Lemma relationship_ids s r :
  r ∈ relationships (parsed s) →
  (is_id "N" (r_source r) ∧ is_id "N" (r_target r))
  ∨ (is_id "CONCEPT-" (r_source r) ∧ is_id "CONCEPT-" (r_target r)).
Proof.
  intros Hr. pose proof (parsed_relationship_Some s r Hr) as Hs. revert Hr.
  destruct (parsed_relationships s _ Hs) as (rn & rp & -> & Hrn & Hrp).
  intros [Hr|Hr]%elem_of_app.
  - left. apply list_elem_of_lookup in Hr as [i Hi].
    destruct (Forall2_lookup_r _ _ _ _ _ Hrn Hi) as (g & Hg & strength & -> & _).
    apply list_elem_of_lookup_2 in Hg.
    apply finditer_captured in Hg. rewrite groups_node_relationship in Hg.
    apply Forall2_cons_1 in Hg as [Hsource Hg].
    by apply Forall2_cons_1 in Hg as [Htarget _].
  - right. apply list_elem_of_lookup in Hr as [i Hi].
    destruct (Forall2_lookup_r _ _ _ _ _ Hrp Hi) as (g & Hg & -> & _).
    apply list_elem_of_lookup_2 in Hg.
    apply finditer_captured in Hg. rewrite groups_prereq in Hg.
    apply Forall2_cons_1 in Hg as [Hsource Hg].
    by apply Forall2_cons_1 in Hg as [Htarget _].
Qed.

Lemma is_id_initial prefix a rest k :
  prefix = String a rest → is_id prefix k → initial k = Some a.
Proof. intros -> (w & -> & _). done. Qed.

(** X13. Identifiers tell the kind: in the model of a script every knowledge
    node is stored under an identifier made of N and digits, every concept
    under CONCEPT- and digits, every learning path under PATH- and digits,
    and the [id] field of each entity is the key it is stored under.  The
    members of a concept are written like knowledge nodes, those of a path
    like concepts, and a relationship joins two identifiers of knowledge
    nodes or two of concepts, declared or not.  No identifier has the form of
    two kinds. *)
Theorem identifiers_tell_the_kind s :
  (∀ k d, knowledge_nodes (parsed s) !! k = Some d → is_id "N" k ∧ kn_id d = k)
  ∧ (∀ k c, concepts (parsed s) !! k = Some c →
       is_id "CONCEPT-" k ∧ c_id c = k ∧ Forall (is_id "N") (c_nodes c))
  ∧ (∀ k p, learning_paths (parsed s) !! k = Some p →
       is_id "PATH-" k ∧ p_id p = k ∧ Forall (is_id "CONCEPT-") (p_concepts p))
  ∧ (∀ r, r ∈ relationships (parsed s) →
       (is_id "N" (r_source r) ∧ is_id "N" (r_target r))
       ∨ (is_id "CONCEPT-" (r_source r) ∧ is_id "CONCEPT-" (r_target r)))
  ∧ ∀ k, ¬ (is_id "N" k ∧ is_id "CONCEPT-" k) ∧ ¬ (is_id "N" k ∧ is_id "PATH-" k)
         ∧ ¬ (is_id "CONCEPT-" k ∧ is_id "PATH-" k).
Proof.
  split; [apply knowledge_node_created|]. split; [|split; [|split]].
  - intros k c Hc. destruct (concept_created s k c Hc) as [? ?].
    split; [done|]. split; [done|].
    pose proof (parsed_concept_Some s k (mk_is_Some _ _ Hc)) as Hs.
    destruct (parsed_concept_members s k Hs) as (cs0 & _ & Hk).
    destruct (cs0 !! k) as [c0|]; [|congruence].
    destruct Hk as (c' & Hc' & Hm & _). assert (c' = c) as -> by congruence.
    rewrite Hm. apply Forall_forall. intros x Hx.
    apply (proj1 (proj2 (first_occurrences_spec _) x)) in Hx.
    exact (contains_members_id s k x Hx).
  - intros k p Hp. destruct (path_created s k p Hp) as [? ?].
    split; [done|]. split; [done|].
    pose proof (parsed_path_Some s k (mk_is_Some _ _ Hp)) as Hs.
    destruct (parsed_path_members s k Hs) as (lp0 & _ & Hk).
    destruct (lp0 !! k) as [p0|]; [|congruence].
    destruct Hk as (p' & Hp' & Hm & _). assert (p' = p) as -> by congruence.
    rewrite Hm. apply Forall_forall. intros x Hx.
    apply (proj1 (proj2 (first_occurrences_spec _) x)) in Hx.
    exact (includes_members_id s k x Hx).
  - apply relationship_ids.
  - intros k. split; [|split]; intros [H1 H2];
      eapply is_id_initial in H1; try reflexivity;
      eapply is_id_initial in H2; try reflexivity; congruence.
Qed.

(** ** The matcher recognises what is written after a pattern *)

Lemma length_append (a b : string) :
  String.length (a +:+ b) = (String.length a + String.length b)%nat.
Proof. induction a as [|x a IH]; [done|]. rewrite append_cons. simpl. by rewrite IH. Qed.

Lemma strip_prefix_app l s : strip_prefix l (l +:+ s) = Some s.
Proof.
  induction l as [|a l IH]; [done|]. rewrite append_cons. simpl.
  by rewrite Ascii.eqb_refl.
Qed.

Section greedy_runs.
Context {R : Type} (c : ascii → bool) (k : string → option R).

Lemma rep_star_stops s r :
  stops c s → k s = Some r → rep_star c k s = Some (EmptyString, r).
Proof.
  intros Hstop Hk. destruct s as [|a s]; simpl; [by rewrite Hk|].
  simpl in Hstop. by rewrite Hstop, Hk.
Qed.

(** A run of the class that ends where the class ends is taken whole. *)
Lemma rep_star_run w s r :
  string_forall c w = true → stops c s → k s = Some r →
  rep_star c k (w +:+ s) = Some (w, r).
Proof.
  intros Hw Hstop Hk. induction w as [|a w IH].
  - rewrite append_nil. by apply rep_star_stops.
  - simpl in Hw. apply andb_true_iff in Hw as [Ha Hw].
    rewrite append_cons. simpl. by rewrite Ha, IH.
Qed.

Lemma rep_run q w s r :
  string_forall c w = true → (q = Plus → w ≠ EmptyString) → stops c s →
  k s = Some r → rep c k q (w +:+ s) = Some (w, r).
Proof.
  intros Hw Hne Hstop Hk. destruct q; simpl; [by apply rep_star_run|].
  destruct w as [|a w]; [by destruct Hne|].
  simpl in Hw. apply andb_true_iff in Hw as [Ha Hw].
  rewrite append_cons. simpl. by rewrite Ha, (rep_star_run w s r).
Qed.
End greedy_runs.

Lemma match_render p fills rest :
  fits p fills rest →
  match_items p (render p fills +:+ rest) = Some (captures p fills, rest).
Proof.
  revert fills. induction p as [|it p IH]; intros fills Hfits.
  - simpl. by rewrite append_nil.
  - destruct it as [l|c q|pre c q]; simpl in *.
    + rewrite append_assoc, strip_prefix_app. simpl. by apply IH.
    + destruct fills as [|w fills]; [done|]. simpl.
      destruct Hfits as (Hw & Hne & Hstop & Hfits).
      rewrite append_assoc.
      by rewrite (rep_run c _ q w _ (captures p fills, rest) Hw Hne Hstop (IH _ Hfits)).
    + destruct fills as [|w fills]; [done|]. simpl.
      destruct Hfits as (Hw & Hne & Hstop & Hfits).
      rewrite !append_assoc, strip_prefix_app. simpl.
      by rewrite (rep_run c _ q w _ (captures p fills, rest) Hw Hne Hstop (IH _ Hfits)).
Qed.

Lemma finditer_render p fills rest :
  render p fills ≠ EmptyString → fits p fills rest →
  finditer p (render p fills +:+ rest) = captures p fills :: finditer p rest.
Proof.
  intros Hne Hfits. unfold finditer at 1. simpl.
  rewrite (match_render _ _ _ Hfits).
  assert (String.length rest < String.length (render p fills +:+ rest))%nat as Hlt.
  { rewrite length_append. destruct (render p fills); [done|]. simpl. lia. }
  rewrite (proj2 (Nat.ltb_lt _ _) Hlt). f_equal. by apply finditer_fuel.
Qed.

(** X14. A statement written after a pattern is recognised: when a text
    consists of the literal parts of a pattern in order, with a string in
    the place of every repeated class and every group that is made of
    characters of the class, is not empty where one or more are asked for,
    and ends where the run of the class ends, then [finditer] finds it as
    one match whose groups are these strings (after the literal prefix of
    the group), and goes on right behind it, whatever follows. *)
Theorem statement_is_recognised p fills rest :
  render p fills ≠ EmptyString → fits p fills rest →
  finditer p (render p fills +:+ rest) = captures p fills :: finditer p rest.
Proof. apply finditer_render. Qed.

Lemma statement_is_recognised_witness :
  finditer concept_pattern
    (render concept_pattern concept_fills +:+ create_concept "CONCEPT-8")
  = captures concept_pattern concept_fills
    :: finditer concept_pattern (create_concept "CONCEPT-8").
Proof.
  apply statement_is_recognised.
  - discriminate.
  - cbn. repeat split; try reflexivity; try discriminate.
Defined.

(** X15. Round trip of a knowledge node: a creation statement written after
    the pattern, with any white space where the pattern allows it, a number
    for the identifier and for the minutes, and texts without double quote
    for the other fields (title, description and difficulty not empty),
    yields in the model the knowledge node with exactly these fields, stored
    under N followed by the number, whatever text follows, unless a later
    creation statement carries the same identifier; this when the parse of
    the script returns, that is when no number in it is beyond the digit
    limit. *)
Theorem knowledge_node_statement_round_trip
    w1 number w2 title w3 description w4 difficulty w5 minutes w6 source_lesson w7
    source_title w8 rest :
  let fills := [w1; number; w2; title; w3; description; w4; difficulty; w5; minutes;
                w6; source_lesson; w7; source_title; w8] in
  let s := render knowledge_node_pattern fills +:+ rest in
  fits knowledge_node_pattern fills rest →
  Forall (λ g, head g ≠ Some ("N" +:+ number)) (finditer knowledge_node_pattern rest) →
  is_Some (parse_cypher_file s) →
  ∃ n,
    py_int minutes = Some n
    ∧ knowledge_nodes (parsed s) !! ("N" +:+ number) =
        Some {| kn_id := "N" +:+ number; kn_title := title;
                kn_description := description; kn_difficulty := difficulty;
                kn_estimatedMinutes := n; kn_source_lesson := source_lesson;
                kn_source_title := source_title |}.
Proof.
  intros fills s Hfits Hlater Hreturns.
  assert (finditer knowledge_node_pattern s
          = captures knowledge_node_pattern fills
            :: finditer knowledge_node_pattern rest) as Hfirst
    by (unfold s; by rewrite finditer_render by (done || discriminate)).
  assert (∃ n, py_int minutes = Some n) as [n Hn].
  { pose proof (match_render _ _ _ Hfits) as Hm.
    apply match_items_Some in Hm as [Hcap _].
    rewrite groups_knowledge_node in Hcap.
    do 4 apply Forall2_cons_1 in Hcap as [_ Hcap].
    apply Forall2_cons_1 in Hcap as [Hminutes _].
    apply (py_int_digits (EmptyString, is_digit, Plus)) in Hminutes as [n Hn];
      [|done..].
    exists n.
    apply (field_converts s 4 knowledge_node_pattern
             (captures knowledge_node_pattern fills) minutes);
      [done|numeric_group|rewrite Hfirst; by left|done..]. }
  exists n. split; [done|].
  destruct (parsed_stages s (parsed_Some s Hreturns))
    as (_ & _ & _ & _ & _ & _ & Hkn & _).
  rewrite (foldM_last_created _ _ _ ("N" +:+ number) knowledge_node_step_fresh Hkn).
  unfold s. rewrite finditer_render by (done || discriminate).
  unfold last_created. rewrite filter_cons, decide_True by done.
  assert (filter (λ g, head g = Some ("N" +:+ number))
            (finditer knowledge_node_pattern rest) = []) as ->.
  { clear -Hlater. induction Hlater as [|g ms Hg _ IH]; [done|].
    by rewrite filter_cons, decide_False. }
  simpl. rewrite !append_nil, Hn. simpl. by rewrite lookup_insert_eq.
Qed.

Lemma knowledge_node_round_trip_witness :
  ∃ n,
    py_int "15" = Some n
    ∧ knowledge_nodes
        (parsed (render knowledge_node_pattern
                   [nl; "12"; " "; "Empathy"; " "; "Seeing needs"; " "; "Beginner"; " ";
                    "15"; " "; EmptyString; " "; "Lesson 3"; nl]
                 +:+ nl +:+ create_knowledge_node "N1"))
        !! ("N" +:+ "12") =
        Some {| kn_id := "N" +:+ "12"; kn_title := "Empathy";
                kn_description := "Seeing needs"; kn_difficulty := "Beginner";
                kn_estimatedMinutes := n; kn_source_lesson := EmptyString;
                kn_source_title := "Lesson 3" |}.
Proof.
  assert (fits knowledge_node_pattern
            [nl; "12"; " "; "Empathy"; " "; "Seeing needs"; " "; "Beginner"; " ";
             "15"; " "; EmptyString; " "; "Lesson 3"; nl]
            (nl +:+ create_knowledge_node "N1")) as Hfits
    by (cbn; repeat split; try reflexivity; discriminate).
  assert (Forall (λ g, head g ≠ Some ("N" +:+ "12"))
            (finditer knowledge_node_pattern (nl +:+ create_knowledge_node "N1")))
    as Hlater by (vm_compute; repeat constructor; discriminate).
  assert (is_Some (parse_cypher_file
                     (render knowledge_node_pattern
                        [nl; "12"; " "; "Empathy"; " "; "Seeing needs"; " ";
                         "Beginner"; " "; "15"; " "; EmptyString; " "; "Lesson 3"; nl]
                      +:+ nl +:+ create_knowledge_node "N1"))) as Hreturns
    by (vm_compute; eexists; reflexivity).
  exact (knowledge_node_statement_round_trip
           nl "12" " " "Empathy" " " "Seeing needs" " " "Beginner" " " "15" " "
           EmptyString " " "Lesson 3" nl (nl +:+ create_knowledge_node "N1")
           Hfits Hlater Hreturns).
Defined.

(** ** The lists that the tabs write *)

Lemma enumerate_from_lookup {A : Type} i (l : list A) n :
  enumerate_from i l !! n = pair (i + n)%nat <$> l !! n.
Proof.
  revert i n. induction l as [|x l IH]; intros i n; [done|].
  destruct n as [|n]; simpl; [by rewrite Nat.add_0_r|].
  rewrite IH. by rewrite Nat.add_succ_r.
Qed.

(** A loop whose body looks one key up and writes one line. *)
Lemma for_each_subscript {V : Type} (d : gmap string V) (line : nat → V → string)
    (body : nat * string → written unit) l :
  (∀ i k, body (i, k) = match d !! k with
                        | Some v => write (line i v)
                        | None => ([], None)
                        end) →
  (is_Some (for_each body l).2 ↔ Forall (λ ik, is_Some (d !! ik.2)) l)
  ∧ ∃ n,
      Forall2 (λ ik o, ∃ v, d !! ik.2 = Some v ∧ o = line ik.1 v)
        (take n l) (for_each body l).1
      ∧ (is_Some (for_each body l).2 → n = length l)
      ∧ ((for_each body l).2 = None → ∃ ik, l !! n = Some ik ∧ d !! ik.2 = None).
Proof.
  intros Hbody. induction l as [|[i k] l (IHok & n & IHlines & IHall & IHnone)].
  - simpl. split; [split; [constructor|by eexists]|].
    exists 0%nat. split; [constructor|]. split; [done|]. by intros [=].
  - simpl. rewrite Hbody. unfold wbind.
    destruct (d !! k) as [v|] eqn:Hk; simpl.
    + split.
      * rewrite IHok. split; [intros ?; constructor; [by eexists|done]|].
        by intros [_ ?]%Forall_cons.
      * exists (S n). split; [constructor; [by exists v|done]|].
        split; [by intros ->%IHall|done].
    + split.
      * split; [by intros [? ?]|]. intros [[? Hk'] _]%Forall_cons. simpl in Hk'.
        congruence.
      * exists 0%nat. split; [constructor|]. split; [by intros [? ?]|].
        intros _. by exists (i, k).
Qed.

Lemma path_concepts_body gd i k :
  (λ '(i, concept_id),
     wbind (subscript (concepts gd) concept_id) (λ concept_data,
       write (pretty (i + 1)%nat +:+ ". " +:+ c_name concept_data))) (i, k)
  = match concepts gd !! k with
    | Some c => write (pretty (i + 1)%nat +:+ ". " +:+ c_name c)
    | None => ([], None)
    end.
Proof. unfold subscript, wbind. by destruct (concepts gd !! k). Qed.

Lemma concept_nodes_body gd i k :
  (λ '(i, node_id),
     wbind (subscript (knowledge_nodes gd) node_id) (λ node_data,
       wbind (subscript (knowledge_nodes gd) node_id) (λ node_data',
         write (pretty (i + 1)%nat +:+ ". " +:+ kn_title node_data
                +:+ " (" +:+ kn_difficulty node_data' +:+ ")")))) (i, k)
  = match knowledge_nodes gd !! k with
    | Some d => write (pretty (i + 1)%nat +:+ ". " +:+ kn_title d
                       +:+ " (" +:+ kn_difficulty d +:+ ")")
    | None => ([], None)
    end.
Proof. unfold subscript, wbind. by destruct (knowledge_nodes gd !! k). Qed.

(** A list of members, written under a heading. *)
Lemma member_listing {V : Type} (d : gmap string V) (line : nat → V → string)
    (body : nat * string → written unit) heading (seq : option (list string))
    (out : written unit) :
  (∀ i k, body (i, k) = match d !! k with
                        | Some v => write (line i v)
                        | None => ([], None)
                        end) →
  out = match seq with
        | Some l => wbind (write heading) (λ _, for_each body (enumerate l))
        | None => wret tt
        end →
  (is_Some out.2 ↔ ∀ l x, seq = Some l → x ∈ l → is_Some (d !! x))
  ∧ (∀ l, seq = Some l → is_Some out.2 →
       ∃ lines,
         out.1 = heading :: lines
         ∧ Forall2 (λ ix o, ∃ v, d !! ix.2 = Some v ∧ o = line ix.1 v)
             (enumerate l) lines)
  ∧ (out.2 = None →
       ∃ l j x, seq = Some l ∧ l !! j = Some x ∧ d !! x = None
                ∧ length out.1 = S j).
Proof.
  intros Hbody ->. destruct seq as [l|]; last first.
  { simpl. split; [split; [done|by eexists]|]. split; [done|]. by intros [=]. }
  destruct (for_each_subscript d line body (enumerate l) Hbody)
    as (Hok & n & Hlines & Hall & Hnone).
  unfold wbind. simpl. split; [|split].
  - rewrite Hok, Forall_forall. split.
    + intros Hd l' x [= <-] Hx.
      apply list_elem_of_lookup in Hx as [j Hj].
      apply (Hd (j, x)). apply list_elem_of_lookup. exists j.
      unfold enumerate. by rewrite enumerate_from_lookup, Hj.
    + intros Hd [j x] Hjx. apply (Hd l x); [done|].
      apply list_elem_of_lookup in Hjx as [j' Hj'].
      unfold enumerate in Hj'. rewrite enumerate_from_lookup in Hj'.
      destruct (l !! j') as [x'|] eqn:Hx'; [|done]. simpl in Hj'.
      injection Hj' as _ <-. by eapply list_elem_of_lookup_2.
  - intros l' [= <-] Hsome. eexists. split; [done|].
    rewrite (Hall Hsome), firstn_all in Hlines. done.
  - intros Hraise. destruct (Hnone Hraise) as ([j x] & Hjx & Hx).
    unfold enumerate in Hjx. rewrite enumerate_from_lookup in Hjx.
    destruct (l !! n) as [x'|] eqn:Hx'; [|done]. simpl in Hjx.
    injection Hjx as <- <-. exists l, n, x'. split; [done|]. split; [done|].
    split; [done|]. f_equal. apply Forall2_length in Hlines.
    rewrite <- Hlines, length_take.
    assert (n < length (enumerate l))%nat; [|lia].
    apply lookup_lt_is_Some. unfold enumerate.
    rewrite enumerate_from_lookup, Hx'. by eexists.
Qed.

(** X16. The lists of the Learning Paths and Concepts tabs.  The list of
    concepts of a learning path is written in full, one numbered line with the
    name of the concept per entry of the concept sequence, exactly when every
    concept that an INCLUDES statement names for the path has a creation
    statement; otherwise the subscript raises at the first entry without one,
    after the heading and the lines before it.  The same holds for the list
    of knowledge nodes of a concept and the CONTAINS statements.  (The graph
    builder, by contrast, skips such members.) *)
Theorem tab_lists_raise_on_undeclared_members s k :
  (∀ p, learning_paths (parsed s) !! k = Some p →
     (is_Some (list_path_concepts (parsed s) p).2 ↔
        ∀ x, x ∈ (includes_members s k).*1 → is_Some (concepts (parsed s) !! x))
     ∧ (∀ l, p_conceptSequence p = Some l →
          is_Some (list_path_concepts (parsed s) p).2 →
          ∃ lines,
            (list_path_concepts (parsed s) p).1 = "**Concepts:**" :: lines
            ∧ Forall2 (λ ix o, ∃ c, concepts (parsed s) !! ix.2 = Some c
                                    ∧ o = pretty (ix.1 + 1)%nat +:+ ". " +:+ c_name c)
                (enumerate l) lines)
     ∧ ((list_path_concepts (parsed s) p).2 = None →
          ∃ l j x, p_conceptSequence p = Some l ∧ l !! j = Some x
                   ∧ concepts (parsed s) !! x = None
                   ∧ length (list_path_concepts (parsed s) p).1 = S j))
  ∧ (∀ c, concepts (parsed s) !! k = Some c →
     (is_Some (list_concept_nodes (parsed s) c).2 ↔
        ∀ x, x ∈ (contains_members s k).*1 →
             is_Some (knowledge_nodes (parsed s) !! x))
     ∧ (∀ l, c_sequence c = Some l →
          is_Some (list_concept_nodes (parsed s) c).2 →
          ∃ lines,
            (list_concept_nodes (parsed s) c).1 = "**Knowledge Nodes:**" :: lines
            ∧ Forall2 (λ ix o, ∃ d, knowledge_nodes (parsed s) !! ix.2 = Some d
                                    ∧ o = pretty (ix.1 + 1)%nat +:+ ". " +:+ kn_title d
                                          +:+ " (" +:+ kn_difficulty d +:+ ")")
                (enumerate l) lines)
     ∧ ((list_concept_nodes (parsed s) c).2 = None →
          ∃ l j x, c_sequence c = Some l ∧ l !! j = Some x
                   ∧ knowledge_nodes (parsed s) !! x = None
                   ∧ length (list_concept_nodes (parsed s) c).1 = S j)).
Proof.
  split.
  - intros p Hp.
    destruct (member_listing (concepts (parsed s))
                (λ i c, pretty (i + 1)%nat +:+ ". " +:+ c_name c) _ "**Concepts:**"
                (p_conceptSequence p) (list_path_concepts (parsed s) p)
                (path_concepts_body (parsed s)) eq_refl) as (Hok & Hlines & Hraise).
    split; [|by split]. rewrite Hok.
    destruct (parsed_path s _ _ _ (parsed_path_Some s k (mk_is_Some _ _ Hp)) Hp)
      as (_ & Hnil & Hcons).
    destruct (decide (includes_members s k = [])) as [Hm|Hm].
    + destruct (Hnil Hm) as [-> _]. rewrite Hm. split; [|done].
      by intros _ x ?%elem_of_nil.
    + rewrite (Hcons Hm). split.
      * intros Hd x Hx. eapply Hd; [done|]. by rewrite sorted_perm.
      * intros Hd l x [= <-] Hx. apply Hd. by rewrite sorted_perm in Hx.
  - intros c Hc.
    destruct (member_listing (knowledge_nodes (parsed s))
                (λ i d, pretty (i + 1)%nat +:+ ". " +:+ kn_title d
                        +:+ " (" +:+ kn_difficulty d +:+ ")") _
                "**Knowledge Nodes:**"
                (c_sequence c) (list_concept_nodes (parsed s) c)
                (concept_nodes_body (parsed s)) eq_refl) as (Hok & Hlines & Hraise).
    split; [|by split]. rewrite Hok.
    destruct (parsed_concept s _ _ _ (parsed_concept_Some s k (mk_is_Some _ _ Hc)) Hc)
      as (_ & Hnil & Hcons).
    destruct (decide (contains_members s k = [])) as [Hm|Hm].
    + destruct (Hnil Hm) as [-> _]. rewrite Hm. split; [|done].
      by intros _ x ?%elem_of_nil.
    + rewrite (Hcons Hm). split.
      * intros Hd x Hx. eapply Hd; [done|]. by rewrite sorted_perm.
      * intros Hd l x [= <-] Hx. apply Hd. by rewrite sorted_perm in Hx.
Qed.

(** ** Wrapped labels *)

Lemma substring_0_all n s : (String.length s ≤ n)%nat → substring 0 n s = s.
Proof.
  revert n. induction s as [|a s IH]; intros n Hn; [by destruct n|].
  destruct n as [|n]; simpl in *; [lia|]. rewrite IH; [done|lia].
Qed.

Lemma substring_0_app a b s :
  substring 0 (a + b) s = substring 0 a s +:+ substring a b s.
Proof.
  revert s. induction a as [|a IH]; intros s; simpl.
  - by destruct b, s.
  - destruct s as [|x s]; simpl; [by destruct b|].
    by rewrite IH, append_cons.
Qed.

Lemma length_substring i k s :
  String.length (substring i k s) = (k `min` (String.length s - i))%nat.
Proof.
  revert i k. induction s as [|a s IH]; intros i k.
  - destruct i, k; simpl; lia.
  - destruct i as [|i].
    + destruct k as [|k]; simpl; [done|]. rewrite IH. lia.
    + simpl. by rewrite IH.
Qed.

Lemma concat_snoc l x :
  String.concat EmptyString (l ++ [x]) = String.concat EmptyString l +:+ x.
Proof.
  induction l as [|y l IH]; simpl; [by rewrite append_nil|].
  destruct l as [|z l].
  - simpl. by rewrite append_nil.
  - simpl in *. rewrite IH. by rewrite !append_nil, append_assoc.
Qed.

Lemma concat_substrings k m s :
  String.concat EmptyString ((λ j, substring (k * j) k s) <$> seq 0 m)
  = substring 0 (k * m) s.
Proof.
  induction m as [|m IH].
  - rewrite Nat.mul_0_r. simpl. by destruct s.
  - rewrite seq_S, fmap_app, list_fmap_singleton, concat_snoc, IH. simpl.
    by rewrite Nat.mul_succ_r, substring_0_app.
Qed.

(** X17. Wrapping a label loses nothing: the wrapped label is the label cut
    into parts that are joined by line breaks; the parts, put together
    again, are the label; every part has at most 20 characters and every
    part but the last exactly 20; a label of at most 20 characters is left
    as it is. *)
Theorem wrap_label_cuts_into_lines_of_20 label :
  ∃ parts,
    wrap_label label = String.concat nl parts
    ∧ String.concat EmptyString parts = label
    ∧ Forall (λ part, (String.length part ≤ 20)%nat) parts
    ∧ (∀ i part, parts !! i = Some part → (S i < length parts)%nat →
         String.length part = 20%nat)
    ∧ ((String.length label ≤ 20)%nat → wrap_label label = label).
Proof.
  unfold wrap_label. destruct (Nat.ltb_spec 20 (String.length label)) as [Hlong|Hshort].
  - set (n := String.length label) in *.
    set (m := ((n - 0 + 20 - 1) / 20)%nat).
    assert (20 * m ≤ n + 19 ∧ n ≤ 20 * m)%nat as [Hm1 Hm2].
    { unfold m. replace (n - 0 + 20 - 1)%nat with (n + 19)%nat by lia.
      pose proof (Nat.Div0.mul_div_le (n + 19) 20).
      pose proof (Nat.mul_succ_div_gt (n + 19) 20). lia. }
    exists ((λ i, substring i 20 label) <$> range 0 n 20).
    assert ((λ i, substring i 20 label) <$> range 0 n 20
            = (λ j, substring (20 * j) 20 label) <$> seq 0 m) as Hparts.
    { unfold range. fold m. rewrite <- list_fmap_compose. done. }
    split; [done|]. rewrite Hparts. split; [|split; [|split]].
    + rewrite concat_substrings. apply substring_0_all. fold n. lia.
    + apply Forall_fmap, Forall_forall. intros j _. simpl.
      rewrite length_substring. lia.
    + intros i part Hi Hlast. rewrite length_fmap, length_seq in Hlast.
      rewrite list_lookup_fmap in Hi.
      destruct (seq 0 m !! i) as [j|] eqn:Hj; [|done].
      apply lookup_seq in Hj as [-> _]. simpl in Hi. injection Hi as <-.
      rewrite length_substring. fold n. lia.
    + lia.
  - exists [label]. simpl. split; [done|]. split; [done|].
    split; [by constructor|]. split; [|done].
    intros i part _ Hi. simpl in Hi. lia.
Qed.

(** ** The member lists of the inspector *)

Section sorted_unique.
Context {A : Type} (key : A → Z).

(** An ascending rearrangement of a list with strictly ascending keys is
    that list. *)
Lemma sorted_unique l1 l2 :
  l1 ≡ₚ l2 →
  StronglySorted (λ a b, (key a ≤ key b)%Z) l1 →
  StronglySorted (λ a b, (key a < key b)%Z) l2 → l1 = l2.
Proof.
  revert l1. induction l2 as [|y l2 IH]; intros l1 Hperm H1 H2.
  - by apply Permutation_nil_r.
  - destruct l1 as [|x l1]; [by apply Permutation_nil_cons in Hperm|].
    apply StronglySorted_inv in H1 as [H1 Hx]. apply StronglySorted_inv in H2 as [H2 Hy].
    assert (x = y) as ->.
    { assert (x ∈ y :: l2) as Hxin by (rewrite <- Hperm; left).
      assert (y ∈ x :: l1) as Hyin by (rewrite Hperm; left).
      apply elem_of_cons in Hxin as [?|Hxin]; [done|].
      apply elem_of_cons in Hyin as [?|Hyin]; [done|].
      pose proof (proj1 (Forall_forall _ _) Hx y Hyin).
      pose proof (proj1 (Forall_forall _ _) Hy x Hxin). simpl in *. lia. }
    f_equal. apply IH; [by apply Permutation_cons_inv in Hperm|done..].
Qed.

Lemma sorted_strict l1 l2 :
  l1 ≡ₚ l2 → StronglySorted (λ a b, (key a < key b)%Z) l2 → sorted key l1 = l2.
Proof.
  intros Hperm H2. apply sorted_unique; [by rewrite sorted_perm| |done].
  apply Sorted_StronglySorted; [|apply sorted_Sorted].
  intros a b c ??. lia.
Qed.

Lemma insert_by_paired x l :
  insert_by snd (x, key x) ((λ x, (x, key x)) <$> l)
  = (λ x, (x, key x)) <$> insert_by key x l.
Proof.
  induction l as [|y l IH]; [done|]. rewrite fmap_cons. simpl.
  destruct (key x <=? key y)%Z; [done|]. rewrite fmap_cons. f_equal. exact IH.
Qed.

Lemma sorted_paired l :
  (sorted snd ((λ x, (x, key x)) <$> l)).*1 = sorted key l.
Proof.
  assert (sorted snd ((λ x, (x, key x)) <$> l) = (λ x, (x, key x)) <$> sorted key l)
    as ->.
  { induction l as [|x l IH]; [done|]. rewrite fmap_cons.
    change (sorted snd ((x, key x) :: ((λ x, (x, key x)) <$> l)))
      with (insert_by snd (x, key x) (sorted snd ((λ x, (x, key x)) <$> l))).
    rewrite IH. apply insert_by_paired. }
  rewrite <- list_fmap_compose. apply list_fmap_id.
Qed.

(** Sorting by integer keys given as attributes. *)
Lemma sort_by_key_ints (key_attr : A → attr) l :
  (∀ x, x ∈ l → key_attr x = AInt (key x)) →
  sort_by_key ((λ x, (x, key_attr x)) <$> l) = Some (sorted key l).
Proof.
  intros Hkeys. unfold sort_by_key.
  assert (mapM (λ p : A * attr, pair p.1 <$> int_key p.2)
            ((λ x, (x, key_attr x)) <$> l) = Some ((λ x, (x, key x)) <$> l)) as ->.
  { apply mapM_Some. apply Forall2_fmap. apply Forall_Forall2_diag, Forall_forall.
    intros x Hx. simpl. by rewrite (Hkeys x Hx). }
  by rewrite sorted_paired.
Qed.
End sorted_unique.

Lemma comprehension_omap {A B : Type} (f : A → option (option B)) (g : A → option B) l :
  (∀ x, x ∈ l → f x = Some (g x)) → comprehension f l = Some (omap g l).
Proof.
  intros Hf. unfold comprehension.
  assert (mapM f l = Some (g <$> l)) as ->.
  { apply mapM_Some. apply Forall2_fmap_r, Forall_Forall2_diag, Forall_forall.
    exact Hf. }
  simpl. f_equal. clear Hf. induction l as [|x l IH]; [done|].
  simpl. destruct (g x); simpl; [f_equal|]; exact IH.
Qed.

Lemma NoDup_omap_fst {A B : Type} (g : A → option B) (h : B → A) l :
  (∀ x y, g x = Some y → h y = x) → NoDup l → NoDup (omap g l).
Proof.
  intros Hg. induction 1 as [|x l Hx Hl IH]; simpl; [constructor|].
  destruct (g x) as [y|] eqn:Hy; [|done]. constructor; [|done].
  intros (x' & Hx' & Hy')%list_elem_of_omap.
  apply Hg in Hy, Hy'. congruence.
Qed.

Lemma ranked_elem label_of l e :
  e ∈ ranked label_of l ↔
  ∃ i v label, last_index l v = Some i ∧ label_of v = Some label
               ∧ e = (v, AInt (Z.of_nat i + 1), AStr label).
Proof.
  unfold ranked. rewrite list_elem_of_omap. split.
  - intros ([i v] & Hiv & He). simpl in He.
    destruct (bool_decide (last_index l v = Some i)) eqn:Hlast; [|done].
    apply bool_decide_eq_true_1 in Hlast.
    destruct (label_of v) as [label|] eqn:Hlabel; [|done].
    injection He as <-. by exists i, v, label.
  - intros (i & v & label & Hlast & Hlabel & ->). exists (i, v). split.
    + apply list_elem_of_lookup. exists i. unfold enumerate.
      rewrite enumerate_from_lookup.
      apply last_index_Some in Hlast as [-> _]. done.
    + simpl. by rewrite bool_decide_eq_true_2, Hlabel.
Qed.

Lemma omap_enumerate_sorted {A B : Type} (key : B → Z) (h : nat * A → option B) i0 l :
  (∀ i v e, h (i, v) = Some e → key e = (Z.of_nat i + 1)%Z) →
  StronglySorted (λ a b, (key a < key b)%Z) (omap h (enumerate_from i0 l))
  ∧ Forall (λ e, (Z.of_nat i0 < key e)%Z) (omap h (enumerate_from i0 l)).
Proof.
  intros Hkey. revert i0. induction l as [|x l IH]; intros i0; simpl.
  - split; constructor.
  - destruct (IH (S i0)) as [IHs IHf].
    assert (Forall (λ e, (Z.of_nat i0 + 1 < key e)%Z)
              (omap h (enumerate_from (S i0) l))) as Hlater.
    { eapply Forall_impl; [exact IHf|]. intros e. simpl. lia. }
    destruct (h (i0, x)) as [e|] eqn:He.
    + apply Hkey in He. split.
      * constructor; [done|]. eapply Forall_impl; [exact Hlater|].
        intros e'. simpl. lia.
      * constructor; [lia|]. eapply Forall_impl; [exact Hlater|].
        intros e'. simpl. lia.
    + split; [done|]. eapply Forall_impl; [exact Hlater|]. intros e'. simpl. lia.
Qed.

Lemma ranked_sorted label_of l :
  StronglySorted (λ a b, (entry_key a < entry_key b)%Z) (ranked label_of l).
Proof.
  apply (omap_enumerate_sorted entry_key _ 0 l).
  intros i v e He. simpl in He.
  destruct (bool_decide _); [|done]. destruct (label_of v); [|done].
  by injection He as <-.
Qed.

Lemma NoDup_strictly_sorted {B : Type} (key : B → Z) l :
  StronglySorted (λ a b, (key a < key b)%Z) l → NoDup l.
Proof.
  induction 1 as [|x l _ IH Hx]; constructor; [|done].
  intros Hin. pose proof (proj1 (Forall_forall _ _) Hx x Hin). simpl in *. lia.
Qed.

(** The sorted member list of an owner, from what the entries are. *)
Lemma sorted_members_ranked G type relation k label_of l :
  (∀ n, n ∈ successors G k →
     member_entry G type relation k n =
       Some (i ← last_index l n; label ← label_of n;
             Some (n, AInt (Z.of_nat i + 1), AStr label))) →
  (∀ n i label, last_index l n = Some i → label_of n = Some label →
     n ∈ successors G k) →
  sorted_members G type relation k = Some (ranked label_of l).
Proof.
  intros Hentry Hsucc. unfold sorted_members.
  set (g := λ n, i ← last_index l n; label ← label_of n;
                 Some (n, AInt (Z.of_nat i + 1), AStr label)).
  rewrite (comprehension_omap _ g); last first.
  { intros n Hn%elem_of_elements. by apply Hentry. }
  simpl.
  assert (∀ n e, g n = Some e ↔
            ∃ i label, last_index l n = Some i ∧ label_of n = Some label
                       ∧ e = (n, AInt (Z.of_nat i + 1), AStr label)) as Hg.
  { intros n e. unfold g. split.
    - destruct (last_index l n) as [i|]; [|done]. simpl.
      destruct (label_of n) as [label|]; [|done]. simpl.
      intros [= <-]. by exists i, label.
    - intros (i & label & -> & Hlabel & ->). simpl. by rewrite Hlabel. }
  rewrite (sort_by_key_ints entry_key); last first.
  { intros e (n & _ & He)%list_elem_of_omap.
    apply Hg in He as (i & label & _ & _ & ->). done. }
  f_equal. apply sorted_strict; [|apply ranked_sorted].
  apply NoDup_Permutation.
  - apply (NoDup_omap_fst g (λ e, e.1.1)); [|apply NoDup_elements].
    intros n e (i & label & _ & _ & ->)%Hg. done.
  - eapply NoDup_strictly_sorted, ranked_sorted.
  - intros e. rewrite ranked_elem, list_elem_of_omap. split.
    + intros (n & _ & (i & label & ? & ? & ->)%Hg). by exists i, n, label.
    + intros (i & n & label & Hi & Hlabel & ->). exists n. split.
      * apply elem_of_elements. by eapply Hsucc.
      * apply Hg. by exists i, label.
Qed.

Lemma graph_of_successor s k n :
  n ∈ successors (graph_of s) k →
  ∃ e, g_adj (graph_of s) !! (k, n) = Some e
       ∧ has_node (graph_of s) k = true ∧ has_node (graph_of s) n = true.
Proof.
  intros [e He]%elem_of_successors. exists e. split; [done|].
  rewrite graph_of_edge in He.
  destruct (has_node (graph_of s) k), (has_node (graph_of s) n); done.
Qed.

Lemma no_relationship_from_path s k n :
  is_Some (learning_paths (parsed s) !! k) →
  last_relationship (relationships (parsed s)) k n = None.
Proof.
  intros [p Hp].
  destruct (last_relationship _ k n) as [r|] eqn:Hr; [|done].
  apply last_relationship_Some in Hr as [Hr [<- <-]].
  pose proof (parsed_relationship_Some s r Hr) as Hs.
  destruct (parsed_path s _ _ _ Hs Hp) as [Hinit _].
  destruct (parsed_relationship_initials s _ r Hs Hr) as [[? _]|[? _]];
    congruence.
Qed.

Lemma no_relationship_to_unit s k n :
  is_Some (concepts (parsed s) !! k) → is_Some (knowledge_nodes (parsed s) !! n) →
  last_relationship (relationships (parsed s)) k n = None.
Proof.
  intros [c Hc] Hn.
  destruct (last_relationship _ k n) as [r|] eqn:Hr; [|done].
  apply last_relationship_Some in Hr as [Hr [<- <-]].
  pose proof (parsed_relationship_Some s r Hr) as Hs.
  destruct (parsed_concept s _ _ _ Hs Hc) as [Hinit _].
  apply (parsed_knowledge_node s _ _ Hs) in Hn.
  destruct (parsed_relationship_initials s _ r Hs Hr) as [[? _]|[_ ?]];
    congruence.
Qed.

Lemma member_entry_eq G type relation k n d e :
  g_node G !! n = Some d → g_adj G !! (k, n) = Some e →
  member_entry G type relation k n =
    Some (if bool_decide (d !! "type" = Some (AStr type))
             && bool_decide (e !! "relation" = Some (AStr relation))
          then Some (n, default (AInt 0) (e !! "sequence"),
                     default (AStr n) (d !! "label"))
          else None).
Proof.
  intros Hd He. unfold member_entry. rewrite Hd. simpl.
  destruct (bool_decide (d !! "type" = Some (AStr type))); [|done].
  rewrite He. simpl. by destruct (bool_decide _).
Qed.

(** The entry of a successor that is a member of the right kind, and of one
    that is of another kind. *)
Lemma member_entry_member G type relation k n i label d :
  g_node G !! n = Some (node_attrs type label d) →
  g_adj G !! (k, n) = Some (member_attrs relation i) →
  member_entry G type relation k n
  = Some (Some (n, AInt (Z.of_nat i + 1), AStr label)).
Proof.
  intros Hd He. rewrite (member_entry_eq _ _ _ _ _ _ _ Hd He).
  destruct (member_attrs_lookup relation i) as [-> ->].
  rewrite node_attrs_type, node_attrs_label.
  by rewrite !bool_decide_eq_true_2 by done.
Qed.

Lemma member_entry_other_kind G type type' relation k n label d e :
  type' ≠ type →
  g_node G !! n = Some (node_attrs type' label d) →
  g_adj G !! (k, n) = Some e →
  member_entry G type relation k n = Some None.
Proof.
  intros Hne Hd He. rewrite (member_entry_eq _ _ _ _ _ _ _ Hd He).
  rewrite node_attrs_type. by rewrite bool_decide_eq_false_2 by congruence.
Qed.

Lemma contained_nodes_ranked s k c :
  concepts (parsed s) !! k = Some c →
  contained_nodes (graph_of s) k
  = Some (ranked (λ v, kn_title <$> knowledge_nodes (parsed s) !! v)
            (default [] (c_sequence c))).
Proof.
  intros Hc.
  assert (learning_paths (parsed s) !! k = None) as Hnopath.
  { apply (proj2 (parsed_kinds_disjoint s k)). by eexists. }
  assert (∀ n, member_rank (concepts (parsed s) !! k ≫= c_sequence) n
               = last_index (default [] (c_sequence c)) n) as Hrank.
  { intros n. rewrite Hc. simpl. by destruct (c_sequence c). }
  apply sorted_members_ranked.
  - intros n (e & He & Hk & Hn)%graph_of_successor.
    pose proof He as He'.
    rewrite graph_of_edge, Hk, Hn, Hnopath in He'. simpl in He'.
    rewrite Hrank in He'.
    pose proof (graph_of_node s n) as Hd.
    destruct (knowledge_nodes (parsed s) !! n) as [dn|] eqn:Hdn; simpl.
    + destruct (last_index (default [] (c_sequence c)) n) as [i|]; simpl.
      * injection He' as <-. by eapply member_entry_member.
      * rewrite no_relationship_to_unit in He'; [done|by eexists..].
    + replace (last_index (default [] (c_sequence c)) n ≫= _)
        with (None : option (string * attr * attr))
        by (by destruct (last_index _ n)).
      destruct (concepts (parsed s) !! n) as [cn|].
      { by eapply (member_entry_other_kind _ _ "Concept"). }
      destruct (learning_paths (parsed s) !! n) as [pn|] eqn:Hpn.
      { by eapply (member_entry_other_kind _ _ "LearningPath"). }
      apply has_node_true in Hn as [? ?]. congruence.
  - intros n i label Hi Hlabel. apply elem_of_successors. unfold is_edge.
    destruct (knowledge_nodes (parsed s) !! n) as [dn|] eqn:Hdn; [|done].
    rewrite graph_of_edge, Hnopath. simpl. rewrite Hrank, Hi.
    assert (has_node (graph_of s) k = true) as ->
      by (apply has_node_graph_of; right; left; by eexists).
    assert (has_node (graph_of s) n = true) as ->
      by (apply has_node_graph_of; left; by eexists).
    by eexists.
Qed.

Lemma included_concepts_ranked s k p :
  learning_paths (parsed s) !! k = Some p →
  included_concepts (graph_of s) k
  = Some (ranked (λ v, c_name <$> concepts (parsed s) !! v)
            (default [] (p_conceptSequence p))).
Proof.
  intros Hp.
  assert (∀ n, member_rank (learning_paths (parsed s) !! k ≫= p_conceptSequence) n
               = last_index (default [] (p_conceptSequence p)) n) as Hrank.
  { intros n. rewrite Hp. simpl. by destruct (p_conceptSequence p). }
  assert (concepts (parsed s) !! k = None) as Hnoconcept.
  { destruct (concepts (parsed s) !! k) as [c|] eqn:Hc; [|done].
    rewrite (proj2 (parsed_kinds_disjoint s k)) in Hp; [done|by eexists]. }
  apply sorted_members_ranked.
  - intros n (e & He & Hk & Hn)%graph_of_successor.
    pose proof He as He'.
    rewrite graph_of_edge, Hk, Hn, Hrank, Hnoconcept in He'. simpl in He'.
    rewrite no_relationship_from_path in He' by (by eexists).
    destruct (last_index (default [] (p_conceptSequence p)) n) as [i|] eqn:Hi;
      [|done].
    injection He' as <-. simpl.
    pose proof (graph_of_node s n) as Hd.
    destruct (knowledge_nodes (parsed s) !! n) as [dn|] eqn:Hdn.
    { rewrite (proj1 (proj1 (parsed_kinds_disjoint s n) ltac:(by eexists))).
      simpl. by eapply (member_entry_other_kind _ _ "KnowledgeNode"). }
    destruct (concepts (parsed s) !! n) as [cn|] eqn:Hcn; simpl.
    + by eapply member_entry_member.
    + destruct (learning_paths (parsed s) !! n) as [pn|] eqn:Hpn.
      { by eapply (member_entry_other_kind _ _ "LearningPath"). }
      apply has_node_true in Hn as [? ?]. congruence.
  - intros n i label Hi Hlabel. apply elem_of_successors. unfold is_edge.
    destruct (concepts (parsed s) !! n) as [cn|] eqn:Hcn; [|done].
    rewrite graph_of_edge, Hrank, Hi.
    assert (has_node (graph_of s) k = true) as ->
      by (apply has_node_graph_of; right; right; by eexists).
    assert (has_node (graph_of s) n = true) as ->
      by (apply has_node_graph_of; right; left; by eexists).
    by eexists.
Qed.

(** X18. The inspector never raises on the member list of a declared concept
    or learning path of a script, and the list it writes is this: each
    member of the sequence that has a creation statement appears once, with
    its title (the name, for a concept), numbered with the place of its last
    occurrence in the sequence, counted from one, in ascending order of
    these numbers.  A member without creation statement is left out and its
    number is skipped, where the tabs raise. *)
Theorem inspector_lists_declared_members_by_position s k :
  (∀ c, concepts (parsed s) !! k = Some c →
     contained_nodes (graph_of s) k
     = Some (ranked (λ v, kn_title <$> knowledge_nodes (parsed s) !! v)
               (default [] (c_sequence c))))
  ∧ (∀ p, learning_paths (parsed s) !! k = Some p →
     included_concepts (graph_of s) k
     = Some (ranked (λ v, c_name <$> concepts (parsed s) !! v)
               (default [] (p_conceptSequence p)))).
Proof.
  split; [apply contained_nodes_ranked|apply included_concepts_ranked].
Qed.

(** ** Key competencies *)

Lemma split_cons sep s : ∃ w ws, split sep s = w :: ws.
Proof.
  induction s as [|a s (w & ws & IH)]; simpl; [by eexists _, _|].
  destruct (Ascii.eqb a sep); [by eexists _, _|]. rewrite IH. by eexists _, _.
Qed.

Lemma concat_cons sep x y l :
  String.concat sep (x :: y :: l) = x +:+ sep +:+ String.concat sep (y :: l).
Proof. done. Qed.

(** Joining the pieces with the separator gives the text back. *)
Lemma concat_split sep s :
  String.concat (String sep EmptyString) (split sep s) = s.
Proof.
  induction s as [|a s IH]; [done|]. simpl.
  destruct (Ascii.eqb_spec a sep) as [->|Hne].
  - destruct (split_cons sep s) as (w & ws & Hw). rewrite Hw in *.
    rewrite concat_cons, IH. done.
  - destruct (split_cons sep s) as (w & ws & Hw). rewrite Hw in *.
    destruct ws as [|w' ws].
    + simpl in *. by rewrite IH.
    + rewrite concat_cons in *. rewrite append_cons. by rewrite IH.
Qed.

Lemma split_pieces sep s :
  Forall (λ piece, string_forall (λ a, negb (Ascii.eqb a sep)) piece = true)
    (split sep s).
Proof.
  induction s as [|a s IH]; simpl; [by repeat constructor|].
  destruct (Ascii.eqb a sep) eqn:Ha; [by constructor|].
  destruct (split sep s) as [|w ws]; [by repeat constructor; simpl; rewrite Ha|].
  apply Forall_cons in IH as [Hw Hws]. constructor; [|done].
  simpl. by rewrite Ha, Hw.
Qed.

(** X19. The key competencies of a learning path are the pieces of the
    text of its last creation statement between semicolons: joined with
    semicolons they give the text back, no piece contains a semicolon, and
    the list is empty exactly when the text is empty (never a list with one
    empty piece). *)
Theorem key_competencies_are_the_pieces_of_the_text s k p :
  learning_paths (parsed s) !! k = Some p →
  ∃ g text,
    last (filter (λ g, head g = Some k) (finditer path_pattern s)) = Some g
    ∧ g !! 4%nat = Some text
    ∧ String.concat ";" (p_keyCompetencies p) = text
    ∧ Forall (λ piece, string_forall (λ a, negb (Ascii.eqb a ";")) piece = true)
        (p_keyCompetencies p)
    ∧ (p_keyCompetencies p = [] ↔ text = EmptyString).
Proof.
  intros Hp. pose proof (parsed_path_Some s k (mk_is_Some _ _ Hp)) as Hs.
  destruct (parsed_path_members s k Hs) as (lp0 & Hlp0 & Hk).
  pose proof (foldM_last_created _ _ _ k path_step_fresh Hlp0) as Hlast.
  destruct (lp0 !! k) as [p0|]; [|congruence].
  destruct Hk as (p' & Hp' & _ & Hfresh). assert (p' = p) as -> by congruence.
  symmetry in Hlast. unfold last_created in Hlast.
  destruct (last (filter (λ g, head g = Some k) (finditer path_pattern s)))
    as [g|] eqn:Hg; [|done].
  simpl in Hlast. exists g.
  pose proof Hg as Hin. apply last_Some_elem_of, list_elem_of_filter in Hin as [_ Hin].
  pose proof Hin as Hmatch.
  apply path_groups in Hin
    as (path_id & name & description & audience & text & minutes & n & -> & _ & Hn).
  apply (field_converts s 5 path_pattern
           [path_id; name; description; audience; text; minutes] minutes) in Hn;
    [|by eexists|numeric_group|done..].
  exists text. split; [done|]. split; [done|].
  unfold path_step in Hlast. rewrite Hn in Hlast. simpl in Hlast.
  destruct (decide (path_id = k)) as [->|Hne];
    [|by rewrite lookup_insert_ne, lookup_empty in Hlast].
  rewrite lookup_insert_eq in Hlast. injection Hlast as Hlast.
  assert (p_keyCompetencies p = match text with
                                | EmptyString => []
                                | String _ _ => split ";" text
                                end) as ->.
  { rewrite <- Hfresh in Hlast. by injection Hlast. }
  destruct text as [|a text]; [by repeat split|].
  split; [apply (concat_split ";")|]. split; [apply split_pieces|].
  split; [|done]. intros Hnil.
  destruct (split_cons ";" (String a text)) as (? & ? & Hsplit). congruence.
Qed.

Lemma key_competencies_witness :
  ∃ g text,
    last (filter (λ g, head g = Some "PATH-1")
            (finditer path_pattern script_path_with_units)) = Some g
    ∧ g !! 4%nat = Some text
    ∧ String.concat ";" ["a"; "b"] = text
    ∧ Forall (λ piece, string_forall (λ a, negb (Ascii.eqb a ";")) piece = true)
        ["a"; "b"]
    ∧ (["a"; "b"] = [] ↔ text = EmptyString).
Proof.
  assert (∃ p, learning_paths (parsed script_path_with_units) !! "PATH-1" = Some p
               ∧ p_keyCompetencies p = ["a"; "b"]) as (p & Hp & Hkey)
    by (vm_compute; eexists; split; reflexivity).
  rewrite <- Hkey.
  exact (key_competencies_are_the_pieces_of_the_text
           script_path_with_units "PATH-1" p Hp).
Defined.

(** ** The inspector of a knowledge node *)

Lemma edge_from_unit s k n :
  is_Some (knowledge_nodes (parsed s) !! k) →
  g_adj (graph_of s) !! (k, n) =
    if has_node (graph_of s) n
    then relationship_attrs <$> last_relationship (relationships (parsed s)) k n
    else None.
Proof.
  intros Hk. rewrite graph_of_edge.
  destruct (proj1 (parsed_kinds_disjoint s k) Hk) as [-> ->].
  assert (has_node (graph_of s) k = true) as -> by (apply has_node_graph_of; by left).
  done.
Qed.

Lemma edge_from_concept_to_unit s c cd k :
  concepts (parsed s) !! c = Some cd → is_Some (knowledge_nodes (parsed s) !! k) →
  g_adj (graph_of s) !! (c, k) = member_attrs "CONTAINS" <$> member_rank (c_sequence cd) k.
Proof.
  intros Hc Hk. rewrite graph_of_edge.
  assert (has_node (graph_of s) c = true) as ->
    by (apply has_node_graph_of; right; left; by eexists).
  assert (has_node (graph_of s) k = true) as -> by (apply has_node_graph_of; by left).
  rewrite (proj2 (parsed_kinds_disjoint s c)) by (by eexists).
  rewrite Hc. simpl. destruct (member_rank (c_sequence cd) k); [done|].
  rewrite no_relationship_to_unit; [done|by eexists|done].
Qed.

Lemma graph_of_predecessor s k n :
  n ∈ predecessors (graph_of s) k →
  ∃ e, g_adj (graph_of s) !! (n, k) = Some e
       ∧ has_node (graph_of s) n = true ∧ has_node (graph_of s) k = true.
Proof.
  intros [e He]%elem_of_predecessors. exists e. split; [done|].
  rewrite graph_of_edge in He.
  destruct (has_node (graph_of s) n), (has_node (graph_of s) k); done.
Qed.

Lemma not_a_unit T label (d : gmap string attr) :
  T ≠ "KnowledgeNode" →
  bool_decide (node_attrs T label d !! "type" = Some (AStr "KnowledgeNode")) = false.
Proof. intros ?. rewrite node_attrs_type. apply bool_decide_eq_false_2. congruence. Qed.

Lemma outgoing_spec s k :
  is_Some (knowledge_nodes (parsed s) !! k) →
  ∃ out,
    outgoing (graph_of s) k = Some out
    ∧ ∀ m rel label, (m, rel, label) ∈ out ↔
        ∃ r d, last_relationship (relationships (parsed s)) k m = Some r
               ∧ knowledge_nodes (parsed s) !! m = Some d
               ∧ rel = AStr (r_type r) ∧ label = AStr (kn_title d).
Proof.
  intros Hk.
  set (g := λ n, d ← knowledge_nodes (parsed s) !! n;
                 r ← last_relationship (relationships (parsed s)) k n;
                 Some (n, AStr (r_type r), AStr (kn_title d))).
  exists (omap g (elements (successors (graph_of s) k))). split.
  - apply comprehension_omap.
    intros n (e & He & _ & Hn)%elem_of_elements%graph_of_successor.
    rewrite graph_of_node. unfold g.
    destruct (knowledge_nodes (parsed s) !! n) as [dn|] eqn:Hdn; simpl.
    + rewrite node_attrs_type, bool_decide_eq_true_2 by done.
      rewrite He. simpl. rewrite edge_from_unit, Hn in He by done.
      destruct (last_relationship _ k n) as [r|]; [|done].
      simpl in *. injection He as <-.
      rewrite relationship_attrs_relation, node_attrs_label. reflexivity.
    + destruct (concepts (parsed s) !! n) eqn:Hcd; simpl;
        [by rewrite not_a_unit|].
      destruct (learning_paths (parsed s) !! n) eqn:Hp; simpl;
        [by rewrite not_a_unit|].
      apply has_node_true in Hn as [? Hd].
      by rewrite graph_of_node, Hdn, Hcd, Hp in Hd.
  - intros m rel label. rewrite list_elem_of_omap. unfold g. split.
    + intros (n & _ & Hg).
      destruct (knowledge_nodes (parsed s) !! n) as [d|] eqn:Hd; [|done].
      simpl in Hg. destruct (last_relationship _ k n) as [r|] eqn:Hr; [|done].
      simpl in Hg. injection Hg as <- <- <-. by exists r, d.
    + intros (r & d & Hr & Hd & -> & ->). exists m. split.
      * apply elem_of_elements, elem_of_successors. unfold is_edge.
        rewrite edge_from_unit, Hr by done.
        assert (has_node (graph_of s) m = true) as ->
          by (apply has_node_graph_of; left; by eexists).
        by eexists.
      * by rewrite Hd, Hr.
Qed.

Lemma incoming_spec s k :
  is_Some (knowledge_nodes (parsed s) !! k) →
  ∃ inc,
    incoming (graph_of s) k = Some inc
    ∧ ∀ m rel label, (m, rel, label) ∈ inc ↔
        ∃ r d, last_relationship (relationships (parsed s)) m k = Some r
               ∧ knowledge_nodes (parsed s) !! m = Some d
               ∧ rel = AStr (r_type r) ∧ label = AStr (kn_title d).
Proof.
  intros Hk.
  assert (has_node (graph_of s) k = true) as Hkn by (apply has_node_graph_of; by left).
  set (g := λ n, d ← knowledge_nodes (parsed s) !! n;
                 r ← last_relationship (relationships (parsed s)) n k;
                 Some (n, AStr (r_type r), AStr (kn_title d))).
  exists (omap g (elements (predecessors (graph_of s) k))). split.
  - apply comprehension_omap.
    intros n (e & He & Hn & _)%elem_of_elements%graph_of_predecessor.
    rewrite graph_of_node. unfold g.
    destruct (knowledge_nodes (parsed s) !! n) as [dn|] eqn:Hdn; simpl.
    + rewrite node_attrs_type, bool_decide_eq_true_2 by done.
      rewrite He. simpl. rewrite edge_from_unit, Hkn in He by (by eexists).
      destruct (last_relationship _ n k) as [r|]; [|done].
      simpl in *. injection He as <-.
      rewrite relationship_attrs_relation, node_attrs_label. reflexivity.
    + destruct (concepts (parsed s) !! n) eqn:Hcd; simpl;
        [by rewrite not_a_unit|].
      destruct (learning_paths (parsed s) !! n) eqn:Hp; simpl;
        [by rewrite not_a_unit|].
      apply has_node_true in Hn as [? Hd].
      by rewrite graph_of_node, Hdn, Hcd, Hp in Hd.
  - intros m rel label. rewrite list_elem_of_omap. unfold g. split.
    + intros (n & _ & Hg).
      destruct (knowledge_nodes (parsed s) !! n) as [d|] eqn:Hd; [|done].
      simpl in Hg. destruct (last_relationship _ n k) as [r|] eqn:Hr; [|done].
      simpl in Hg. injection Hg as <- <- <-. by exists r, d.
    + intros (r & d & Hr & Hd & -> & ->). exists m. split.
      * apply elem_of_elements, elem_of_predecessors. unfold is_edge.
        rewrite edge_from_unit, Hr, Hkn by (by eexists). by eexists.
      * by rewrite Hd, Hr.
Qed.

Lemma containing_concepts_spec s k :
  is_Some (knowledge_nodes (parsed s) !! k) →
  ∃ cc,
    containing_concepts (graph_of s) k = Some cc
    ∧ ∀ c label, (c, label) ∈ cc ↔
        ∃ cd l, concepts (parsed s) !! c = Some cd ∧ c_sequence cd = Some l
                ∧ k ∈ l ∧ label = AStr (c_name cd).
Proof.
  intros Hk.
  set (g := λ n, cd ← concepts (parsed s) !! n;
                 _ ← member_rank (c_sequence cd) k;
                 Some (n, AStr (c_name cd))).
  exists (omap g (elements (predecessors (graph_of s) k))). split.
  - apply comprehension_omap.
    intros n (e & He & Hn & _)%elem_of_elements%graph_of_predecessor.
    rewrite graph_of_node. unfold g.
    destruct (knowledge_nodes (parsed s) !! n) as [dn|] eqn:Hdn; simpl.
    { rewrite (proj1 (proj1 (parsed_kinds_disjoint s n) ltac:(by eexists))).
      simpl. rewrite node_attrs_type.
      by rewrite bool_decide_eq_false_2 by (intros [=]). }
    destruct (concepts (parsed s) !! n) as [cd|] eqn:Hcd; simpl.
    + rewrite node_attrs_type, bool_decide_eq_true_2 by done.
      rewrite He. simpl. rewrite (edge_from_concept_to_unit s n cd k) in He by done.
      destruct (member_rank (c_sequence cd) k) as [i|]; [|done].
      simpl in *. injection He as <-.
      destruct (member_attrs_lookup "CONTAINS" i) as [-> _].
      rewrite bool_decide_eq_true_2, node_attrs_label by done. reflexivity.
    + destruct (learning_paths (parsed s) !! n) eqn:Hp; simpl.
      { rewrite node_attrs_type.
        by rewrite bool_decide_eq_false_2 by (intros [=]). }
      apply has_node_true in Hn as [? Hd].
      by rewrite graph_of_node, Hdn, Hcd, Hp in Hd.
  - intros c label. rewrite list_elem_of_omap. unfold g. split.
    + intros (n & _ & Hg).
      destruct (concepts (parsed s) !! n) as [cd|] eqn:Hcd; [|done].
      simpl in Hg. unfold member_rank in Hg.
      destruct (c_sequence cd) as [l|] eqn:Hl; [|done]. simpl in Hg.
      destruct (last_index l k) as [i|] eqn:Hi; [|done].
      simpl in Hg. injection Hg as <- <-. exists cd, l. repeat split; try done.
      apply last_index_Some in Hi as [Hi _]. by eapply list_elem_of_lookup_2.
    + intros (cd & l & Hcd & Hl & Hin & ->).
      destruct (last_index_is_Some l k Hin) as [i Hi]. exists c. split.
      * apply elem_of_elements, elem_of_predecessors. unfold is_edge.
        rewrite (edge_from_concept_to_unit s c cd k), Hl by done. simpl.
        rewrite Hi. by eexists.
      * rewrite Hcd. simpl. rewrite Hl. simpl. by rewrite Hi.
Qed.

(** X20. The inspector of a declared knowledge node never raises on its
    three lists, and they hold this: the concepts whose sequence has the
    node, with their names; for every knowledge node that the last
    relationship declared from the node leads to, the kind of that
    relationship; and the same for the relationships that lead to the node.
    So a relationship is listed as outgoing at its source exactly when it is
    listed as incoming at its target, with the same kind, and an earlier
    relationship between the same two nodes is listed nowhere. *)
Theorem inspector_of_a_knowledge_node s k :
  is_Some (knowledge_nodes (parsed s) !! k) →
  ∃ cc out inc,
    containing_concepts (graph_of s) k = Some cc
    ∧ outgoing (graph_of s) k = Some out
    ∧ incoming (graph_of s) k = Some inc
    ∧ (∀ c label, (c, label) ∈ cc ↔
         ∃ cd l, concepts (parsed s) !! c = Some cd ∧ c_sequence cd = Some l
                 ∧ k ∈ l ∧ label = AStr (c_name cd))
    ∧ (∀ m rel label, (m, rel, label) ∈ out ↔
         ∃ r d, last_relationship (relationships (parsed s)) k m = Some r
                ∧ knowledge_nodes (parsed s) !! m = Some d
                ∧ rel = AStr (r_type r) ∧ label = AStr (kn_title d))
    ∧ (∀ m rel label, (m, rel, label) ∈ inc ↔
         ∃ r d, last_relationship (relationships (parsed s)) m k = Some r
                ∧ knowledge_nodes (parsed s) !! m = Some d
                ∧ rel = AStr (r_type r) ∧ label = AStr (kn_title d)).
Proof.
  intros Hk.
  destruct (containing_concepts_spec s k Hk) as (cc & Hcc & ?).
  destruct (outgoing_spec s k Hk) as (out & Hout & ?).
  destruct (incoming_spec s k Hk) as (inc & Hinc & ?).
  by exists cc, out, inc.
Qed.

Lemma inspector_of_a_knowledge_node_witness :
  ∃ cc out inc,
    containing_concepts (graph_of script_two_kinds) "N1" = Some cc
    ∧ outgoing (graph_of script_two_kinds) "N1" = Some out
    ∧ incoming (graph_of script_two_kinds) "N1" = Some inc
    ∧ (∀ c label, (c, label) ∈ cc ↔
         ∃ cd l, concepts (parsed script_two_kinds) !! c = Some cd
                 ∧ c_sequence cd = Some l ∧ "N1" ∈ l ∧ label = AStr (c_name cd))
    ∧ (∀ m rel label, (m, rel, label) ∈ out ↔
         ∃ r d, last_relationship (relationships (parsed script_two_kinds)) "N1" m
                = Some r
                ∧ knowledge_nodes (parsed script_two_kinds) !! m = Some d
                ∧ rel = AStr (r_type r) ∧ label = AStr (kn_title d))
    ∧ (∀ m rel label, (m, rel, label) ∈ inc ↔
         ∃ r d, last_relationship (relationships (parsed script_two_kinds)) m "N1"
                = Some r
                ∧ knowledge_nodes (parsed script_two_kinds) !! m = Some d
                ∧ rel = AStr (r_type r) ∧ label = AStr (kn_title d)).
Proof.
  assert (is_Some (knowledge_nodes (parsed script_two_kinds) !! "N1")) as Hk
    by (vm_compute; eexists; reflexivity).
  exact (inspector_of_a_knowledge_node script_two_kinds "N1" Hk).
Defined.

(** ** The drawing on the graph of a script *)

(** A number that [int] returned can be formatted. *)
Lemma digit_value_bound a d : digit_value a = Some d → (0 ≤ d ≤ 9)%Z.
Proof.
  unfold digit_value. destruct (is_digit a) eqn:H; [|done]. intros [= <-].
  unfold is_digit, in_range in H. apply andb_true_iff in H as [H1 H2].
  apply Nat.leb_le in H1, H2. lia.
Qed.

Lemma int_digits_bound w acc n :
  int_digits acc w = Some n → (0 ≤ acc)%Z →
  (0 ≤ n < (acc + 1) * 10 ^ Z.of_nat (String.length w))%Z.
Proof.
  revert acc. induction w as [|a w IH]; intros acc.
  - simpl. intros [= <-] ?. lia.
  - cbn [int_digits String.length]. destruct (digit_value a) as [d|] eqn:Hd; [|done].
    simpl. intros Hn Hacc. apply digit_value_bound in Hd.
    apply IH in Hn; [|lia]. rewrite Nat2Z.inj_succ, Z.pow_succ_r by lia.
    nia.
Qed.

Lemma py_int_formats w n : py_int w = Some n → formats (AInt n) = true.
Proof.
  unfold py_int. destruct w as [|a w]; [done|].
  destruct (Nat.ltb_spec int_max_str_digits (String.length (String a w))) as [|Hle];
    [done|].
  intros Hn%int_digits_bound; [|done]. simpl. apply bool_decide_eq_true_2.
  rewrite Z.abs_eq by lia.
  eapply Z.lt_le_trans; [apply Hn|]. rewrite Z.mul_1_l.
  apply Z.pow_le_mono_r; lia.
Qed.

Lemma knowledge_node_minutes s k d :
  knowledge_nodes (parsed s) !! k = Some d →
  formats (AInt (kn_estimatedMinutes d)) = true.
Proof.
  intros Hk. pose proof (parsed_knowledge_node_Some s k (mk_is_Some _ _ Hk)) as Hs.
  revert Hk.
  destruct (parsed_stages s Hs) as (_ & _ & _ & _ & _ & _ & Hkn & _).
  rewrite (foldM_last_created _ _ _ k knowledge_node_step_fresh Hkn).
  intros (g & m & Hg & Hhead & Hm & Hd)%last_created_match.
  groups_of_match Hg groups_knowledge_node. simpl in Hhead.
  injection Hhead as ->.
  unfold knowledge_node_step in Hm. destruct (py_int x3) as [n|] eqn:Hn; [|done].
  simpl in Hm. injection Hm as <-. rewrite lookup_insert_eq in Hd.
  injection Hd as <-. simpl. by eapply py_int_formats.
Qed.

Lemma concept_minutes s k c :
  concepts (parsed s) !! k = Some c → formats (AInt (c_estimatedMinutes c)) = true.
Proof.
  intros Hc. pose proof (parsed_concept_Some s k (mk_is_Some _ _ Hc)) as Hs.
  destruct (parsed_concept_members s k Hs) as (cs0 & Hcs0 & H).
  pose proof (foldM_last_created _ _ _ k concept_step_fresh Hcs0) as Hlast.
  destruct (cs0 !! k) as [c0|]; [|congruence].
  destruct H as (c' & Hc' & _ & Hf). assert (c' = c) as -> by congruence.
  symmetry in Hlast.
  apply last_created_match in Hlast as (g & m & Hg & Hhead & Hm & Hd).
  groups_of_match Hg groups_concept. simpl in Hhead.
  injection Hhead as ->.
  unfold concept_step in Hm. destruct (py_int x2) as [n|] eqn:Hn; [|done].
  simpl in Hm. injection Hm as <-. rewrite lookup_insert_eq in Hd.
  injection Hd as Hd. rewrite <- Hf in Hd. injection Hd as _ _ _ Hd.
  rewrite <- Hd. by eapply py_int_formats.
Qed.

Lemma path_minutes s k p :
  learning_paths (parsed s) !! k = Some p →
  formats (AInt (p_estimatedMinutes p)) = true.
Proof.
  intros Hp. pose proof (parsed_path_Some s k (mk_is_Some _ _ Hp)) as Hs.
  destruct (parsed_path_members s k Hs) as (lp0 & Hlp0 & H).
  pose proof (foldM_last_created _ _ _ k path_step_fresh Hlp0) as Hlast.
  destruct (lp0 !! k) as [p0|]; [|congruence].
  destruct H as (p' & Hp' & _ & Hf). assert (p' = p) as -> by congruence.
  symmetry in Hlast.
  apply last_created_match in Hlast as (g & m & Hg & Hhead & Hm & Hd).
  groups_of_match Hg groups_path. simpl in Hhead.
  injection Hhead as ->.
  unfold path_step in Hm. destruct (py_int x4) as [n|] eqn:Hn; [|done].
  simpl in Hm. injection Hm as <-. rewrite lookup_insert_eq in Hd.
  injection Hd as Hd. rewrite <- Hf in Hd. injection Hd as _ _ _ _ _ Hd.
  rewrite <- Hd. by eapply py_int_formats.
Qed.

Lemma relationship_strength s r :
  r ∈ relationships (parsed s) → formats (AInt (r_strength r)) = true.
Proof.
  intros Hr. pose proof (parsed_relationship_Some s r Hr) as Hs. revert Hr.
  destruct (parsed_relationships s _ Hs) as (rn & rp & -> & Hrn & Hrp).
  intros [Hr|Hr]%elem_of_app.
  - apply list_elem_of_lookup in Hr as [i Hi].
    destruct (Forall2_lookup_r _ _ _ _ _ Hrn Hi) as (g & Hg & strength & _ & Hn).
    by eapply py_int_formats.
  - apply list_elem_of_lookup in Hr as [i Hi].
    destruct (Forall2_lookup_r _ _ _ _ _ Hrp Hi) as (g & Hg & _ & _ & -> & _).
    done.
Qed.

(** Every node of the graph of a script has a text as label, and every edge
    a text as relation. *)
Lemma graph_of_label s n d :
  g_node (graph_of s) !! n = Some d → ∃ label, d !! "label" = Some (AStr label).
Proof.
  rewrite graph_of_node.
  destruct (knowledge_nodes (parsed s) !! n), (concepts (parsed s) !! n),
    (learning_paths (parsed s) !! n); intros [= <-]; eexists; apply node_attrs_label.
Qed.

Lemma graph_of_relation s uv d :
  g_adj (graph_of s) !! uv = Some d →
  ∃ relation, d !! "relation" = Some (AStr relation).
Proof.
  destruct uv as [u v]. rewrite graph_of_edge.
  destruct (has_node (graph_of s) u && has_node (graph_of s) v); [|done].
  destruct (member_rank _ v) as [i|].
  { intros [= <-]. eexists. apply member_attrs_lookup. }
  destruct (member_rank _ v) as [i|].
  { intros [= <-]. eexists. apply member_attrs_lookup. }
  destruct (last_relationship _ u v) as [r|]; [|done].
  intros [= <-]. eexists. apply relationship_attrs_relation.
Qed.

Lemma all_format_values data keys :
  map_Forall (λ _ value, formats value = true) data → all_format data keys = true.
Proof.
  intros Hdata. unfold all_format. induction keys as [|key keys IH]; [done|].
  simpl. rewrite IH, andb_true_r.
  destruct (data !! key) as [value|] eqn:Hkey; [|done]. by apply (Hdata key).
Qed.

Lemma draw_is_Some sg :
  (∀ n d, g_node sg !! n = Some d →
     (∃ label, d !! "label" = Some (AStr label))
     ∧ map_Forall (λ _ value, formats value = true) d) →
  (∀ uv d, g_adj sg !! uv = Some d →
     (∃ relation, d !! "relation" = Some (AStr relation))
     ∧ all_format d ["relation"; "strength"; "justification"] = true) →
  is_Some (draw sg).
Proof.
  intros Hnode Hedge. unfold draw.
  destruct (mapM (λ nd, label ← draw_node nd.1 nd.2; Some (nd.1, label))
              (map_to_list (g_node sg))) as [nodes|] eqn:Hnodes.
  - simpl.
    destruct (mapM (λ ed, color ← draw_edge ed.2; Some (ed.1, color))
                (map_to_list (g_adj sg))) as [edges|] eqn:Hedges; [by eexists|].
    assert (is_Some (mapM (λ ed : string * string * gmap string attr,
                             color ← draw_edge ed.2; Some (ed.1, color))
                       (map_to_list (g_adj sg)))) as [? ?]; [|congruence].
    apply mapM_is_Some, Forall_forall. intros [uv d] Hd%elem_of_map_to_list.
    destruct (Hedge uv d Hd) as [[relation Hr] Hformat]. simpl.
    unfold draw_edge, edge_color. rewrite Hr, Hformat. by eexists.
  - assert (is_Some (mapM (λ nd : string * gmap string attr,
                             label ← draw_node nd.1 nd.2; Some (nd.1, label))
                       (map_to_list (g_node sg)))) as [? ?]; [|congruence].
    apply mapM_is_Some, Forall_forall. intros [n d] Hd%elem_of_map_to_list.
    destruct (Hnode n d Hd) as [[label Hl] Hformat]. simpl.
    unfold draw_node, node_label. rewrite Hl, all_format_values by done.
    by eexists.
Qed.

Lemma graph_of_values s n d :
  g_node (graph_of s) !! n = Some d → map_Forall (λ _ value, formats value = true) d.
Proof.
  rewrite graph_of_node.
  destruct (knowledge_nodes (parsed s) !! n) as [kn|] eqn:Hkn.
  { intros [= <-]. apply knowledge_node_minutes in Hkn.
    unfold node_attrs, knowledge_node_dict.
    repeat (apply map_Forall_insert_2; [done|]). apply map_Forall_empty. }
  destruct (concepts (parsed s) !! n) as [c|] eqn:Hc.
  { intros [= <-]. apply concept_minutes in Hc.
    unfold node_attrs, concept_dict.
    repeat (apply map_Forall_insert_2; [done|]).
    destruct (c_sequence c); simpl; [|apply map_Forall_empty].
    by apply map_Forall_singleton. }
  destruct (learning_paths (parsed s) !! n) as [p|] eqn:Hp; [|done].
  intros [= <-]. apply path_minutes in Hp.
  unfold node_attrs, path_dict.
  repeat (apply map_Forall_insert_2; [done|]).
  destruct (p_conceptSequence p); simpl; [|apply map_Forall_empty].
  by apply map_Forall_singleton.
Qed.

Lemma graph_of_edge_values s uv d :
  g_adj (graph_of s) !! uv = Some d →
  all_format d ["relation"; "strength"; "justification"] = true.
Proof.
  destruct uv as [u v]. rewrite graph_of_edge.
  destruct (has_node (graph_of s) u && has_node (graph_of s) v); [|done].
  destruct (member_rank _ v) as [i|]; [by intros [= <-]|].
  destruct (member_rank _ v) as [i|]; [by intros [= <-]|].
  destruct (last_relationship _ u v) as [r|] eqn:Hr; [|done].
  apply last_relationship_Some in Hr as [Hr _].
  apply relationship_strength in Hr.
  intros [= <-].
  assert (relationship_attrs r !! "strength" = Some (AInt (r_strength r))) as Hs.
  { unfold relationship_attrs. rewrite lookup_insert_ne by done.
    by rewrite lookup_insert_eq. }
  assert (relationship_attrs r !! "justification" = Some (AStr (r_justification r)))
    as Hj.
  { unfold relationship_attrs. rewrite !lookup_insert_ne by done.
    by rewrite lookup_insert_eq. }
  unfold all_format. cbn [forallb].
  rewrite relationship_attrs_relation, Hs, Hj. cbn [from_option]. by rewrite Hr.
Qed.

(** The drawing does not raise on the graph of a script, nor on a selection
    of it. *)
Lemma draw_selection s sg :
  (∀ n d, g_node sg !! n = Some d → g_node (graph_of s) !! n = Some d) →
  (∀ u v, g_adj sg !! (u, v) =
          if has_node sg u && has_node sg v then g_adj (graph_of s) !! (u, v) else None) →
  is_Some (draw sg).
Proof.
  intros Hdict Hadj. apply draw_is_Some.
  - intros n d Hd%Hdict. split; [by eapply graph_of_label|by eapply graph_of_values].
  - intros [u v] d Hd. rewrite Hadj in Hd.
    destruct (has_node sg u && has_node sg v); [|done].
    split; [by eapply graph_of_relation|by eapply graph_of_edge_values].
Qed.

(** X7. On the graph of a script the concept view never raises.  For an
    identifier that is not a node it reports so and returns nothing.
    Otherwise it draws the node, its successors, its predecessors and the
    predecessors of its successors (so also the other concepts that share a
    unit with it), each with the dictionary it has in the graph, whose label
    is a text, and every edge of the graph between two shown nodes. *)
Theorem concept_view_shows_the_neighbourhood s concept_id :
  if has_node (graph_of s) concept_id then
    ∃ sg,
      create_concept_view (graph_of s) concept_id = Some (Some sg)
      ∧ (∀ v, has_node sg v = true ↔
              v = concept_id ∨ is_edge (graph_of s) concept_id v
              ∨ is_edge (graph_of s) v concept_id
              ∨ ∃ u, is_edge (graph_of s) concept_id u ∧ is_edge (graph_of s) v u)
      ∧ (∀ n d, g_node sg !! n = Some d →
           g_node (graph_of s) !! n = Some d
           ∧ ∃ label, d !! "label" = Some (AStr label))
      ∧ ∀ u v, g_adj sg !! (u, v) =
          if has_node sg u && has_node sg v then g_adj (graph_of s) !! (u, v)
          else None
  else create_concept_view (graph_of s) concept_id = Some None.
Proof.
  assert (wf_graph (graph_of s)) as Hwf by apply build_wf.
  unfold create_concept_view.
  destruct (has_node (graph_of s) concept_id) eqn:Hn; [|done]. simpl.
  destruct (selection_induced (graph_of s) None (Some [concept_id]) 1 Hwf)
    as (sg & -> & Hnodes & Hdict & Hadj).
  destruct (draw_selection s sg Hdict Hadj) as [net Hnet]. simpl.
  rewrite Hnet. simpl.
  exists sg. split; [done|]. split; [|split; [|done]].
  - intros v. rewrite has_node_true, Hnodes, elem_of_selection_1 by done. split.
    + by intros (seed & ->%list_elem_of_singleton & _ & ?).
    + intros Hv. exists concept_id. split; [apply list_elem_of_here|]. by split.
  - intros n d Hd. split; [by apply Hdict|]. eapply graph_of_label, Hdict, Hd.
Qed.

Lemma concept_view_witness :
  ∃ sg,
    create_concept_view (graph_of script_shared_unit) "CONCEPT-1" = Some (Some sg)
    ∧ has_node sg "CONCEPT-2" = true.
Proof.
  assert (has_node (graph_of script_shared_unit) "CONCEPT-1" = true) as Hn
    by (vm_compute; reflexivity).
  assert (is_edge (graph_of script_shared_unit) "CONCEPT-1" "N1") as H1
    by (apply (bool_decide_eq_true_1 (is_Some _)); vm_compute; reflexivity).
  assert (is_edge (graph_of script_shared_unit) "CONCEPT-2" "N1") as H2
    by (apply (bool_decide_eq_true_1 (is_Some _)); vm_compute; reflexivity).
  pose proof (concept_view_shows_the_neighbourhood script_shared_unit "CONCEPT-1")
    as H.
  rewrite Hn in H. destruct H as (sg & Hsg & Hnodes & _).
  exists sg. split; [exact Hsg|]. apply Hnodes.
  right. right. right. exists "N1". split; [exact H1|exact H2].
Defined.
